(** * Thumbnail downloader and video-data fetcher: embedding and properties

    A shallow embedding of [download_thumbnails.py] and of
    [YouTubeFetcher.fetch_video_data] from [fetch_youtube_data.py].

    Python values are modelled as the interpreter has them:
    - a [str] is a list of Unicode code points ([N]);
    - the dictionaries whose insertion order is observable (CSV rows) are
      association lists, the ledger's [failed_ids] is a finite map;
    - files live in a store from paths to contents;
    - what the program cannot decide by itself (the network, the image
      decoder) is passed in as an oracle threading a world state. *)

From Stdlib Require Import ZArith NArith String Ascii Sorted.
From stdpp Require Import gmap list.

Local Open Scope N_scope.
Local Open Scope list_scope.

(** ** Python strings *)

Abbreviation str := (list N).

(** A string literal.  The bytes of the Rocq literal are the code points,
    so literals are written in ASCII and other code points are given by
    number. *)
Definition lit (s : string) : str := map N_of_ascii (list_ascii_of_string s).

Module Py.

(** [bool(s)] for a string. *)
Definition truthy (s : str) : bool :=
  match s with [] => false | _ => true end.

(** The code points [str.isspace] accepts, which are the ones
    [str.strip()] and [int()] remove. *)
Definition isspace (c : N) : bool :=
  ((9 <=? c) && (c <=? 13)) || ((28 <=? c) && (c <=? 32))
  || (c =? 133) || (c =? 160) || (c =? 5760)
  || ((8192 <=? c) && (c <=? 8202))
  || (c =? 8232) || (c =? 8233) || (c =? 8239) || (c =? 8287)
  || (c =? 12288).

Fixpoint lstrip (s : str) : str :=
  match s with
  | c :: s' => if isspace c then lstrip s' else s
  | [] => []
  end.

Definition rstrip (s : str) : str := rev (lstrip (rev s)).

(** [s.strip()] *)
Definition strip (s : str) : str := rstrip (lstrip s).

(** [s.startswith(p)] *)
Fixpoint startswith (p s : str) : bool :=
  match p, s with
  | [], _ => true
  | a :: p', b :: s' => (a =? b) && startswith p' s'
  | _ :: _, [] => false
  end.

(** [p in s] *)
Fixpoint contains (p s : str) : bool :=
  startswith p s ||
  match s with
  | [] => false
  | _ :: s' => contains p s'
  end.

(** [s.split(sep)] for a separator of one character. *)
Fixpoint split (sep : N) (s : str) : list str :=
  match s with
  | [] => [[]]
  | c :: s' =>
      if c =? sep then [] :: split sep s'
      else match split sep s' with
           | h :: t => (c :: h) :: t
           | [] => [[c]]
           end
  end.

(** [int(s)] in base ten: surrounding white space, an optional sign,
    digits with single underscores between them, and no more digits
    than the interpreter converts.  [None] stands for [ValueError].
    The digit table is the ASCII one: on a text with a decimal digit of
    another script, which [int] converts as well, the model gives
    [None], so it is to be used on ASCII texts. *)
Definition digit (c : N) : option Z :=
  if (48 <=? c) && (c <=? 57) then Some (Z.of_N c - 48)%Z else None.

(** The white space [int] removes: that of [str.strip], but for U+001C
    to U+001F, which [int] refuses. *)
Definition int_isspace (c : N) : bool :=
  isspace c && negb ((28 <=? c) && (c <=? 31)).

Fixpoint int_lstrip (s : str) : str :=
  match s with
  | c :: s' => if int_isspace c then int_lstrip s' else s
  | [] => []
  end.

Definition int_strip (s : str) : str :=
  rev (int_lstrip (rev (int_lstrip s))).

(** [sys.get_int_max_str_digits()] as the interpreter starts with it;
    every digit counts, leading zeros too, underscores do not. *)
Definition int_max_str_digits : nat := 4300.

Fixpoint count_digits (s : str) : nat :=
  match s with
  | [] => 0
  | c :: s' =>
      match digit c with
      | Some _ => S (count_digits s')
      | None => count_digits s'
      end
  end.

Fixpoint digits (acc : Z) (after_underscore : bool) (s : str) : option Z :=
  match s with
  | [] => if after_underscore then None else Some acc
  | c :: s' =>
      if c =? 95 then
        if after_underscore then None else digits acc true s'
      else
        match digit c with
        | Some d => digits (acc * 10 + d)%Z false s'
        | None => None
        end
  end.

Definition unsigned (s : str) : option Z :=
  if (int_max_str_digits <? count_digits s)%nat then None
  else
    match s with
    | c :: s' =>
        match digit c with
        | Some d => digits d false s'
        | None => None
        end
    | [] => None
    end.

Definition int (s : str) : option Z :=
  match int_strip s with
  | c :: s' =>
      if c =? 45 then Z.opp <$> unsigned s'
      else if c =? 43 then unsigned s'
      else unsigned (c :: s')
  | [] => None
  end.

End Py.

(** ** Results of fallible calls *)

Inductive result (E A : Type) : Type :=
| Ok (a : A)
| Raise (e : E).
Arguments Ok {E A} a.
Arguments Raise {E A} e.

#[global] Instance result_ret {E} : MRet (result E) := λ A a, Ok a.
#[global] Instance result_bind {E} : MBind (result E) := λ A B f r,
  match r with Ok a => f a | Raise e => Raise e end.
#[global] Instance result_fmap {E} : FMap (result E) := λ A B f r,
  match r with Ok a => Ok (f a) | Raise e => Raise e end.

(** ** [ProgressTracker]: the resume ledger *)

Module ProgressTracker.

(** [self.data]: [{'completed_ids': [...], 'failed_ids': {...}}]. *)
Record Data := {
  completed_ids : list str;
  failed_ids : gmap str str
}.

(** The tracker: the dictionary in memory and what the progress file
    holds ([None] while the file does not exist). *)
Record t := {
  data : Data;
  progress_file : option Data
}.

(** What [load] returns when the file is missing or unreadable. *)
Definition empty : Data := {| completed_ids := []; failed_ids := ∅ |}.

Definition load (file : option Data) : Data :=
  match file with
  | Some d => d
  | None => empty
  end.

Definition init (file : option Data) : t :=
  {| data := load file; progress_file := file |}.

Definition save (p : t) : t :=
  {| data := data p; progress_file := Some (data p) |}.

Definition mark_completed (p : t) (id : str) : t :=
  save
    {| data :=
         {| completed_ids :=
              if bool_decide (id ∈ completed_ids (data p))
              then completed_ids (data p)
              else completed_ids (data p) ++ [id];
            failed_ids := failed_ids (data p) |};
       progress_file := progress_file p |}.

Definition mark_failed (p : t) (id reason : str) : t :=
  save
    {| data :=
         {| completed_ids := completed_ids (data p);
            failed_ids := <[id := reason]> (failed_ids (data p)) |};
       progress_file := progress_file p |}.

Definition is_completed (p : t) (id : str) : bool :=
  bool_decide (id ∈ completed_ids (data p)).

(** A call of one of the two mutators. *)
Inductive call :=
| MarkCompleted (id : str)
| MarkFailed (id reason : str).

Definition apply (p : t) (c : call) : t :=
  match c with
  | MarkCompleted id => mark_completed p id
  | MarkFailed id reason => mark_failed p id reason
  end.

Definition run (p : t) (cs : list call) : t := foldl apply p cs.

(** The ids a list of calls marks completed, and the reasons it gives
    for the failure of an id, in order. *)
Definition marked (cs : list call) : list str :=
  omap (λ c, match c with
             | MarkCompleted id => Some id
             | MarkFailed _ _ => None
             end) cs.

Definition reasons (id : str) (cs : list call) : list str :=
  omap (λ c, match c with
             | MarkFailed id' reason =>
                 if bool_decide (id' = id) then Some reason else None
             | MarkCompleted _ => None
             end) cs.

End ProgressTracker.

(** ** [SkipChecker] *)

Module SkipChecker.

Definition should_skip (image_url : str) : bool :=
  if negb (Py.truthy image_url) || negb (Py.truthy (Py.strip image_url))
  then false
  else
    let image_url := Py.strip image_url in
    if Py.startswith (lit "images/") image_url then true
    else if Py.contains (lit "unsplash.com") image_url
            || Py.contains (lit "placeholder") image_url
    then false
    else false.

End SkipChecker.

(** ** Files *)

(** The file store: a path names at most one file.  A text file holds
    its decoded text (the byte-order mark and the UTF-8 coding of
    [utf-8-sig] are not part of it), a binary file its bytes. *)
Abbreviation files := (gmap str (list N)).

(** [shutil.move(src, dst)] between two file paths; [None] when [src]
    does not exist. *)
Definition move (src dst : str) (fs : files) : option files :=
  match fs !! src with
  | Some c => Some (<[dst := c]> (delete src fs))
  | None => None
  end.

(** ** [InstagramScraper] *)

Module InstagramScraper.

Inductive url_type := post | reel.

Definition url_type_str (t : url_type) : str :=
  match t with post => lit "post" | reel => lit "reel" end.

(** [s] without the prefix [p], when it starts with it. *)
Definition after (p s : str) : option str :=
  if Py.startswith p s then Some (drop (length p) s) else None.

(** [[^/]+]: the longest run of characters other than [/], which must
    not be empty. *)
Fixpoint not_slash (s : str) : str :=
  match s with
  | c :: s' => if c =? 47 then [] else c :: not_slash s'
  | [] => []
  end.

Definition group2 (s : str) : option str :=
  match not_slash s with
  | [] => None
  | id => Some id
  end.

(** The pattern [https://www\.instagram\.com/(p|reel)/([^/]+)] matched
    at the start of [s]; the alternatives are tried in order. *)
Definition match_here (s : str) : option (str * str) :=
  match after (lit "https://www.instagram.com/") s with
  | None => None
  | Some r =>
      let alternative (g1 : str) :=
        match after (g1 ++ lit "/") r with
        | Some r' => (fun id => (g1, id)) <$> group2 r'
        | None => None
        end in
      match alternative (lit "p") with
      | Some m => Some m
      | None => alternative (lit "reel")
      end
  end.

(** [re.search]: the match at the leftmost position that has one. *)
Fixpoint search (s : str) : option (str * str) :=
  match match_here s with
  | Some m => Some m
  | None =>
      match s with
      | _ :: s' => search s'
      | [] => None
      end
  end.

Definition parse_instagram_url (url : str) : option (url_type * str) :=
  match search url with
  | Some (g1, g2) =>
      Some (if bool_decide (g1 = lit "p") then post else reel, g2)
  | None => None
  end.

(** The path segment of a kind of link, and the pattern's fixed start. *)
Definition segment (t : url_type) : str :=
  match t with post => lit "p" | reel => lit "reel" end.

Definition site : str := lit "https://www.instagram.com/".

Section Fetch.
(** The network as the scraper sees it.  [oembed u] is the GET of the
    oEmbed endpoint for [u] followed by [data.get('thumbnail_url')];
    [og_image u] is the GET of the page and the [content] of its
    [og:image] tag.  [None] is every way either can fail: an
    exception, a bad status, a missing value; the [_wait] of the second
    [try] is one of them.  What is defined here is the call from its
    first [try] on: the [self._wait()] before it, which is outside
    every [try] of the scraper, is in [Main.fetch_thumbnail_url]. *)
Context {W : Type}.
Variable oembed : str → W → option str * W.
Variable og_image : str → W → option str * W.

(** The second [try] block: the OG tag of the page. *)
Definition og_tag_fallback (instagram_url : str) (w : W)
  : option str * W :=
  let '(r, w) := og_image instagram_url w in
  match r with
  | Some content =>
      if Py.truthy content then (Some content, w) else (None, w)
  | None => (None, w)
  end.

Definition fetch_thumbnail_url (instagram_url : str) (w : W)
  : option str * W :=
  let '(r, w) := oembed instagram_url w in
  match r with
  | Some thumbnail_url =>
      if Py.truthy thumbnail_url then (Some thumbnail_url, w)
      else og_tag_fallback instagram_url w
  | None => og_tag_fallback instagram_url w
  end.
End Fetch.

End InstagramScraper.

(** ** [ImageDownloader] *)

Module ImageDownloader.

Definition MAX_FILE_SIZE : Z := 10 * 1024 * 1024.

(** What [requests.get(url, stream=True)] hands back, as far as
    [download] looks at it. *)
Record Response := {
  status_ok : bool;              (* [raise_for_status()] does not raise *)
  content_length : option str;   (* [headers.get('Content-Length')] *)
  body : list N;                 (* the bytes [iter_content] yields *)
  stream_ok : bool               (* ... and whether it ends without raising *)
}.

Record t := {
  output_dir : str;
  skip_existing : bool
}.

Section Download.
Context {W : Type}.
(** [requests.get]; [None] when it raises. *)
Variable http_get : str → W → option Response * W.
(** [Image.open(f).verify()] does not raise on a file with these bytes. *)
Variable image_ok : list N → bool.
(** [pathlib]: [dir / name] and [path.with_suffix(s)]. *)
Variable path_join : str → str → str.
Variable with_suffix : str → str → str.

Definition verify_image (fs : files) (filepath : str) : bool :=
  match fs !! filepath with
  | Some bytes => image_ok bytes
  | None => false
  end.

(** The size check: [true] when the download goes on, [false] when it
    is refused or [int] raises. *)
Definition size_accepted (response : Response) : bool :=
  match content_length response with
  | Some s =>
      if Py.truthy s then
        match Py.int s with
        | Some n => negb (MAX_FILE_SIZE <? n)%Z
        | None => false
        end
      else true
  | None => true
  end.

Definition download (self : t) (url filename : str) (w : W) (fs : files)
  : bool * W * files :=
  let filepath := path_join (output_dir self) filename in
  if skip_existing self && bool_decide (is_Some (fs !! filepath))
  then (true, w, fs)
  else
    let '(r, w) := http_get url w in
    match r with
    | None => (false, w, fs)
    | Some response =>
        if negb (status_ok response) then (false, w, fs)
        else if negb (size_accepted response) then (false, w, fs)
        else
          let temp_filepath := with_suffix filepath (lit ".tmp") in
          let fs := <[temp_filepath := body response]> fs in
          if negb (stream_ok response) then (false, w, fs)
          else if negb (verify_image fs temp_filepath)
          then (false, w, delete temp_filepath fs)
          else
            match move temp_filepath filepath fs with
            | Some fs => (true, w, fs)
            | None => (false, w, fs)
            end
    end.
End Download.

End ImageDownloader.

(** ** The [csv] module of the standard library

    [csv.reader], [csv.writer], [csv.DictReader] and [csv.DictWriter] as
    [CSVHandler] configures them: delimiter [;], the double quote as quote
    character, doubled quotes, no escape character, not strict, [QUOTE_MINIMAL],
    line terminator CR LF.  The reader is the state machine of CPython's
    [_csv] module, where a NUL is a character like any other. *)

Module csv.

Definition delimiter : N := 59.
Definition quotechar : N := 34.
Definition CR : N := 13.
Definition LF : N := 10.
Definition lineterminator : str := [CR; LF].
Definition field_size_limit : N := 131072.

Definition is_newline (c : N) : bool := (c =? LF) || (c =? CR).

(** *** Lines of a text file opened with [newline='']

    Iterating the file yields its lines, each with its line ending
    ([\n], [\r] or [\r\n]) left in place. *)
Fixpoint readlines_from (cur : str) (t : str) : list str :=
  match t with
  | [] => match cur with [] => [] | _ => [cur] end
  | c :: t' =>
      if c =? LF then (cur ++ [c]) :: readlines_from [] t'
      else if c =? CR then
        match t' with
        | c' :: t'' =>
            if c' =? LF then (cur ++ [c; c']) :: readlines_from [] t''
            else (cur ++ [c]) :: readlines_from [] t'
        | [] => (cur ++ [c]) :: readlines_from [] t'
        end
      else readlines_from (cur ++ [c]) t'
  end.

Definition readlines (t : str) : list str := readlines_from [] t.

(** *** The reader *)

Inductive state :=
| START_RECORD | START_FIELD | IN_FIELD
| IN_QUOTED_FIELD | QUOTE_IN_QUOTED_FIELD | EAT_CRNL.

(** A character of the line, or the end-of-line mark the reader feeds
    itself after the last character of every line. *)
Inductive input := EOL | Ch (c : N).

Record parser := {
  st : state;
  field : str;
  fields : list str
}.

Inductive Error :=
| field_larger_than_limit
| newline_in_unquoted_field.

Definition parse_reset : parser :=
  {| st := START_RECORD; field := []; fields := [] |}.

Definition goto (s : state) (p : parser) : parser :=
  {| st := s; field := field p; fields := fields p |}.

Definition parse_save_field (p : parser) : parser :=
  {| st := st p; field := []; fields := fields p ++ [field p] |}.

(** A field the reader accepts: it is no longer than the limit. *)
Definition fits (f : str) : Prop :=
  N.of_nat (length f) <= field_size_limit.

Definition parse_add_char (p : parser) (c : N) : result Error parser :=
  if field_size_limit <=? N.of_nat (length (field p))
  then Raise field_larger_than_limit
  else Ok {| st := st p; field := field p ++ [c]; fields := fields p |}.

(** The [START_FIELD] case, which [START_RECORD] falls through to. *)
Definition start_field (p : parser) (c : input) : result Error parser :=
  match c with
  | EOL => Ok (goto START_RECORD (parse_save_field p))
  | Ch c =>
      if is_newline c then Ok (goto EAT_CRNL (parse_save_field p))
      else if c =? quotechar then Ok (goto IN_QUOTED_FIELD p)
      else if c =? delimiter then Ok (parse_save_field p)
      else goto IN_FIELD <$> parse_add_char p c
  end.

Definition parse_process_char (p : parser) (c : input) : result Error parser :=
  match st p with
  | START_RECORD =>
      match c with
      | EOL => Ok p
      | Ch ch =>
          if is_newline ch then Ok (goto EAT_CRNL p)
          else start_field (goto START_FIELD p) c
      end
  | START_FIELD => start_field p c
  | IN_FIELD =>
      match c with
      | EOL => Ok (goto START_RECORD (parse_save_field p))
      | Ch ch =>
          if is_newline ch then Ok (goto EAT_CRNL (parse_save_field p))
          else if ch =? delimiter then Ok (goto START_FIELD (parse_save_field p))
          else parse_add_char p ch
      end
  | IN_QUOTED_FIELD =>
      match c with
      | EOL => Ok p
      | Ch ch =>
          if ch =? quotechar then Ok (goto QUOTE_IN_QUOTED_FIELD p)
          else parse_add_char p ch
      end
  | QUOTE_IN_QUOTED_FIELD =>
      match c with
      | EOL => Ok (goto START_RECORD (parse_save_field p))
      | Ch ch =>
          if ch =? quotechar then goto IN_QUOTED_FIELD <$> parse_add_char p ch
          else if ch =? delimiter then Ok (goto START_FIELD (parse_save_field p))
          else if is_newline ch then Ok (goto EAT_CRNL (parse_save_field p))
          else goto IN_FIELD <$> parse_add_char p ch
      end
  | EAT_CRNL =>
      match c with
      | EOL => Ok (goto START_RECORD p)
      | Ch ch =>
          if is_newline ch then Ok p else Raise newline_in_unquoted_field
      end
  end.

(** The characters of one line, then the end-of-line mark. *)
Fixpoint parse_chars (p : parser) (l : str) : result Error parser :=
  match l with
  | [] => Ok p
  | c :: l' => p' ← parse_process_char p (Ch c); parse_chars p' l'
  end.

Definition parse_line (p : parser) (l : str) : result Error parser :=
  p' ← parse_chars p l; parse_process_char p' EOL.

(** All the records of the lines: [Reader_iternext] called until the
    lines run out.  [inside] says that the record under way has already
    consumed a line; a record cut short by the end of the input is
    returned when it is inside a quoted field or has a field begun. *)
Fixpoint reader_from (p : parser) (inside : bool) (lines : list str)
  : result Error (list (list str)) :=
  match lines with
  | [] =>
      if inside &&
         (Py.truthy (field p) ||
          match st p with IN_QUOTED_FIELD => true | _ => false end)
      then Ok [fields (parse_save_field p)]
      else Ok []
  | l :: lines' =>
      p' ← parse_line p l;
      match st p' with
      | START_RECORD =>
          cons (fields p') <$> reader_from parse_reset false lines'
      | _ => reader_from p' true lines'
      end
  end.

Definition reader (lines : list str) : result Error (list (list str)) :=
  reader_from parse_reset false lines.

(** The fields a parser holds are within the limit. *)
Definition within (p : parser) : Prop :=
  fits (field p) ∧ Forall fits (fields p).

(** *** The reader, seen from the text

    The same reader as a single pass over what it is fed: the
    characters of the text in order, with the end-of-line mark after
    every line ending and after a last line that has none.  [pending]
    says that the line under way has a character already.  The proofs
    about [reader] go through this form. *)
Fixpoint fed_from (pending : bool) (t : str) : list input :=
  match t with
  | [] => if pending then [EOL] else []
  | c :: t' =>
      if c =? LF then Ch c :: EOL :: fed_from false t'
      else if c =? CR then
        match t' with
        | c' :: t'' =>
            if c' =? LF then Ch c :: Ch c' :: EOL :: fed_from false t''
            else Ch c :: EOL :: fed_from false t'
        | [] => Ch c :: EOL :: fed_from false t'
        end
      else Ch c :: fed_from true t'
  end.

(** What the reader is fed for a list of lines. *)
Definition fed_lines (lines : list str) : list input :=
  flat_map (λ l, (Ch <$> l) ++ [EOL]) lines.

Fixpoint run (p : parser) (inside : bool) (inputs : list input)
  : result Error (list (list str)) :=
  match inputs with
  | [] =>
      if inside &&
         (Py.truthy (field p) ||
          match st p with IN_QUOTED_FIELD => true | _ => false end)
      then Ok [fields (parse_save_field p)]
      else Ok []
  | Ch c :: inputs' =>
      p' ← parse_process_char p (Ch c); run p' inside inputs'
  | EOL :: inputs' =>
      p' ← parse_process_char p EOL;
      match st p' with
      | START_RECORD => cons (fields p') <$> run parse_reset false inputs'
      | _ => run p' true inputs'
      end
  end.

(** The state of the reader after the text of a field [f], begun in
    the state [s0] with the fields [F] already read: the field is
    complete and waits for its end. *)
Definition field_read (s0 : state) (f : str) (F : list str) (d : parser)
  : Prop :=
  fields d = F
  ∧ ((st d = QUOTE_IN_QUOTED_FIELD ∧ field d = f)
     ∨ (st d = IN_FIELD ∧ field d = f)
     ∨ (st d = s0 ∧ field d = [] ∧ f = [])).

(** *** The writer *)

Definition needs_quotes (c : N) : bool :=
  (c =? delimiter) || (c =? quotechar) || is_newline c.

(** The characters of a field as they are copied to the record, each
    quote character doubled. *)
Definition join_append_data (f : str) : str :=
  flat_map (λ c, if c =? quotechar then [quotechar; c] else [c]) f.

Definition join_append (f : str) : str :=
  if existsb needs_quotes f
  then [quotechar] ++ join_append_data f ++ [quotechar]
  else join_append_data f.

Fixpoint join (fs : list str) : str :=
  match fs with
  | [] => []
  | [f] => f
  | f :: fs' => f ++ [delimiter] ++ join fs'
  end.

(** [writer.writerow]: a record that comes out empty although it has a
    field is written as a pair of quotes. *)
Definition writerow (row : list str) : str :=
  let rec := join (join_append <$> row) in
  (match row, rec with
   | _ :: _, [] => [quotechar; quotechar]
   | _, _ => rec
   end) ++ lineterminator.

(** *** Dictionaries in insertion order *)

(** A value a row can hold: [None] for a field missing from a short
    line, the text of a field, the list of the fields a long line has in
    excess. *)
Inductive value :=
| VNone
| VStr (s : str)
| VList (l : list str).

(** A key of a row: a field name, or [None], under which [DictReader]
    stores the excess fields. *)
Abbreviation key := (option str).

Abbreviation dict := (list (key * value)).

Definition keys (d : dict) : list key := fst <$> d.

(** [d.get(k)] *)
Fixpoint get (d : dict) (k : key) : option value :=
  match d with
  | [] => None
  | (k', v) :: d' => if bool_decide (k' = k) then Some v else get d' k
  end.

(** [d[k] = v]: in place when the key is there, at the end otherwise. *)
Fixpoint set (d : dict) (k : key) (v : value) : dict :=
  match d with
  | [] => [(k, v)]
  | (k', v') :: d' =>
      if bool_decide (k' = k) then (k, v) :: d' else (k', v') :: set d' k v
  end.

(** [dict(pairs)] *)
Definition of_pairs (l : list (key * value)) : dict :=
  foldl (λ d kv, set d kv.1 kv.2) [] l.

(** A row of text fields only: every key is a name and every value a
    text, as [DictReader] yields for a line with as many fields as the
    header. *)
Definition text_field (kv : key * value) : Prop :=
  ∃ k v, kv = (Some k, VStr v).

Definition text_row (r : dict) : Prop := Forall text_field r.

(** The row with the names [ns] and the texts [vs]. *)
Definition row_of (ns vs : list str) : dict :=
  zip (Some <$> ns) (VStr <$> vs).

(** [r'] is [r] after assignments of texts to fields it has: the same
    keys, and in every field the text [r] has there or one the reader
    accepts. *)
Definition updated (r r' : dict) : Prop :=
  keys r' = keys r
  ∧ text_row r'
  ∧ ∀ k v, (k, VStr v) ∈ r' → (k, VStr v) ∈ r ∨ fits v.

(** [r'] is [r] after the assignments [row[name] = text] of a run, in
    their order: each name and each text within the limit of the
    reader.  A name the row lacks is added to it, as [row[name] = text]
    does. *)
Definition assigned (r r' : dict) : Prop :=
  ∃ l : list (str * str),
    r' = foldl (λ d kv, set d (Some kv.1) (VStr kv.2)) r l
    ∧ Forall (λ kv, fits kv.1 ∧ fits kv.2) l.

(** What the rows [DictReader] yields have in common, and keep under
    assignments: a key at least, no key twice, under a name a text or
    [None], under [None] a list, and the names and texts within the
    limit of the reader. *)
Definition field_ok (kv : key * value) : Prop :=
  match kv with
  | (Some name, VStr text) => fits name ∧ fits text
  | (Some name, VNone) => fits name
  | (None, VList _) => True
  | _ => False
  end.

Definition well_formed (r : dict) : Prop :=
  r ≠ [] ∧ NoDup (keys r) ∧ Forall field_ok r.

(** The names of a header in the order of their first occurrence, which
    is the order of the keys of the rows read under it. *)
Definition add_name (acc : list str) (k : str) : list str :=
  if bool_decide (k ∈ acc) then acc else acc ++ [k].

Definition names (fieldnames : list str) : list str :=
  foldl add_name [] fieldnames.

(** *** [DictReader] *)

Definition to_dict (fieldnames row : list str) : dict :=
  let d := of_pairs (zip (Some <$> fieldnames) (VStr <$> row)) in
  let lf := length fieldnames in
  let lr := length row in
  if (lf <? lr)%nat then set d None (VList (drop lf row))
  else if (lr <? lf)%nat
  then foldl (λ d k, set d (Some k) VNone) d (drop lr fieldnames)
  else d.

Definition is_blank (row : list str) : bool :=
  match row with [] => true | _ => false end.

(** The rows [DictReader] yields from the records of the reader: the
    first record names the fields, blank records are passed over. *)
Definition DictReader (records : list (list str)) : list dict :=
  match records with
  | [] => []
  | fieldnames :: rows =>
      to_dict fieldnames <$> filter (λ r, is_blank r = false) rows
  end.

(** *** [DictWriter] *)

Section Writer.
(** [str(l)] for a list of strings, which the writer applies to a value
    that is neither a string nor [None]. *)
Variable str_of_list : list str → str.

Definition field_text (v : value) : str :=
  match v with
  | VNone => []
  | VStr s => s
  | VList l => str_of_list l
  end.

(** [_dict_to_list], with [restval=''] and [extrasaction='raise'];
    [None] stands for the [ValueError] on a key that is no field name. *)
Definition dict_to_list (fieldnames : list key) (rowdict : dict)
  : option (list str) :=
  if forallb (λ k, bool_decide (k ∈ fieldnames)) (keys rowdict)
  then Some ((λ k, field_text (default (VStr []) (get rowdict k)))
               <$> fieldnames)
  else None.

(** [writeheader]: the row [dict(zip(fieldnames, fieldnames))]. *)
Definition header (fieldnames : list key) : dict :=
  of_pairs
    (zip fieldnames ((λ k, match k with Some s => VStr s | None => VNone end)
                       <$> fieldnames)).

(** [writerows]: the text written until the rows run out ([true]) or a
    row raises ([false]). *)
Fixpoint writerows (fieldnames : list key) (rows : list dict) : str * bool :=
  match rows with
  | [] => ([], true)
  | r :: rows' =>
      match dict_to_list fieldnames r with
      | Some l =>
          let '(text, ok) := writerows fieldnames rows' in
          (writerow l ++ text, ok)
      | None => ([], false)
      end
  end.

End Writer.

End csv.


(** ** Exceptions the program can meet *)

Inductive exn :=
| FileNotFoundError
| csv_Error (e : csv.Error)
| ValueError_extra_fields     (* dict contains fields not in fieldnames *)
| ValueError_row_count        (* Row count mismatch! *)
| ValueError_row_range        (* a row range that does not parse *)
| AttributeError.             (* [.strip()] on a value that is no string *)

(** ** [CSVHandler] *)

Module CSVHandler.

Record t := { csv_path : str }.

Section Handler.
Variable with_suffix : str → str → str.
Variable str_of_list : list str → str.

Definition backup (self : t) (fs : files) : result exn (str * files) :=
  let backup_path := with_suffix (csv_path self) (lit ".csv.backup") in
  match fs !! csv_path self with
  | Some c => Ok (backup_path, <[backup_path := c]> fs)
  | None => Raise FileNotFoundError
  end.

Definition read_rows (self : t) (fs : files) : result exn (list csv.dict) :=
  match fs !! csv_path self with
  | None => Raise FileNotFoundError
  | Some text =>
      match csv.reader (csv.readlines text) with
      | Ok records => Ok (csv.DictReader records)
      | Raise e => Raise (csv_Error e)
      end
  end.

(** The files after the call come with the result: a [ValueError]
    raised by a row leaves the temporary file behind, holding what was
    written before it. *)
Definition write_rows (self : t) (rows : list csv.dict) (fs : files)
  : result exn () * files :=
  match rows with
  | [] => (Ok (), fs)
  | row0 :: _ =>
      let temp_path := with_suffix (csv_path self) (lit ".tmp") in
      let fieldnames := csv.keys row0 in
      match csv.dict_to_list str_of_list fieldnames (csv.header fieldnames) with
      | None => (Raise ValueError_extra_fields, <[temp_path := []]> fs)
      | Some h =>
          let '(text, ok) := csv.writerows str_of_list fieldnames rows in
          let fs := <[temp_path := csv.writerow h ++ text]> fs in
          if ok then
            match move temp_path (csv_path self) fs with
            | Some fs => (Ok (), fs)
            | None => (Raise FileNotFoundError, fs)
            end
          else (Raise ValueError_extra_fields, fs)
      end
  end.

Definition verify_integrity (self : t) (original_count : nat) (fs : files)
  : result exn () :=
  rows ← read_rows self fs;
  if bool_decide (length rows ≠ original_count)
  then Raise ValueError_row_count
  else Ok ().

End Handler.

End CSVHandler.

(** ** [parse_row_range] *)

(** [sorted(set(rows))]: the elements in increasing order, each once. *)
Fixpoint insert_sorted (x : Z) (l : list Z) : list Z :=
  match l with
  | [] => [x]
  | y :: l' =>
      if (x <? y)%Z then x :: l
      else if (x =? y)%Z then l
      else y :: insert_sorted x l'
  end.

Definition sorted_set (l : list Z) : list Z := foldr insert_sorted [] l.

(** One part of the specification: [range(start, end + 1)] for
    [start-end], the number itself otherwise.  [None] stands for the
    [ValueError] of [int] or of the unpacking. *)
Definition parse_part (part : str) : option (list Z) :=
  if Py.contains (lit "-") part then
    match Py.split 45 part with
    | [a; b] =>
        start ← Py.int a;
        end_ ← Py.int b;
        Some (seqZ start (end_ + 1 - start))
    | _ => None
    end
  else (λ n, [n]) <$> Py.int part.

Fixpoint parse_parts (parts : list str) : option (list Z) :=
  match parts with
  | [] => Some []
  | part :: parts' =>
      l ← parse_part part;
      rows ← parse_parts parts';
      Some (l ++ rows)
  end.

Definition parse_row_range (row_spec : str) : option (list Z) :=
  sorted_set <$> parse_parts (Py.split 44 row_spec).

(** *** The row specification, in the words of its documentation *)

(** The digits of ASCII, and the number a text of digits denotes. *)
Definition is_digit (c : N) : bool := (48 <=? c) && (c <=? 57).

Definition number (s : str) : Z :=
  foldl (λ acc c, acc * 10 + (Z.of_N c - 48))%Z 0%Z s.

(** A numeral: digits, one at least and no more than [int] converts. *)
Definition numeral (s : str) : Prop :=
  s ≠ []
  ∧ Forall (λ c, is_digit c = true) s
  ∧ (length s ≤ Py.int_max_str_digits)%nat.

(** A part is a numeral, or two numerals with a minus sign between
    them.  It selects the row it names, or the rows from the first to
    the last of the range. *)
Definition well_formed_part (part : str) : Prop :=
  numeral part ∨ ∃ a b, part = a ++ 45 :: b ∧ numeral a ∧ numeral b.

Definition selects (part : str) (n : Z) : Prop :=
  (numeral part ∧ n = number part)
  ∨ ∃ a b,
      part = a ++ 45 :: b ∧ numeral a ∧ numeral b
      ∧ (number a ≤ n ≤ number b)%Z.

(** Parts put together with a separator between them. *)
Fixpoint joined (sep : N) (parts : list str) : str :=
  match parts with
  | [] => []
  | [part] => part
  | part :: parts' => part ++ sep :: joined sep parts'
  end.

(** ** [main] *)

Module Main.

(** What the run depends on and cannot compute: the clock, the network,
    the image decoder, [pathlib], and [str] on a list.  [wait] is
    [scraper._wait()]: it returns, or [time.sleep] raises (as it does
    for a delay too large for it) and the text of the exception,
    [str(e)], comes with it. *)
Record Env := {
  W : Type;
  wait : W → option str * W;
  oembed : str → W → option str * W;
  og_image : str → W → option str * W;
  http_get : str → W → option ImageDownloader.Response * W;
  image_ok : list N → bool;
  path_join : str → str → str;
  with_suffix : str → str → str;
  str_of_list : list str → str
}.

(** The command line.  [--resume] is a [store_true] flag whose default
    is [True], so it is [True] in every run and the tracker always
    exists; [--delay] and [--verbose] touch nothing modelled here. *)
Record Args := {
  csv_arg : str;
  output_dir : str;
  dry_run : bool;
  skip_existing : bool;
  no_backup : bool;
  rows_arg : option str
}.

Definition Link : str := lit "Link".
Definition Gorsel_URL : str := lit "G" ++ [246] ++ lit "rsel URL".

(** The calls [main] makes to its components, in order. *)
Inductive Event :=
| EvBackup
| EvFetchThumbnail (instagram_url : str)
| EvDownload (thumbnail_url filename : str)
| EvMarkCompleted (id : str)
| EvMarkFailed (id reason : str)
| EvWriteRows
| EvVerifyIntegrity.

Record Stats := {
  total : nat;
  downloaded : nat;
  skipped : nat;
  failed : nat
}.

(** The state of a run.  [rows] is the list read at the start: the loop
    reaches a row through its position, and an assignment to a field of
    the row is an update of that list. *)
Record State {env : Env} := {
  world : W env;
  disk : files;
  progress : ProgressTracker.t;
  rows : list csv.dict;
  stats : Stats;
  failed_urls : list (str * str);
  trace : list Event
}.
Arguments State : clear implicits.

Section Run.
Variable env : Env.
Variable args : Args.

Abbreviation State' := (State env).

Definition count_total (s : State') : State' :=
  {| world := world s; disk := disk s; progress := progress s; rows := rows s;
     stats := {| total := S (total (stats s));
                 downloaded := downloaded (stats s);
                 skipped := skipped (stats s);
                 failed := failed (stats s) |};
     failed_urls := failed_urls s; trace := trace s |}.

Definition count_skipped (s : State') : State' :=
  {| world := world s; disk := disk s; progress := progress s; rows := rows s;
     stats := {| total := total (stats s);
                 downloaded := downloaded (stats s);
                 skipped := S (skipped (stats s));
                 failed := failed (stats s) |};
     failed_urls := failed_urls s; trace := trace s |}.

Definition count_downloaded (s : State') : State' :=
  {| world := world s; disk := disk s; progress := progress s; rows := rows s;
     stats := {| total := total (stats s);
                 downloaded := S (downloaded (stats s));
                 skipped := skipped (stats s);
                 failed := failed (stats s) |};
     failed_urls := failed_urls s; trace := trace s |}.

(** [stats['failed'] += 1; failed_urls.append((url, reason))] *)
Definition count_failed (url reason : str) (s : State') : State' :=
  {| world := world s; disk := disk s; progress := progress s; rows := rows s;
     stats := {| total := total (stats s);
                 downloaded := downloaded (stats s);
                 skipped := skipped (stats s);
                 failed := S (failed (stats s)) |};
     failed_urls := failed_urls s ++ [(url, reason)]; trace := trace s |}.

Definition log (ev : Event) (s : State') : State' :=
  {| world := world s; disk := disk s; progress := progress s; rows := rows s;
     stats := stats s; failed_urls := failed_urls s;
     trace := trace s ++ [ev] |}.

Definition mark_failed (id reason : str) (s : State') : State' :=
  log (EvMarkFailed id reason)
    {| world := world s; disk := disk s;
       progress := ProgressTracker.mark_failed (progress s) id reason;
       rows := rows s; stats := stats s; failed_urls := failed_urls s;
       trace := trace s |}.

Definition mark_completed (id : str) (s : State') : State' :=
  log (EvMarkCompleted id)
    {| world := world s; disk := disk s;
       progress := ProgressTracker.mark_completed (progress s) id;
       rows := rows s; stats := stats s; failed_urls := failed_urls s;
       trace := trace s |}.

(** [scraper.fetch_thumbnail_url(instagram_url)]: what it returns, or
    the text of the exception that leaves it.  The call begins with
    [self._wait()], outside its [try] blocks. *)
Definition fetch_thumbnail_url (instagram_url : str) (s : State')
  : result str (option str) * State' :=
  let '(raised, w) := wait env (world s) in
  let '(r, w) :=
    match raised with
    | Some error => (Raise error, w)
    | None =>
        let '(r, w) :=
          InstagramScraper.fetch_thumbnail_url (oembed env) (og_image env)
            instagram_url w in
        (Ok r, w)
    end in
  (r, log (EvFetchThumbnail instagram_url)
        {| world := w; disk := disk s; progress := progress s; rows := rows s;
           stats := stats s; failed_urls := failed_urls s; trace := trace s |}).

(** [downloader.download(thumbnail_url, filename)] *)
Definition download (thumbnail_url filename : str) (s : State')
  : bool * State' :=
  let '(ok, w, fs) :=
    ImageDownloader.download (http_get env) (image_ok env) (path_join env)
      (with_suffix env)
      {| ImageDownloader.output_dir := output_dir args;
         ImageDownloader.skip_existing := skip_existing args |}
      thumbnail_url filename (world s) (disk s) in
  (ok, log (EvDownload thumbnail_url filename)
         {| world := w; disk := fs; progress := progress s; rows := rows s;
            stats := stats s; failed_urls := failed_urls s;
            trace := trace s |}).

(** [row[key] = v] for the row at position [i] (counted from 1). *)
Definition assign (i : nat) (k : str) (v : str) (s : State') : State' :=
  {| world := world s; disk := disk s; progress := progress s;
     rows := alter (λ row, csv.set row (Some k) (csv.VStr v)) (i - 1)%nat
               (rows s);
     stats := stats s; failed_urls := failed_urls s; trace := trace s |}.

(** [row.get(k, '').strip()] *)
Definition get_stripped (row : csv.dict) (k : str) : result exn str :=
  match csv.get row (Some k) with
  | None => Ok (Py.strip [])
  | Some (csv.VStr s) => Ok (Py.strip s)
  | Some _ => Raise AttributeError
  end.

Definition filename_of (url_type : InstagramScraper.url_type) (post_id : str)
  : str :=
  InstagramScraper.url_type_str url_type ++ lit "_" ++ post_id ++ lit ".jpg".

(** [if not thumbnail_url: raise ...]: what is left is a string that is
    not empty. *)
Definition found (r : result str (option str)) : option str :=
  match r with
  | Ok (Some thumbnail_url) =>
      if Py.truthy thumbnail_url then Some thumbnail_url else None
  | _ => None
  end.

(** [str(e)] in the [except] of the [try] around the call: the text of
    the exception the call raised, or of the one raised for a call that
    returned nothing. *)
Definition error_msg (r : result str (option str)) : str :=
  match r with
  | Raise error => error
  | Ok _ => lit "Thumbnail URL not found"
  end.

(** [# Fetch thumbnail URL] and [# Download image]: the end of the body
    of the loop, for a row whose link parses and is not completed. *)
Definition resolve_and_download (i : nat) (instagram_url : str)
    (url_type : InstagramScraper.url_type) (post_id : str) (s : State')
  : State' :=
  let '(r, s) := fetch_thumbnail_url instagram_url s in
  match found r with
  | None =>
      mark_failed post_id (error_msg r)
        (count_failed instagram_url (error_msg r) s)
  | Some thumbnail_url =>
      let filename := filename_of url_type post_id in
      let '(success, s) := download thumbnail_url filename s in
      if success then
        mark_completed post_id
          (count_downloaded
             (assign i Gorsel_URL (output_dir args ++ lit "/" ++ filename) s))
      else
        mark_failed post_id (lit "Download failed")
          (count_failed instagram_url (lit "Download failed") s)
  end.

(** The body of the loop for the row at position [i]. *)
Definition process_row (i : nat) (s : State') : result exn State' :=
  let s := count_total s in
  let row := default [] (rows s !! (i - 1)%nat) in
  instagram_url ← get_stripped row Link;
  current_image_url ← get_stripped row Gorsel_URL;
  if negb (Py.truthy instagram_url) then Ok (count_skipped s)
  else if SkipChecker.should_skip current_image_url then Ok (count_skipped s)
  else
    match InstagramScraper.parse_instagram_url instagram_url with
    | None => Ok (count_failed instagram_url (lit "Invalid URL") s)
    | Some (url_type, post_id) =>
        if ProgressTracker.is_completed (progress s) post_id
        then Ok (count_skipped s)
        else Ok (resolve_and_download i instagram_url url_type post_id s)
    end.

(** The loop: the state when it stops, and the exception that stopped
    it if one did. *)
Fixpoint process_rows (rows_to_process : list nat) (s : State')
  : State' * option exn :=
  match rows_to_process with
  | [] => (s, None)
  | i :: rest =>
      match process_row i s with
      | Ok s' => process_rows rest s'
      | Raise e => (count_total s, Some e)
      end
  end.

(** [# Filter rows]: the positions of the rows to process.  A row is
    left out when [row_indices and i not in row_indices]; [None] and the
    empty list both count as false. *)
Definition selected (row_indices : option (list Z)) (i : nat) : bool :=
  match row_indices with
  | Some [] => true
  | Some l => bool_decide (Z.of_nat i ∈ l)
  | None => true
  end.

Definition rows_to_process (row_indices : option (list Z)) (n : nat)
  : list nat :=
  filter (λ i, selected row_indices i = true) (seq 1 n).

(** How the process ends: [main] returns, [sys.exit(1)] is called, or an
    exception nobody catches ends it with a traceback. *)
Inductive Exit :=
| Returned
| SysExit1
| Uncaught (e : exn).

Definition exit_status (x : Exit) : Z :=
  match x with
  | Returned => 0
  | SysExit1 => 1
  | Uncaught _ => 1
  end.

(** The end of a run: how it exits, the state it leaves, and the lines
    of [failed_urls.txt] when the file is written.  The write of that
    file is the last thing [main] does: [files_at_exit] below adds it
    to the files of the state.  The progress file is kept in the
    tracker, apart from [disk]. *)
Record Outcome := {
  exit : Exit;
  final : State';
  report : option (list (str * str))
}.

Definition csv_handler : CSVHandler.t :=
  {| CSVHandler.csv_path := csv_arg args |}.

Definition set_disk (fs : files) (s : State') : State' :=
  {| world := world s; disk := fs; progress := progress s; rows := rows s;
     stats := stats s; failed_urls := failed_urls s; trace := trace s |}.

(** [# Write updated CSV]: the rewrite and its check, when a row was
    downloaded.  The exception is the one [main] catches to exit. *)
Definition update_csv (original_count : nat) (s : State')
  : State' * result exn () :=
  if (0 <? downloaded (stats s))%nat then
    let '(r, fs) :=
      CSVHandler.write_rows (with_suffix env) (str_of_list env) csv_handler
        (rows s) (disk s) in
    let s := log EvWriteRows (set_disk fs s) in
    match r with
    | Raise e => (s, Raise e)
    | Ok _ =>
        (log EvVerifyIntegrity s,
         CSVHandler.verify_integrity csv_handler original_count (disk s))
    end
  else (s, Ok ()).

(** [# Summary] and [# Failed URLs]. *)
Definition summary (s : State') : Outcome :=
  {| exit := Returned; final := s;
     report := match failed_urls s with
               | [] => None
               | l => Some l
               end |}.

Definition stop (x : Exit) (s : State') : Outcome :=
  {| exit := x; final := s; report := None |}.

(** The end of [main], after the loop: the rewrite, then either
    [sys.exit(1)] or the summary. *)
Definition finish (original_count : nat) (s : State') : Outcome :=
  let '(s, r) := update_csv original_count s in
  match r with
  | Raise _ => stop SysExit1 s
  | Ok _ => summary s
  end.

(** The preview of a dry run reads the link of the first ten rows. *)
Definition dry_run_preview (rows : list csv.dict) : result exn () :=
  mapM (λ row, get_stripped row Link) (take 10 rows) ≫= λ _, Ok ().

Definition row_indices : result exn (option (list Z)) :=
  match rows_arg args with
  | Some row_spec =>
      if Py.truthy row_spec then
        match parse_row_range row_spec with
        | Some l => Ok (Some l)
        | None => Raise ValueError_row_range
        end
      else Ok None
  | None => Ok None
  end.

Definition zero : Stats :=
  {| total := 0; downloaded := 0; skipped := 0; failed := 0 |}.

Definition main (w : W env) (fs : files)
    (progress_file : option ProgressTracker.Data) : Outcome :=
  let s :=
    {| world := w; disk := fs;
       progress := ProgressTracker.init progress_file;
       rows := []; stats := zero; failed_urls := []; trace := [] |} in
  match CSVHandler.read_rows csv_handler fs with
  | Raise _ => stop SysExit1 s
  | Ok loaded =>
      let original_count := length loaded in
      let s :=
        {| world := w; disk := fs; progress := progress s; rows := loaded;
           stats := zero; failed_urls := []; trace := [] |} in
      match row_indices with
      | Raise e => stop (Uncaught e) s
      | Ok row_indices =>
          match
            (if negb (no_backup args) && negb (dry_run args)
             then (λ r, log EvBackup (set_disk r.2 s))
                    <$> CSVHandler.backup (with_suffix env) csv_handler fs
             else Ok s)
          with
          | Raise e => stop (Uncaught e) s
          | Ok s =>
              if dry_run args then
                match dry_run_preview loaded with
                | Ok _ => stop Returned s
                | Raise e => stop (Uncaught e) s
                end
              else
                let '(s, crash) :=
                  process_rows (rows_to_process row_indices original_count) s in
                match crash with
                | Some e => stop (Uncaught e) s
                | None => finish original_count s
                end
          end
      end
  end.

End Run.

Arguments count_total {env} s.
Arguments count_skipped {env} s.
Arguments count_downloaded {env} s.
Arguments count_failed {env} url reason s.
Arguments log {env} ev s.
Arguments mark_failed {env} id reason s.
Arguments mark_completed {env} id s.
Arguments assign {env} i k v s.
Arguments set_disk {env} fs s.
Arguments exit {env} o.
Arguments final {env} o.
Arguments report {env} o.

(** The files the program writes under names of its own, in the
    working directory: the failure report, the progress file and the
    log.  A path stands for the file it names. *)
Definition failed_urls_txt : str := lit "failed_urls.txt".
Definition progress_json : str := lit ".download_progress.json".
Definition download_log : str := lit "download.log".

Definition own_files : list str :=
  [failed_urls_txt; progress_json; download_log].

(** The text of the report: for each failure in order, the address, a
    tab, the reason, and a new line. *)
Definition report_text (l : list (str * str)) : str :=
  flat_map (λ failure, failure.1 ++ [9] ++ failure.2 ++ [10]) l.

(** [# Failed URLs]: the files when the process has ended.  The report
    is opened with ['w'] and written whatever was at its path. *)
Definition files_at_exit {env : Env} (o : Outcome env) : files :=
  match report o with
  | Some l => <[failed_urls_txt := report_text l]> (disk (final o))
  | None => disk (final o)
  end.

Section Endings.
Variable env : Env.
Variable args : Args.

(** The three ways the end of the body can go. *)
Inductive ending (i : nat) (url : str) (t : InstagramScraper.url_type)
    (id : str) (s : State env) : State env → Prop :=
| not_resolved r s1 :
    fetch_thumbnail_url env url s = (r, s1) →
    found r = None →
    ending i url t id s
      (mark_failed id (error_msg r) (count_failed url (error_msg r) s1))
| not_downloaded r s1 u s2 :
    fetch_thumbnail_url env url s = (r, s1) →
    found r = Some u →
    download env args u (filename_of t id) s1 = (false, s2) →
    ending i url t id s
      (mark_failed id (lit "Download failed")
         (count_failed url (lit "Download failed") s2))
| downloaded_ok r s1 u s2 :
    fetch_thumbnail_url env url s = (r, s1) →
    found r = Some u →
    download env args u (filename_of t id) s1 = (true, s2) →
    ending i url t id s
      (mark_completed id
         (count_downloaded
            (assign i Gorsel_URL
               (output_dir args ++ lit "/" ++ filename_of t id) s2))).

(** How [process_row] can end for a row whose two fields can be read. *)
Inductive row_ending (i : nat) (s : State env) : State env → Prop :=
| row_skipped :
    row_ending i s (count_skipped (count_total s))
| row_invalid url :
    get_stripped (default [] (rows s !! (i - 1)%nat)) Link = Ok url →
    InstagramScraper.parse_instagram_url url = None →
    row_ending i s (count_failed url (lit "Invalid URL") (count_total s))
| row_resolved url t id s' :
    get_stripped (default [] (rows s !! (i - 1)%nat)) Link = Ok url →
    InstagramScraper.parse_instagram_url url = Some (t, id) →
    ProgressTracker.is_completed (progress s) id = false →
    ending i url t id (count_total s) s' →
    row_ending i s s'.

(** What holds between a state of the loop and a later one: the count
    of downloads has not gone down; while it is the same, the dataset
    file is the same; and the trace has grown by calls none of which is
    the rewrite. *)
Definition later (s s' : State env) : Prop :=
  (downloaded (stats s) ≤ downloaded (stats s'))%nat
  ∧ (downloaded (stats s') = downloaded (stats s) →
     disk s' !! csv_arg args = disk s !! csv_arg args)
  ∧ ∃ evs, trace s' = trace s ++ evs ∧ EvWriteRows ∉ evs.

End Endings.

(** The counters agree with each other and with the failure list:
    every row counted is counted once more as downloaded, skipped or
    failed, and every failure has its line. *)
Definition balanced {env : Env} (s : State env) : Prop :=
  total (stats s)
  = (downloaded (stats s) + skipped (stats s) + failed (stats s))%nat
  ∧ failed (stats s) = length (failed_urls s).

(** The ids marked completed and the links resolved in a list of calls. *)
Definition completions (evs : list Event) : list str :=
  omap (λ ev, match ev with EvMarkCompleted id => Some id | _ => None end)
    evs.

Definition resolved (evs : list Event) : list str :=
  omap (λ ev, match ev with EvFetchThumbnail url => Some url | _ => None end)
    evs.

(** What rows add to the trace and to the ledger between a state and a
    later one: the calls [evs]; every link resolved parses to an id not
    completed before; the ids marked completed are new, each marked
    once, and are what the ledger has gained. *)
Definition marks {env : Env} (s s' : State env) (evs : list Event) : Prop :=
  trace s' = trace s ++ evs
  ∧ (∀ url, url ∈ resolved evs →
       ∃ t id, InstagramScraper.parse_instagram_url url = Some (t, id)
               ∧ ProgressTracker.is_completed (progress s) id = false)
  ∧ NoDup (completions evs)
  ∧ (∀ id, id ∈ completions evs →
       ProgressTracker.is_completed (progress s) id = false)
  ∧ ∀ id, ProgressTracker.is_completed (progress s') id
          = ProgressTracker.is_completed (progress s) id
            || bool_decide (id ∈ completions evs).

(** The requests in a list of calls are for ids not completed: each
    call of the resolver is for a link that parses to an id which the
    ledger [p] does not have as completed and which no earlier call of
    the list has marked completed, and each download is to the file
    name of such an id. *)
Definition fresh_requests (p : ProgressTracker.t) (evs : list Event) : Prop :=
  ∀ n ev, evs !! n = Some ev →
    match ev with
    | EvFetchThumbnail url =>
        ∃ t id, InstagramScraper.parse_instagram_url url = Some (t, id)
                ∧ ProgressTracker.is_completed p id = false
                ∧ id ∉ completions (take n evs)
    | EvDownload _ filename =>
        ∃ t id, filename = filename_of t id
                ∧ ProgressTracker.is_completed p id = false
                ∧ id ∉ completions (take n evs)
    | _ => True
    end.

(** [rows'] is [rows] but for the reference fields: as many rows, and
    in each the other fields as they were. *)
Definition same_but_reference (rows rows' : list csv.dict) : Prop :=
  length rows' = length rows
  ∧ ∀ j row, rows !! j = Some row →
      ∃ row', rows' !! j = Some row'
              ∧ ∀ k, k ≠ Some Gorsel_URL → csv.get row' k = csv.get row k.

End Main.

(** ** [YouTubeFetcher.fetch_video_data] *)

Module YouTubeFetcher.

(** What [response.json()] returns.  A float is kept as far as the
    program can tell floats apart: by truth value. *)
#[local] Unset Elimination Schemes.
Inductive json :=
| JNull
| JBool (b : bool)
| JInt (n : Z)
| JFloat (nonzero : bool)
| JStr (s : str)
| JList (l : list json)
| JDict (d : list (str * json)).
#[local] Set Elimination Schemes.

(** [bool(x)] *)
Definition truthy (x : json) : bool :=
  match x with
  | JNull => false
  | JBool b => b
  | JInt n => negb (n =? 0)%Z
  | JFloat nonzero => nonzero
  | JStr s => Py.truthy s
  | JList l => match l with [] => false | _ => true end
  | JDict d => match d with [] => false | _ => true end
  end.

Fixpoint lookup (d : list (str * json)) (k : str) : option json :=
  match d with
  | [] => None
  | (k', v) :: d' => if bool_decide (k' = k) then Some v else lookup d' k
  end.

(** In what follows [None] is an exception, which [fetch_video_data]
    turns into the result [None] whatever it is. *)

(** [k in x] *)
Definition contains (k : str) (x : json) : option bool :=
  match x with
  | JDict d => Some (bool_decide (is_Some (lookup d k)))
  | JList l =>
      Some (existsb (λ e, match e with
                          | JStr s => bool_decide (s = k)
                          | _ => false
                          end) l)
  | JStr s => Some (Py.contains k s)
  | _ => None
  end.

(** [x.get(k, default)] *)
Definition get (x : json) (k : str) (default : json) : option json :=
  match x with
  | JDict d => Some (match lookup d k with Some v => v | None => default end)
  | _ => None
  end.

(** [x[k]] for a string [k] *)
Definition item (x : json) (k : str) : option json :=
  match x with
  | JDict d => lookup d k
  | _ => None
  end.

(** [x[0]] *)
Definition first (x : json) : option json :=
  match x with
  | JList (e :: _) => Some e
  | JStr (c :: _) => Some (JStr [c])
  | _ => None
  end.

Record VideoData := {
  title : json;
  description : json;
  thumbnail_url : json;
  published_at : json
}.

(** [thumbnails.get(size, {}).get('url')] *)
Definition url_of (thumbnails : json) (size : str) : option json :=
  entry ← get thumbnails size (JDict []);
  get entry (lit "url") JNull.

(** [a or b or ...] over the sizes, from left to right. *)
Fixpoint first_url (thumbnails : json) (size : str) (others : list str)
  : option json :=
  u ← url_of thumbnails size;
  match others with
  | [] => Some u
  | size' :: others' =>
      if truthy u then Some u else first_url thumbnails size' others'
  end.

(** The body of the [try], on the decoded response. *)
Definition video_data (data : json) : option VideoData :=
  has_error ← contains (lit "error") data;
  if has_error : bool then None
  else
    items ← get data (lit "items") JNull;
    if negb (truthy items) then None
    else
      items ← item data (lit "items");
      video ← first items;
      snippet ← item video (lit "snippet");
      thumbnails ← item snippet (lit "thumbnails");
      thumbnail_url ←
        first_url thumbnails (lit "maxres")
          [lit "high"; lit "medium"; lit "default"];
      title ← item snippet (lit "title");
      description ← item snippet (lit "description");
      published_at ← item snippet (lit "publishedAt");
      Some {| title := title; description := description;
              thumbnail_url := thumbnail_url;
              published_at := published_at |}.

(** The sizes in the order of preference. *)
Definition sizes : list str :=
  [lit "maxres"; lit "high"; lit "medium"; lit "default"].

(** In the words of the specification, on the dictionary of the
    thumbnails as the answer has it.  A size is available with the
    reference [u] when its entry is a dictionary whose ['url'] is [u],
    a value that counts as true. *)
Definition available (thumbnails : list (str * json)) (size : str) (u : json)
  : Prop :=
  ∃ entry,
    lookup thumbnails size = Some (JDict entry)
    ∧ lookup entry (lit "url") = Some u
    ∧ truthy u = true.

(** A size is vacant when it has no entry, or an entry that is a
    dictionary with no ['url'] or one that counts as false; [v] is what
    is found in the place of the reference, [None] or that ['url']. *)
Definition vacant (thumbnails : list (str * json)) (size : str) (v : json)
  : Prop :=
  truthy v = false
  ∧ ((lookup thumbnails size = None ∧ v = JNull)
     ∨ ∃ entry,
         lookup thumbnails size = Some (JDict entry)
         ∧ ((lookup entry (lit "url") = None ∧ v = JNull)
            ∨ lookup entry (lit "url") = Some v)).

(** [u] is the reference of the highest resolution available: that of
    a size which is available while every size preferred to it is
    vacant; when all four sizes are vacant, what is found in the place
    of the last. *)
Definition highest_available (thumbnails : list (str * json)) (u : json)
  : Prop :=
  ∃ (better : list str) (size : str) (worse : list str),
    sizes = better ++ size :: worse
    ∧ Forall (λ b, ∃ v, vacant thumbnails b v) better
    ∧ (available thumbnails size u
       ∨ (worse = [] ∧ vacant thumbnails size u)).

Section Fetch.
Context {W : Type}.
(** The GET of the videos endpoint for an id, [raise_for_status] and
    [response.json()]; [None] when one of them raises. *)
Variable api_get : str → W → option json * W.

Definition fetch_video_data (video_id : str) (w : W)
  : option VideoData * W :=
  let '(r, w) := api_get video_id w in
  match r with
  | Some data => (video_data data, w)
  | None => (None, w)
  end.

End Fetch.

(** *** [extract_video_id] *)

(** What the program reads of [urlparse(url)]. *)
Record ParseResult := {
  hostname : option str;
  path : str;
  query : str
}.

(** The exceptions [extract_video_id] can let through. *)
Inductive url_error :=
| ValueError_url      (* raised by [urlparse] *)
| IndexError.

(** [s.lstrip(chars)] *)
Fixpoint lstrip_chars (chars s : str) : str :=
  match s with
  | c :: s' => if bool_decide (c ∈ chars) then lstrip_chars chars s' else s
  | [] => []
  end.

Section Urls.
(** [urllib.parse]: [urlparse], with [None] when it raises, and
    [parse_qs], a dictionary from names to lists of values. *)
Variable urlparse : str → option ParseResult.
Variable parse_qs : str → gmap str (list str).

Definition extract_video_id (url : str) : result url_error (option str) :=
  if negb (Py.truthy url) then Ok None
  else
    match urlparse url with
    | None => Raise ValueError_url
    | Some parsed =>
        if bool_decide (hostname parsed
                        ∈ [Some (lit "www.youtube.com");
                           Some (lit "youtube.com")])
        then
          if bool_decide (path parsed = lit "/watch") then
            match parse_qs (query parsed) !! lit "v" with
            | Some (v :: _) => Ok (Some v)
            | Some [] => Raise IndexError
            | None => Ok None
            end
          else if Py.startswith (lit "/embed/") (path parsed) then
            match Py.split 47 (path parsed) !! 2%nat with
            | Some id => Ok (Some id)
            | None => Raise IndexError
            end
          else Ok None
        else if bool_decide (hostname parsed = Some (lit "youtu.be"))
        then Ok (Some (lstrip_chars (lit "/") (path parsed)))
        else Ok None
    end.

End Urls.

(** *** The body of the loop of [main] *)

(** The value of a field of a row: what [DictReader] put there, or what
    the loop assigned from the answer of the API. *)
Inductive cell :=
| FromFile (v : csv.value)
| FromApi (j : json).

Abbreviation row := (list (csv.key * cell)).

(** [row.get(k)] and [row[k] = v], as for the rows of [csv]. *)
Fixpoint row_get (d : row) (k : csv.key) : option cell :=
  match d with
  | [] => None
  | (k', v) :: d' => if bool_decide (k' = k) then Some v else row_get d' k
  end.

Fixpoint row_set (d : row) (k : csv.key) (v : cell) : row :=
  match d with
  | [] => [(k, v)]
  | (k', v') :: d' =>
      if bool_decide (k' = k) then (k, v) :: d' else (k', v') :: row_set d' k v
  end.

Definition Aciklama : str := lit "A" ++ [231; 305] ++ lit "klama".
Definition Baslik : str := lit "Ba" ++ [351] ++ lit "l" ++ [305] ++ lit "k".
Definition Tarih : str := lit "Tarih".

Inductive row_error :=
| AttributeError_strip          (* [.strip()] on a value that has none *)
| UrlError (e : url_error).

(** [row.get(k, '').strip()] *)
Definition get_stripped (r : row) (k : str) : result row_error str :=
  match row_get r (Some k) with
  | None => Ok (Py.strip [])
  | Some (FromFile (csv.VStr s)) => Ok (Py.strip s)
  | Some (FromApi (JStr s)) => Ok (Py.strip s)
  | Some _ => Raise AttributeError_strip
  end.

(** [s.replace('Z', '+00:00')] *)
Definition replace_Z (s : str) : str :=
  flat_map (λ c, if c =? 90 then lit "+00:00" else [c]) s.

(** How the body of the loop ends for a row. *)
Inductive outcome :=
| Updated
| Skipped
| Failed (link reason : str).

Section Row.
Context {W : Type}.
Variable urlparse : str → option ParseResult.
Variable parse_qs : str → gmap str (list str).
Variable api_get : str → W → option json * W.
(** [datetime.fromisoformat(s).strftime('%d.%m.%Y')]; [None] when it
    raises. *)
Variable strftime_of_iso : str → option str.

(** [format_date]: whatever is raised is caught, and the argument is
    returned as it came. *)
Definition format_date (iso_date : json) : json :=
  match iso_date with
  | JStr s =>
      match strftime_of_iso (replace_Z s) with
      | Some d => JStr d
      | None => iso_date
      end
  | _ => iso_date
  end.

(** The body of the loop over the rows of videos: the row after it, how
    it ended, and the network. *)
Definition process_video (r : row) (w : W)
  : result row_error (row * outcome * W) :=
  link ← get_stripped r Main.Link;
  match extract_video_id urlparse parse_qs link with
  | Raise e => Raise (UrlError e)
  | Ok video_id =>
      if negb (from_option Py.truthy false video_id)
      then Ok (r, Failed link (lit "Invalid URL"), w)
      else
        current_description ← get_stripped r Aciklama;
        current_title ← get_stripped r Baslik;
        image ← get_stripped r Main.Gorsel_URL;
        date ← get_stripped r Tarih;
        let has_image := Py.truthy image in
        let has_date := Py.truthy date in
        let has_real_description :=
          Py.truthy current_description
          && negb (bool_decide (current_description = current_title)) in
        if has_real_description && has_image && has_date
        then Ok (r, Skipped, w)
        else
          let '(found, w) := fetch_video_data api_get (default [] video_id) w in
          match found with
          | None => Ok (r, Failed link (lit "Failed to fetch data"), w)
          | Some video_data =>
              let r :=
                if has_real_description then r
                else row_set r (Some Aciklama)
                       (FromApi (description video_data)) in
              let r :=
                if has_image then r
                else row_set r (Some Main.Gorsel_URL)
                       (FromApi (thumbnail_url video_data)) in
              let r :=
                if has_date then r
                else row_set r (Some Tarih)
                       (FromApi (format_date (published_at video_data))) in
              Ok (r, Updated, w)
          end
  end.

End Row.

End YouTubeFetcher.

(** ** [migrateToSupabase.py] *)

Module Migrate.

(** [s.zfill(width)]: zeros on the left up to the width, after the
    sign when the text starts with one. *)
Definition zfill (width : nat) (s : str) : str :=
  let pad := replicate (width - length s) 48 in
  match s with
  | c :: s' => if (c =? 43) || (c =? 45) then c :: pad ++ s' else pad ++ s
  | [] => pad
  end.

(** [parse_date]; the [except] has nothing to catch, since neither
    [zfill] nor the formatting raises on strings. *)
Definition parse_date (date_str : str) : option str :=
  if negb (Py.truthy date_str) || negb (Py.contains (lit ".") date_str)
  then None
  else
    match Py.split 46 (Py.strip date_str) with
    | [day; month; year] =>
        Some (year ++ lit "-" ++ zfill 2 month ++ lit "-" ++ zfill 2 day)
    | _ => None
    end.

Definition BATCH_SIZE : nat := 500.

(** [range(0, n, step)] *)
Definition range_step (n step : nat) : list nat :=
  (λ k, k * step)%nat <$> seq 0 ((n + step - 1) / step).

Section Batches.
Context {W Recipe : Type}.
(** [insert_batch]: [Some true] when the request is answered, [Some
    false] on an [HTTPError], [None] on any other exception, which
    nothing catches. *)
Variable insert_batch : list Recipe → W → option bool * W.

(** The loop over the batches, from the starts still to come and the
    count so far: the count when the loop ends, or [None] when an
    exception ends the program. *)
Fixpoint insert_batches (recipes : list Recipe) (starts : list nat)
    (total_inserted : nat) (w : W) : option nat * W :=
  match starts with
  | [] => (Some total_inserted, w)
  | i :: rest =>
      let batch := take BATCH_SIZE (drop i recipes) in
      let '(r, w) := insert_batch batch w in
      match r with
      | Some true =>
          insert_batches recipes rest (total_inserted + length batch) w
      | Some false => (Some total_inserted, w)
      | None => (None, w)
      end
  end.

Definition migrate_batches (recipes : list Recipe) (w : W) : option nat * W :=
  insert_batches recipes (range_step (length recipes) BATCH_SIZE) 0 w.

(** The batches in the order the loop takes them: [recipes[i:i + 500]]
    for [i] in the range. *)
Definition batches (recipes : list Recipe) : list (list Recipe) :=
  (λ i, take BATCH_SIZE (drop i recipes))
    <$> range_step (length recipes) BATCH_SIZE.

(** The batches [sent] are inserted one after the other and each
    request is answered: the world after the last of them. *)
Fixpoint accepted (sent : list (list Recipe)) (w : W) : option W :=
  match sent with
  | [] => Some w
  | batch :: sent' =>
      match insert_batch batch w with
      | (Some true, w') => accepted sent' w'
      | _ => None
      end
  end.

End Batches.

End Migrate.

(** ** [update_csv_titles.py] *)

Module Titles.

Definition Hashtag : str := lit "Hashtag".
Definition Tarih : str := lit "Tarih".

(** [l.index(x)], with [None] for the [ValueError]. *)
Fixpoint index (x : str) (l : list str) : option nat :=
  match l with
  | [] => None
  | y :: l' => if bool_decide (y = x) then Some 0%nat else S <$> index x l'
  end.

(** [l.insert(i, x)] *)
Definition insert_at (i : nat) (x : str) (l : list str) : list str :=
  take i l ++ x :: drop i l.

(** [# Yeni sütun ekle: Hashtag]: the names of the columns written. *)
Definition new_fieldnames (fieldnames : list str) : list str :=
  if bool_decide (Hashtag ∈ fieldnames) then fieldnames
  else
    match index Tarih fieldnames with
    | Some tarih_index => insert_at (tarih_index + 1) Hashtag fieldnames
    | None => fieldnames ++ [Hashtag]
    end.

End Titles.

(** ** Inputs for the examples *)

Module Examples.

(** [pathlib] on plain relative paths: [d / n], and the suffix of the
    last component, which starts at its last dot unless that dot is its
    first or its last character. *)
Definition path_join (d n : str) : str := d ++ lit "/" ++ n.

Fixpoint suffix_length (reversed : str) (seen : nat) : nat :=
  match reversed with
  | [] => 0%nat
  | c :: r =>
      if c =? 47 then 0%nat
      else if c =? 46 then
        match r with
        | [] => 0%nat
        | c' :: _ => if (c' =? 47) || (seen =? 0)%nat then 0%nat else S seen
        end
      else suffix_length r (S seen)
  end.

Definition with_suffix (p s : str) : str :=
  take (length p - suffix_length (rev p) 0) p ++ s.

(** A world without state, in which the pacing delay returns and every
    request has the same answer. *)
Definition env (oembed og_image : option str)
    (response : option ImageDownloader.Response) : Main.Env :=
  {| Main.W := ();
     Main.wait := λ w, (None, w);
     Main.oembed := λ _ w, (oembed, w);
     Main.og_image := λ _ w, (og_image, w);
     Main.http_get := λ _ w, (response, w);
     Main.image_ok := λ _, true;
     Main.path_join := path_join;
     Main.with_suffix := with_suffix;
     Main.str_of_list := λ _, [] |}.

Definition offline : Main.Env := env None None None.

Definition args (output_dir : str) (rows : option str) : Main.Args :=
  {| Main.csv_arg := lit "recipes.csv";
     Main.output_dir := output_dir;
     Main.dry_run := false;
     Main.skip_existing := false;
     Main.no_backup := false;
     Main.rows_arg := rows |}.

Definition reel_url : str := lit "https://www.instagram.com/reel/ABC123/".

(** A row of a dataset whose header is [Link;Görsel URL]. *)
Definition row (link image : str) : csv.dict :=
  [(Some Main.Link, csv.VStr link); (Some Main.Gorsel_URL, csv.VStr image)].

(** The text of a dataset with that header and these rows. *)
Definition dataset (rows : list (str * str)) : str :=
  csv.writerow [Main.Link; Main.Gorsel_URL]
  ++ concat ((λ r, csv.writerow [r.1; r.2]) <$> rows).

(** Answers to the request for the image: one that declares twenty
    million bytes, and one with a small body. *)
Definition too_large : ImageDownloader.Response :=
  {| ImageDownloader.status_ok := true;
     ImageDownloader.content_length := Some (lit "20000000");
     ImageDownloader.body := [255; 216; 255];
     ImageDownloader.stream_ok := true |}.

Definition small_image : ImageDownloader.Response :=
  {| ImageDownloader.status_ok := true;
     ImageDownloader.content_length := Some (lit "3");
     ImageDownloader.body := [255; 216; 255];
     ImageDownloader.stream_ok := true |}.

Definition cdn_url : str := lit "https://cdn.example/t.jpg".

(** The state of a run that has loaded [rows] and processed none. *)
Definition start {env : Main.Env} (w : Main.W env) (fs : files)
    (rows : list csv.dict) : Main.State env :=
  {| Main.world := w; Main.disk := fs;
     Main.progress := ProgressTracker.init None;
     Main.rows := rows; Main.stats := Main.zero;
     Main.failed_urls := []; Main.trace := [] |}.

End Examples.

(** * Properties *)

(** ** The resume ledger *)

Section ProgressTrackerFacts.
Import ProgressTracker.

Lemma is_completed_mark_completed (p : t) (id : str) :
  is_completed (mark_completed p id) id = true.
Proof.
  unfold is_completed, mark_completed; simpl.
  apply bool_decide_eq_true.
  destruct (bool_decide (id ∈ completed_ids (data p))) eqn:Hin.
  - apply bool_decide_eq_true in Hin. exact Hin.
  - apply elem_of_app; right. apply list_elem_of_singleton. reflexivity.
Qed.

Lemma mark_completed_again (p : t) (id : str) :
  is_completed p id = true →
  completed_ids (data (mark_completed p id)) = completed_ids (data p).
Proof.
  unfold is_completed, mark_completed; simpl; intros H.
  rewrite H. reflexivity.
Qed.

Lemma is_completed_apply (p : t) (c : call) (id : str) :
  is_completed p id = true → is_completed (apply p c) id = true.
Proof.
  unfold is_completed; intros H%bool_decide_eq_true.
  apply bool_decide_eq_true.
  destruct c as [id' | id' reason]; simpl; [ | exact H ].
  case_bool_decide; [ exact H | ].
  apply elem_of_app; left; exact H.
Qed.

Lemma is_completed_run (cs : list call) (p : t) (id : str) :
  is_completed p id = true → is_completed (run p cs) id = true.
Proof.
  revert p; induction cs as [ | c cs IH]; intros p H; simpl; [ exact H | ].
  apply IH, is_completed_apply, H.
Qed.

Lemma mark_completed_NoDup (p : t) (id : str) :
  NoDup (completed_ids (data p)) →
  NoDup (completed_ids (data (mark_completed p id))).
Proof.
  intros H; unfold mark_completed; simpl.
  case_bool_decide as Hin; [ exact H | ].
  apply NoDup_app; repeat split; [ exact H | | apply NoDup_singleton ].
  intros x Hx ->%list_elem_of_singleton. exact (Hin Hx).
Qed.

(** C9.  Completion is permanent and wins over failure: after
    [mark_completed p id], whatever calls of [mark_completed] and
    [mark_failed] follow, [is_completed] answers [True] for [id]; a
    [mark_failed] for the same id leaves it completed and records the
    reason, so that the id is in both collections; and marking it
    completed once more leaves [completed_ids] as it is. *)
Theorem completion_is_permanent :
  ∀ (p : t) (id : str) (cs : list call),
    let p' := run (mark_completed p id) cs in
    is_completed p' id = true
    ∧ (∀ reason : str,
         let q := mark_failed p' id reason in
         is_completed q id = true
         ∧ id ∈ completed_ids (data q)
         ∧ failed_ids (data q) !! id = Some reason)
    ∧ completed_ids (data (mark_completed p' id)) = completed_ids (data p').
Proof.
  intros p id cs p'.
  assert (Hp' : is_completed p' id = true)
    by apply is_completed_run, is_completed_mark_completed.
  split; [ exact Hp' | split ].
  - intros reason q.
    assert (Hq : is_completed q id = true)
      by exact (is_completed_apply p' (MarkFailed id reason) id Hp').
    split; [ exact Hq | split ].
    + apply bool_decide_eq_true in Hq. exact Hq.
    + simpl. apply lookup_insert_eq.
  - apply mark_completed_again, Hp'.
Qed.

End ProgressTrackerFacts.

(** ** Strings *)

Section PyFacts.
Import Py.

Lemma lstrip_head (s : str) :
  match lstrip s with
  | c :: _ => isspace c = false
  | [] => True
  end.
Proof.
  induction s as [ | c s IH]; simpl; [ exact I | ].
  destruct (isspace c) eqn:E; [ exact IH | exact E ].
Qed.

Lemma lstrip_fixed (s : str) :
  match s with c :: _ => isspace c = false | [] => True end →
  lstrip s = s.
Proof. destruct s as [ | c s]; simpl; [ reflexivity | intros -> ]. reflexivity. Qed.

Lemma lstrip_snoc (s : str) (c : N) :
  isspace c = false → lstrip (s ++ [c]) = lstrip s ++ [c].
Proof.
  intros Hc. induction s as [ | a s IH]; simpl.
  - rewrite Hc. reflexivity.
  - destruct (isspace a); [ exact IH | reflexivity ].
Qed.

Lemma rstrip_head (s : str) :
  match s with c :: _ => isspace c = false | [] => True end →
  match rstrip s with c :: _ => isspace c = false | [] => True end.
Proof.
  unfold rstrip. destruct s as [ | c s]; simpl; [ intros _; exact I | ].
  intros Hc. rewrite lstrip_snoc by exact Hc.
  rewrite rev_app_distr. simpl. exact Hc.
Qed.

Lemma strip_strip (s : str) : strip (strip s) = strip s.
Proof.
  unfold strip at 1.
  rewrite (lstrip_fixed (strip s)).
  - unfold strip, rstrip. rewrite rev_involutive.
    f_equal. apply lstrip_fixed, lstrip_head.
  - apply rstrip_head, lstrip_head.
Qed.

Lemma strip_nil : strip [] = [].
Proof. reflexivity. Qed.

Lemma truthy_false (s : str) : truthy s = false → s = [].
Proof. destruct s; [ reflexivity | discriminate ]. Qed.

End PyFacts.

(** ** The skip check *)

Section SkipFacts.
Import Main.

Lemma should_skip_spec (image_url : str) :
  SkipChecker.should_skip image_url
  = Py.startswith (lit "images/") (Py.strip image_url).
Proof.
  unfold SkipChecker.should_skip.
  destruct (Py.truthy image_url) eqn:E1; cbn [negb orb].
  - destruct (Py.truthy (Py.strip image_url)) eqn:E2; cbn [negb orb].
    + repeat case_match; reflexivity.
    + apply truthy_false in E2. rewrite E2. reflexivity.
  - apply truthy_false in E1. subst. reflexivity.
Qed.

(** C3, as the code has it.  The prefix the check looks for is the
    fixed ['images/'], not the configured output directory: a row whose
    reference, trimmed, starts with ['images/'] is skipped, and nothing
    but the two counters changes: no resolution is attempted.  A
    reference that does not start with ['images/'], such as the address
    of a placeholder image, is not skipped by the check. *)
Theorem local_reference_is_skipped :
  ∀ (env : Env) (args : Args) (i : nat) (s : State env)
    (row : csv.dict) (link image_url : str),
    rows s !! (i - 1)%nat = Some row →
    get_stripped row Link = Ok link →
    csv.get row (Some Gorsel_URL) = Some (csv.VStr image_url) →
    Py.startswith (lit "images/") (Py.strip image_url) = true →
    SkipChecker.should_skip image_url = true
    ∧ process_row env args i s = Ok (count_skipped (count_total s))
    ∧ (∀ other : str,
         Py.startswith (lit "images/") (Py.strip other) = false →
         SkipChecker.should_skip other = false).
Proof.
  intros env args i s row link image_url Hrow Hlink Himage Hprefix.
  split; [ | split ].
  - rewrite should_skip_spec. exact Hprefix.
  - unfold process_row. cbn [rows count_total]. rewrite Hrow.
    cbn [default from_option id].
    rewrite Hlink. cbn [mbind result_bind].
    unfold get_stripped at 1. rewrite Himage. cbn [mbind result_bind].
    destruct (negb (Py.truthy link)); [ reflexivity | ].
    rewrite should_skip_spec, strip_strip, Hprefix. reflexivity.
  - intros other H. rewrite should_skip_spec. exact H.
Qed.

Lemma local_reference_is_skipped_witness :
  let s := Examples.start (env := Examples.offline) () ∅
             [Examples.row Examples.reel_url (lit " images/reel_ABC123.jpg")] in
  SkipChecker.should_skip (lit " images/reel_ABC123.jpg") = true
  ∧ process_row Examples.offline (Examples.args (lit "images") None) 1 s
    = Ok (count_skipped (count_total s))
  ∧ (∀ other : str,
       Py.startswith (lit "images/") (Py.strip other) = false →
       SkipChecker.should_skip other = false).
Proof.
  intros s.
  apply (local_reference_is_skipped Examples.offline
           (Examples.args (lit "images") None) 1 s
           (Examples.row Examples.reel_url (lit " images/reel_ABC123.jpg"))
           Examples.reel_url (lit " images/reel_ABC123.jpg"));
    reflexivity.
Defined.

(** C3 as stated fails: with the output directory configured as
    [thumbs], a reference under [thumbs/] that names no placeholder is
    not classified as local, and the row goes on to a resolution. *)
Lemma configured_prefix_not_skipped :
  let args := Examples.args (lit "thumbs") None in
  let image_url := lit "thumbs/reel_ABC123.jpg" in
  let s := Examples.start (env := Examples.offline) () ∅
             [Examples.row Examples.reel_url image_url] in
  Py.startswith (output_dir args ++ lit "/") image_url = true
  ∧ Py.contains (lit "unsplash.com") image_url = false
  ∧ Py.contains (lit "placeholder") image_url = false
  ∧ SkipChecker.should_skip image_url = false
  ∧ ∃ s', process_row Examples.offline args 1 s = Ok s'
          ∧ trace s' = [EvFetchThumbnail Examples.reel_url;
                        EvMarkFailed (lit "ABC123")
                          (lit "Thumbnail URL not found")].
Proof.
  repeat split; try reflexivity.
  eexists; split; reflexivity.
Qed.

End SkipFacts.

(** ** The row-range selector *)

Section RowRangeFacts.
Import Main.

Lemma elem_of_insert_sorted (x y : Z) (l : list Z) :
  y ∈ insert_sorted x l ↔ y = x ∨ y ∈ l.
Proof.
  induction l as [ | a l IH]; simpl.
  - rewrite list_elem_of_singleton, elem_of_nil. tauto.
  - destruct (Z.ltb_spec x a); [ apply elem_of_cons | ].
    destruct (Z.eqb_spec x a) as [-> | ].
    + rewrite elem_of_cons. tauto.
    + rewrite !elem_of_cons, IH. tauto.
Qed.

Lemma elem_of_sorted_set (y : Z) (l : list Z) : y ∈ sorted_set l ↔ y ∈ l.
Proof.
  induction l as [ | a l IH]; simpl; [ reflexivity | ].
  rewrite elem_of_insert_sorted, elem_of_cons, IH. reflexivity.
Qed.

Lemma insert_sorted_sorted (x : Z) (l : list Z) :
  StronglySorted Z.lt l → StronglySorted Z.lt (insert_sorted x l).
Proof.
  induction 1 as [ | a l Hl IH Ha]; simpl.
  - repeat constructor.
  - destruct (Z.ltb_spec x a).
    + constructor; [ constructor; assumption | ].
      constructor; [ assumption | ].
      eapply Forall_impl; [ exact Ha | ]. simpl; intros; lia.
    + destruct (Z.eqb_spec x a); [ constructor; assumption | ].
      constructor; [ exact IH | ].
      apply Forall_forall. intros y [-> | Hy]%elem_of_insert_sorted; [ lia | ].
      rewrite Forall_forall in Ha. apply Ha, Hy.
Qed.

(** The result of [sorted(set(rows))] is increasing, hence without
    duplicates, and has the elements of [rows]. *)
Lemma sorted_set_sorted (l : list Z) : StronglySorted Z.lt (sorted_set l).
Proof.
  induction l as [ | a l IH]; simpl; [ constructor | ].
  apply insert_sorted_sorted, IH.
Qed.

Lemma parse_row_range_example :
  parse_row_range (lit "1-3,5,7-8") = Some [1; 2; 3; 5; 7; 8]%Z.
Proof. reflexivity. Qed.

(** With a selection that is not empty, the rows processed are those
    whose position is in it. *)
Lemma rows_to_process_selected (l : list Z) (n i : nat) :
  l ≠ [] →
  i ∈ rows_to_process (Some l) n ↔ (1 ≤ i ≤ n)%nat ∧ Z.of_nat i ∈ l.
Proof.
  intros Hl. unfold rows_to_process.
  rewrite list_elem_of_filter, elem_of_seq.
  destruct l as [ | a l]; [ congruence | ]. simpl.
  rewrite bool_decide_eq_true. intuition lia.
Qed.

(** C7, at the input where the code leaves it.  The range [5-3] parses
    to the empty selection; [main] then tests [row_indices] for truth,
    finds the empty list false like [None], and processes every row: on
    a dataset of two rows both links are resolved, where the claim has
    no row processed. *)
Theorem empty_selection_processes_every_row :
  parse_row_range (lit "5-3") = Some []
  ∧ (∀ n : nat, rows_to_process (Some []) n = seq 1 n)
  ∧ let url1 := lit "https://www.instagram.com/p/A1/" in
    let url2 := lit "https://www.instagram.com/p/B2/" in
    let fs : files :=
      {[ lit "recipes.csv" := Examples.dataset [(url1, []); (url2, [])] ]} in
    trace (final
             (main Examples.offline
                (Examples.args (lit "images") (Some (lit "5-3"))) () fs None))
    = [EvBackup;
       EvFetchThumbnail url1;
       EvMarkFailed (lit "A1") (lit "Thumbnail URL not found");
       EvFetchThumbnail url2;
       EvMarkFailed (lit "B2") (lit "Thumbnail URL not found")].
Proof.
  split; [ reflexivity | split ].
  - intros n. unfold rows_to_process. simpl.
    induction (seq 1 n) as [ | a l IH]; [ reflexivity | ].
    rewrite filter_cons_True by reflexivity. f_equal. exact IH.
  - vm_compute. reflexivity.
Qed.

End RowRangeFacts.

(** ** The dataset store: an empty rewrite *)

Section EmptyRewrite.
Import CSVHandler.
Variable with_suffix : str → str → str.
Variable str_of_list : list str → str.

(** What a rewrite that succeeds puts in the dataset file: the header
    line and then a line for every row. *)
Lemma write_rows_content (self : t) (rows : list csv.dict) (fs fs' : files) :
  rows ≠ [] →
  write_rows with_suffix str_of_list self rows fs = (Ok (), fs') →
  ∃ h text,
    csv.writerows str_of_list (csv.keys (default [] (head rows))) rows
      = (text, true)
    ∧ fs' !! csv_path self = Some (csv.writerow h ++ text).
Proof.
  destruct rows as [ | row0 rows]; [ congruence | intros _ ].
  unfold write_rows. cbn [default from_option id head].
  destruct (csv.dict_to_list _ _ _) as [h | ]; [ | discriminate ].
  destruct (csv.writerows _ _ _) as [text ok].
  destruct ok; [ | discriminate ].
  unfold move. rewrite lookup_insert_eq.
  intros [= <-]. exists h, text. split; [ reflexivity | ].
  apply lookup_insert_eq.
Qed.

(** C10.  [write_rows] on the empty list returns at once: the result is
    normal and the files are what they were, the dataset file included;
    no temporary file appears.  So whenever a rewrite succeeds, either
    the list was empty and no file has changed, or the dataset file
    holds the header line followed by the line of the first row and
    those of the others: never nothing, never the header alone. *)
Theorem write_rows_empty_is_noop :
  ∀ (self : t) (fs : files),
    write_rows with_suffix str_of_list self [] fs = (Ok (), fs)
    ∧ (∀ (rows : list csv.dict) (fs' : files),
         write_rows with_suffix str_of_list self rows fs = (Ok (), fs') →
         (rows = [] ∧ fs' = fs)
         ∨ (∃ h l0 text,
              fs' !! csv_path self
              = Some (csv.writerow h ++ csv.writerow l0 ++ text))).
Proof.
  intros self fs. split; [ reflexivity | ].
  intros rows fs' Hw.
  destruct rows as [ | row0 rows].
  - left. injection Hw as <-. split; reflexivity.
  - right.
    apply write_rows_content in Hw as (h & text & Ht & Hfs); [ | discriminate ].
    cbn [default from_option id head] in Ht. simpl in Ht.
    destruct (csv.dict_to_list _ _ row0) as [l0 | ]; [ | discriminate ].
    destruct (csv.writerows _ _ rows) as [text' ok].
    injection Ht as <- _.
    exists h, l0, text'. exact Hfs.
Qed.

End EmptyRewrite.

(** ** The video-data fetcher *)

Section YouTubeFacts.
Import YouTubeFetcher.

Lemma first_url_highest (thumbnails : json) (others : list str) (size : str)
    (u : json) :
  first_url thumbnails size others = Some u →
  ∃ better sz worse,
    size :: others = better ++ sz :: worse
    ∧ Forall (λ b, ∃ v, url_of thumbnails b = Some v ∧ truthy v = false)
        better
    ∧ url_of thumbnails sz = Some u
    ∧ (truthy u = true ∨ worse = []).
Proof.
  revert size. induction others as [ | size' others IH]; intros size; simpl.
  - destruct (url_of thumbnails size) as [v | ] eqn:Ev; [ | discriminate ].
    simpl. intros [= ->].
    exists [], size, []. repeat split; auto.
  - destruct (url_of thumbnails size) as [v | ] eqn:Ev; [ | discriminate ].
    simpl. destruct (truthy v) eqn:Tv.
    + intros [= ->]. exists [], size, (size' :: others). repeat split; auto.
    + intros (better & sz & worse & Heq & Hb & Hu & Ht)%IH.
      exists (size :: better), sz, worse. rewrite Heq.
      repeat split; auto. constructor; [ eauto | exact Hb ].
Qed.

Lemma highest_first_url (thumbnails : json) (better : list str) (sz : str)
    (worse : list str) (u : json) :
  Forall (λ b, ∃ v, url_of thumbnails b = Some v ∧ truthy v = false) better →
  url_of thumbnails sz = Some u →
  truthy u = true ∨ worse = [] →
  ∀ size others, size :: others = better ++ sz :: worse →
    first_url thumbnails size others = Some u.
Proof.
  intros Hb Hu Ht. induction Hb as [ | b better (v & Hv & Tv) Hb IH];
    intros size others; simpl.
  - intros [= -> ->].
    destruct worse as [ | size' worse]; simpl; rewrite Hu; simpl.
    + reflexivity.
    + destruct Ht as [-> | [=]]. reflexivity.
  - intros [= -> ->].
    destruct (better ++ sz :: worse) as [ | size' others] eqn:E.
    + destruct better; discriminate.
    + simpl. rewrite Hv. simpl. rewrite Tv. apply IH. reflexivity.
Qed.

(** What the program reads in the place of a reference, through the
    dictionary itself. *)
Lemma url_of_dict (thumbnails : list (str * json)) (size : str) (u : json) :
  url_of (JDict thumbnails) size = Some u
  ↔ (lookup thumbnails size = None ∧ u = JNull)
    ∨ ∃ entry,
        lookup thumbnails size = Some (JDict entry)
        ∧ ((lookup entry (lit "url") = None ∧ u = JNull)
           ∨ lookup entry (lit "url") = Some u).
Proof.
  unfold url_of. cbn [get mbind option_bind]. split.
  - destruct (lookup thumbnails size) as [e | ] eqn:E.
    + destruct e as [ | | | | | | entry]; try discriminate. cbn [get].
      intros [= <-]. right. exists entry. split; [ reflexivity | ].
      destruct (lookup entry (lit "url")); [ right | left; split ];
        reflexivity.
    + cbn. intros [= <-]. left. split; reflexivity.
  - intros [[-> ->] | (entry & -> & [[H ->] | H])]; cbn [get]; rewrite ?H;
      reflexivity.
Qed.

Lemma url_of_not_dict (thumbnails : json) (size : str) (u : json) :
  url_of thumbnails size = Some u → ∃ d, thumbnails = JDict d.
Proof.
  destruct thumbnails as [ | | | | | | d]; try discriminate. eauto.
Qed.

Lemma url_of_vacant (thumbnails : list (str * json)) (size : str) (v : json) :
  (url_of (JDict thumbnails) size = Some v ∧ truthy v = false)
  ↔ vacant thumbnails size v.
Proof.
  unfold vacant. rewrite url_of_dict. tauto.
Qed.

Lemma url_of_available (thumbnails : list (str * json)) (size : str)
    (u : json) :
  (url_of (JDict thumbnails) size = Some u ∧ truthy u = true)
  ↔ available thumbnails size u.
Proof.
  unfold available. rewrite url_of_dict. split.
  - intros [[[_ ->] | (entry & He & [[_ ->] | Hu])] Ht];
      try discriminate.
    exists entry. auto.
  - intros (entry & He & Hu & Ht). split; [ | exact Ht ].
    right. exists entry. auto.
Qed.

Lemma video_data_thumbnail (thumbnails : list (str * json)) (u : json) :
  first_url (JDict thumbnails) (lit "maxres")
    [lit "high"; lit "medium"; lit "default"] = Some u
  ↔ highest_available thumbnails u.
Proof.
  split.
  - intros (better & sz & worse & Heq & Hb & Hu & Ht)%first_url_highest.
    exists better, sz, worse. split; [ exact Heq | ]. split.
    + eapply Forall_impl; [ exact Hb | ]. intros b (v & Hv).
      exists v. apply url_of_vacant, Hv.
    + destruct (truthy u) eqn:Tu.
      * left. apply url_of_available. auto.
      * right. destruct Ht as [[=] | ->]. split; [ reflexivity | ].
        apply url_of_vacant. auto.
  - intros (better & sz & worse & Heq & Hb & Hu).
    apply (highest_first_url _ better sz worse); [ | | | exact Heq ].
    + eapply Forall_impl; [ exact Hb | ]. intros b (v & Hv).
      exists v. apply url_of_vacant, Hv.
    + destruct Hu as [Hu%url_of_available | [_ Hu%url_of_vacant]];
        apply Hu.
    + destruct Hu as [Hu%url_of_available | [-> _]];
        [ left; apply Hu | right; reflexivity ].
Qed.

Lemma first_url_dict (thumbnails : json) (size : str) (others : list str)
    (u : json) :
  first_url thumbnails size others = Some u → ∃ d, thumbnails = JDict d.
Proof.
  destruct others; cbn [first_url];
    destruct (url_of thumbnails size) eqn:E; try discriminate;
    intros _; eapply url_of_not_dict, E.
Qed.

Lemma contains_error_dict (d : list (str * json)) :
  contains (lit "error") (JDict d)
  = Some (bool_decide (is_Some (lookup d (lit "error")))).
Proof. reflexivity. Qed.

(** C8.  A resolution of a video succeeds exactly when the lookup
    answers with a dictionary that has no ['error'] and whose ['items']
    is a list, its first element a dictionary with a ['snippet'], a
    dictionary that holds the title, the description, the publication
    time and the dictionary of the thumbnails, in which every size
    looked at has a dictionary or nothing.  What is returned is those
    three values and the reference of the highest resolution available,
    in the order maxres, high, medium, default.  An answer that reports
    an error, one whose ['items'] is missing or empty, and a request
    that fails give no result. *)
Theorem video_resolution :
  ∀ (W : Type) (api_get : str → W → option json * W) (video_id : str)
    (w : W),
    let answer := (api_get video_id w).1 in
    let result := (fetch_video_data api_get video_id w).1 in
    (∀ r : VideoData,
       result = Some r ↔
       ∃ d video rest snippet thumbnails,
         answer = Some (JDict d)
         ∧ lookup d (lit "error") = None
         ∧ lookup d (lit "items") = Some (JList (JDict video :: rest))
         ∧ lookup video (lit "snippet") = Some (JDict snippet)
         ∧ lookup snippet (lit "thumbnails") = Some (JDict thumbnails)
         ∧ lookup snippet (lit "title") = Some (title r)
         ∧ lookup snippet (lit "description") = Some (description r)
         ∧ lookup snippet (lit "publishedAt") = Some (published_at r)
         ∧ highest_available thumbnails (thumbnail_url r))
    ∧ (∀ d, answer = Some (JDict d) →
            is_Some (lookup d (lit "error")) → result = None)
    ∧ (∀ d, answer = Some (JDict d) →
            lookup d (lit "items") = None
            ∨ lookup d (lit "items") = Some (JList []) →
            result = None)
    ∧ (answer = None → result = None).
Proof.
  intros W api_get video_id w answer result.
  subst answer result. unfold fetch_video_data.
  destruct (api_get video_id w) as [[data | ] w']; cbn [fst].
  2: { split; [ | split; [ | split ] ]; try discriminate; [ | reflexivity ].
       intros r; split; [ discriminate | ].
       intros (? & ? & ? & ? & ? & [=] & _). }
  split; [ | split; [ | split ] ]; [ | | | discriminate ].
  - intros r. unfold video_data. split.
    + destruct data as [ | | | | | | d]; try discriminate;
        try (simpl; case_match; discriminate).
      rewrite contains_error_dict. cbn [mbind option_bind].
      case_bool_decide as He; [ discriminate | ].
      cbn [get item].
      destruct (lookup d (lit "items")) as [items | ] eqn:Ei;
        cbn [mbind option_bind truthy negb]; [ | discriminate ].
      destruct (truthy items) eqn:Ti; cbn [negb]; [ | discriminate ].
      destruct (first items) as [video | ] eqn:Ev;
        cbn [mbind option_bind]; [ | discriminate ].
      destruct (item video (lit "snippet")) as [snippet | ] eqn:Es;
        cbn [mbind option_bind]; [ | discriminate ].
      destruct (item snippet (lit "thumbnails")) as [thumbnails | ] eqn:Eth;
        cbn [mbind option_bind]; [ | discriminate ].
      destruct (first_url thumbnails _ _) as [u | ] eqn:Eu;
        cbn [mbind option_bind]; [ | discriminate ].
      destruct (item snippet (lit "title")) as [ti | ] eqn:Eti;
        cbn [mbind option_bind]; [ | discriminate ].
      destruct (item snippet (lit "description")) as [de | ] eqn:Ede;
        cbn [mbind option_bind]; [ | discriminate ].
      destruct (item snippet (lit "publishedAt")) as [pa | ] eqn:Epa;
        cbn [mbind option_bind]; [ | discriminate ].
      intros [= <-]. cbn [title description thumbnail_url published_at].
      destruct video as [ | | | | | | vd]; try discriminate.
      destruct snippet as [ | | | | | | sn]; try discriminate.
      destruct (first_url_dict _ _ _ _ Eu) as [th ->].
      destruct items as [ | | | | [ | c cs] | [ | e rest] | ];
        try discriminate; cbn [first] in Ev; injection Ev as Ev;
        try discriminate.
      subst e. cbn [item] in *.
      exists d, vd, rest, sn, th.
      repeat split; try assumption; try reflexivity.
      * destruct (lookup d (lit "error")); [ | reflexivity ].
        exfalso. apply He. eauto.
      * apply video_data_thumbnail, Eu.
    + intros (d & video & rest & snippet & thumbnails & [= ->] & Herr & Hi
              & Hs & Hth & Hti & Hde & Hpa & Hu).
      rewrite contains_error_dict. rewrite Herr. cbn [mbind option_bind].
      rewrite bool_decide_eq_false_2 by (intros [? [=]]).
      cbn [get item]. rewrite Hi.
      cbn [mbind option_bind truthy negb first item].
      rewrite Hs. cbn [mbind option_bind item]. rewrite Hth.
      cbn [mbind option_bind].
      apply video_data_thumbnail in Hu. rewrite Hu. cbn [mbind option_bind].
      rewrite Hti, Hde, Hpa. cbn [mbind option_bind].
      destruct r; reflexivity.
  - intros d [= ->] Herr. unfold video_data.
    rewrite contains_error_dict. cbn [mbind option_bind].
    rewrite bool_decide_eq_true_2 by exact Herr. reflexivity.
  - intros d [= ->] Hitems. unfold video_data.
    rewrite contains_error_dict. cbn [mbind option_bind].
    case_bool_decide; [ reflexivity | ].
    cbn [get]. destruct Hitems as [-> | ->]; reflexivity.
Qed.

(** An answer with thumbnails of two sizes: the larger one is taken. *)
Lemma video_resolution_example :
  let thumbnail (u : string) := JDict [(lit "url", JStr (lit u))] in
  let snippet :=
    JDict [(lit "title", JStr (lit "Menemen"));
           (lit "description", JStr (lit "Eggs and tomatoes"));
           (lit "publishedAt", JStr (lit "2024-05-01T10:00:00Z"));
           (lit "thumbnails",
            JDict [(lit "default", thumbnail "d.jpg"%string);
                   (lit "high", thumbnail "h.jpg"%string)])] in
  video_data (JDict [(lit "items", JList [JDict [(lit "snippet", snippet)]])])
  = Some {| title := JStr (lit "Menemen");
            description := JStr (lit "Eggs and tomatoes");
            thumbnail_url := JStr (lit "h.jpg");
            published_at := JStr (lit "2024-05-01T10:00:00Z") |}
  ∧ video_data (JDict [(lit "error", JDict [(lit "message", JStr (lit "quota"))])])
    = None
  ∧ video_data (JDict [(lit "items", JList [])]) = None.
Proof. repeat split. Qed.

End YouTubeFacts.

(** ** The loop of [main] *)

Section LoopFacts.
Import Main.
Variable env : Env.
Variable args : Args.

Lemma fetch_thumbnail_url_frame (url : str) (s s1 : State env)
    (r : result str (option str)) :
  fetch_thumbnail_url env url s = (r, s1) →
  disk s1 = disk s ∧ progress s1 = progress s ∧ rows s1 = rows s
  ∧ stats s1 = stats s ∧ failed_urls s1 = failed_urls s
  ∧ trace s1 = trace s ++ [EvFetchThumbnail url].
Proof.
  unfold fetch_thumbnail_url.
  destruct (wait env (world s)) as [[error | ] w0].
  - intros [= <- <-]. repeat split.
  - destruct (InstagramScraper.fetch_thumbnail_url _ _ _ _) as [r' w].
    intros [= <- <-]. repeat split.
Qed.

Lemma download_frame (u f : str) (s s2 : State env) (ok : bool) :
  download env args u f s = (ok, s2) →
  ImageDownloader.download (http_get env) (image_ok env) (path_join env)
    (with_suffix env)
    {| ImageDownloader.output_dir := output_dir args;
       ImageDownloader.skip_existing := skip_existing args |}
    u f (world s) (disk s) = (ok, world s2, disk s2)
  ∧ progress s2 = progress s ∧ rows s2 = rows s
  ∧ stats s2 = stats s ∧ failed_urls s2 = failed_urls s
  ∧ trace s2 = trace s ++ [EvDownload u f].
Proof.
  unfold download.
  destruct (ImageDownloader.download _ _ _ _ _ _ _ _ _) as [[ok' w] fs].
  intros [= <- <-]. repeat split.
Qed.

Lemma resolve_and_download_ending (i : nat) (url : str)
    (t : InstagramScraper.url_type) (id : str) (s : State env) :
  ending env args i url t id s (resolve_and_download env args i url t id s).
Proof.
  unfold resolve_and_download.
  destruct (fetch_thumbnail_url env url s) as [r s1] eqn:Ef.
  destruct (found r) as [u | ] eqn:Er.
  - destruct (download env args u (filename_of t id) s1) as [ok s2] eqn:Ed.
    destruct ok.
    + eapply downloaded_ok; eassumption.
    + eapply not_downloaded; eassumption.
  - eapply not_resolved; eassumption.
Qed.

Lemma process_row_ending (i : nat) (s s' : State env) :
  process_row env args i s = Ok s' → row_ending env args i s s'.
Proof.
  unfold process_row. cbn [rows count_total].
  destruct (get_stripped _ Link) as [url | ] eqn:El; [ | discriminate ].
  destruct (get_stripped _ Gorsel_URL) as [image | ]; [ | discriminate ].
  cbn [mbind result_bind].
  destruct (negb (Py.truthy url)); [ intros [= <-]; constructor | ].
  destruct (SkipChecker.should_skip image); [ intros [= <-]; constructor | ].
  destruct (InstagramScraper.parse_instagram_url url) as [[t id] | ] eqn:Ep.
  - cbn [progress count_total].
    destruct (ProgressTracker.is_completed (progress s) id) eqn:Ec;
      intros [= <-]; [ constructor | ].
    eapply row_resolved; [ exact El | exact Ep | exact Ec | ].
    apply resolve_and_download_ending.
  - intros [= <-]. apply row_invalid; [ exact El | exact Ep ].
Qed.

(** [process_row] raises only where it reads the two fields. *)
Lemma process_row_total (i : nat) (s : State env) (link image : str) :
  let row := default [] (rows s !! (i - 1)%nat) in
  get_stripped row Link = Ok link →
  get_stripped row Gorsel_URL = Ok image →
  ∃ s', process_row env args i s = Ok s'.
Proof.
  intros row Hl Hi. unfold process_row. cbn [rows count_total].
  fold row. rewrite Hl, Hi. cbn [mbind result_bind].
  repeat case_match; eauto.
Qed.

Lemma get_stripped_raise (row : csv.dict) (k : str) (e : exn) :
  get_stripped row k = Raise e → e = AttributeError.
Proof. unfold get_stripped. repeat case_match; congruence. Qed.

Lemma process_row_raise (i : nat) (s : State env) (e : exn) :
  process_row env args i s = Raise e → e = AttributeError.
Proof.
  unfold process_row. cbn [rows count_total].
  destruct (get_stripped _ Link) as [url | e1] eqn:E1; cbn [mbind result_bind].
  - destruct (get_stripped _ Gorsel_URL) as [image | e2] eqn:E2;
      cbn [mbind result_bind].
    + repeat case_match; discriminate.
    + intros [= <-]. eapply get_stripped_raise, E2.
  - intros [= <-]. eapply get_stripped_raise, E1.
Qed.

Lemma process_row_unreadable (i : nat) (s : State env) :
  let row := default [] (rows s !! (i - 1)%nat) in
  get_stripped row Link = Raise AttributeError
  ∨ get_stripped row Gorsel_URL = Raise AttributeError →
  process_row env args i s = Raise AttributeError.
Proof.
  intros row H. unfold process_row. cbn [rows count_total]. fold row.
  destruct (get_stripped row Link) as [url | e] eqn:El;
    cbn [mbind result_bind].
  - destruct H as [H | H]; [ discriminate | ]. rewrite H. reflexivity.
  - apply get_stripped_raise in El as ->. reflexivity.
Qed.

Lemma fetch_thumbnail_url_cases (url : str) (s s1 : State env)
    (r : result str (option str)) :
  fetch_thumbnail_url env url s = (r, s1) →
  (∃ w0 error, wait env (world s) = (Some error, w0) ∧ r = Raise error)
  ∨ (∃ w0 r0, wait env (world s) = (None, w0) ∧ r = Ok r0).
Proof.
  unfold fetch_thumbnail_url.
  destruct (wait env (world s)) as [[error | ] w0].
  - intros [= <- _]. left. eauto.
  - destruct (InstagramScraper.fetch_thumbnail_url _ _ _ _) as [r' w].
    intros [= <- _]. right. eauto.
Qed.


End LoopFacts.



(** ** The end of the run *)

Section FinishFacts.
Import Main.
Variable env : Env.
Variable args : Args.

Lemma verify_integrity_spec (self : CSVHandler.t) (n : nat) (fs : files) :
  CSVHandler.verify_integrity self n fs = Ok ()
  ↔ ∃ rows, CSVHandler.read_rows self fs = Ok rows ∧ length rows = n.
Proof.
  unfold CSVHandler.verify_integrity.
  destruct (CSVHandler.read_rows self fs) as [rows | e];
    cbn [mbind result_bind].
  - case_bool_decide as Hn; split.
    + discriminate.
    + intros (? & [= <-] & ?). contradiction.
    + intros _. exists rows. split; [ reflexivity | ].
      destruct (decide (length rows = n)); [ assumption | contradiction ].
    + reflexivity.
  - split; [ discriminate | intros (? & [=] & _) ].
Qed.

Lemma process_rows_crash (l : list nat) (s s' : State env) (e : exn) :
  process_rows env args l s = (s', Some e) → e = AttributeError.
Proof.
  revert s. induction l as [ | i l IH]; intros s; simpl; [ discriminate | ].
  destruct (process_row env args i s) as [s1 | e1] eqn:E.
  - apply IH.
  - intros [= _ <-]. eapply process_row_raise, E.
Qed.

Lemma finish_exit (n : nat) (s : State env) :
  exit (finish env args n s)
  = match (update_csv env args n s).2 with
    | Ok _ => Returned
    | Raise _ => SysExit1
    end.
Proof.
  unfold finish. destruct (update_csv env args n s) as [s' [ | ]]; reflexivity.
Qed.

Lemma finish_nonzero (n : nat) (s0 : State env) :
  exit_status (exit (finish env args n s0)) ≠ 0%Z →
  (0 < downloaded (stats s0))%nat
  ∧ ∃ e, (update_csv env args n s0).2 = Raise e.
Proof.
  rewrite finish_exit. unfold update_csv.
  destruct (0 <? downloaded (stats s0))%nat eqn:E0; cbn [snd].
  - apply Nat.ltb_lt in E0. intros H. split; [ exact E0 | ].
    destruct (CSVHandler.write_rows _ _ _ _ _) as [[ | e] fs0]; cbn [snd].
    + destruct (CSVHandler.verify_integrity _ _ _) as [ | e];
        [ contradiction | eauto ].
    + eauto.
  - intros H. contradiction.
Qed.

(** The check after the rewrite.  When a row was downloaded, the
    rewrite is followed at once by the check, which reads the file
    again and compares the number of rows with the number it is given;
    if they differ the check raises, and the run ends by
    [sys.exit(1)].  After the loop the exit status is not zero only
    when the rewrite or its check raised. *)
Lemma integrity_mismatch_is_fatal :
  ∀ (original_count : nat) (s : State env) (fs' : files)
    (reloaded : list csv.dict),
    (0 < downloaded (stats s))%nat →
    CSVHandler.write_rows (with_suffix env) (str_of_list env)
      (csv_handler args) (rows s) (disk s) = (Ok (), fs') →
    CSVHandler.read_rows (csv_handler args) fs' = Ok reloaded →
    length reloaded ≠ original_count →
    let o := finish env args original_count s in
    CSVHandler.verify_integrity (csv_handler args) original_count fs'
      = Raise ValueError_row_count
    ∧ trace (final o) = trace s ++ [EvWriteRows; EvVerifyIntegrity]
    ∧ exit o = SysExit1
    ∧ exit_status (exit o) = 1%Z
    ∧ (∀ (l : list nat) (s0 s1 : State env) (e : exn),
         process_rows env args l s0 = (s1, Some e) → e = AttributeError)
    ∧ (∀ (n : nat) (s0 : State env),
         exit_status (exit (finish env args n s0)) ≠ 0%Z →
         (0 < downloaded (stats s0))%nat
         ∧ ∃ e, (update_csv env args n s0).2 = Raise e).
Proof.
  intros original_count s fs' reloaded Hd Hw Hr Hn o.
  assert (Hv : CSVHandler.verify_integrity (csv_handler args) original_count
                 fs' = Raise ValueError_row_count).
  { unfold CSVHandler.verify_integrity. rewrite Hr. cbn [mbind result_bind].
    rewrite bool_decide_eq_true_2 by exact Hn. reflexivity. }
  assert (Hu : update_csv env args original_count s
               = (log EvVerifyIntegrity (log EvWriteRows (set_disk fs' s)),
                  Raise ValueError_row_count)).
  { unfold update_csv. apply Nat.ltb_lt in Hd. rewrite Hd, Hw.
    cbn [disk log set_disk]. rewrite Hv. reflexivity. }
  split; [ exact Hv | ].
  split; [ | split; [ | split;
    [ | split; [ apply process_rows_crash | apply finish_nonzero ] ] ] ];
    subst o; unfold finish; rewrite Hu; cbn.
  - rewrite <- app_assoc. reflexivity.
  - reflexivity.
  - reflexivity.
Qed.

End FinishFacts.

Lemma process_row_trace (env : Main.Env) (args : Main.Args) (i : nat)
    (s s' : Main.State env) :
  Main.process_row env args i s = Ok s' →
  ∃ evs, Main.trace s' = Main.trace s ++ evs ∧ Main.EvWriteRows ∉ evs.
Proof.
  intros H. apply process_row_ending in H.
  destruct H as [ | url Hl Hp | url t id s' Hl Hp Hc He ].
  - exists []. split; [ cbn; rewrite app_nil_r; reflexivity | ].
    apply not_elem_of_nil.
  - exists []. split; [ cbn; rewrite app_nil_r; reflexivity | ].
    apply not_elem_of_nil.
  - destruct He as [r s1 Hf Hr | r s1 u s2 Hf Hr Hd | r s1 u s2 Hf Hr Hd];
      apply fetch_thumbnail_url_frame in Hf as (_ & _ & _ & _ & _ & Ht1);
      try apply download_frame in Hd as (_ & _ & _ & _ & _ & Ht2);
      eexists; (split;
        [ cbn; rewrite ?Ht2, Ht1; cbn; rewrite <- ?app_assoc; reflexivity | ]);
      intros H; cbn in H;
      repeat (apply elem_of_cons in H as [H | H]; [ discriminate | ]);
      inversion H.
Qed.

Lemma process_rows_trace (env : Main.Env) (args : Main.Args) (l : list nat) :
  ∀ (s s' : Main.State env) (crash : option exn),
    Main.process_rows env args l s = (s', crash) →
    ∃ evs, Main.trace s' = Main.trace s ++ evs ∧ Main.EvWriteRows ∉ evs.
Proof.
  induction l as [ | i l IH]; intros s s' crash H; cbn [Main.process_rows] in H.
  - injection H as <- _. exists [].
    split; [ rewrite app_nil_r; reflexivity | apply not_elem_of_nil ].
  - destruct (Main.process_row env args i s) as [s1 | e] eqn:E.
    + destruct (process_row_trace _ _ _ _ _ E) as (a & Ha & Hna).
      destruct (IH _ _ _ H) as (b & Hb & Hnb).
      exists (a ++ b). split; [ rewrite Hb, Ha, app_assoc; reflexivity | ].
      rewrite elem_of_app. tauto.
    + injection H as <- _. exists [].
      split; [ cbn; rewrite app_nil_r; reflexivity | apply not_elem_of_nil ].
Qed.

(** C4, at the input where the code leaves it.  A line with fewer
    fields than the header gives a row in which a field is [None]; the
    body of the loop calls [strip] on it before any [try], so the
    failure of that row is not recorded and ends the run: the loop
    stops with [AttributeError] at the row, the rows after it are not
    processed, and [main] ends with a traceback, exit status 1, the
    rewrite not made and the failure report not written, whatever was
    recorded before.  On a dataset of three rows the second of which is
    such a line, the first row is processed and fails as any link does
    offline, and the run ends there. *)
Theorem short_line_ends_the_run :
  (∀ (env : Main.Env) (args : Main.Args) (j : nat) (others : list nat)
     (s0 : Main.State env),
     let row := default [] (Main.rows s0 !! (j - 1)%nat) in
     Main.get_stripped row Main.Link = Raise AttributeError
     ∨ Main.get_stripped row Main.Gorsel_URL = Raise AttributeError →
     Main.process_rows env args (j :: others) s0
     = (Main.count_total s0, Some AttributeError))
  ∧ (∀ (env : Main.Env) (args : Main.Args) (w : Main.W env) (fs : files)
       (file : option ProgressTracker.Data) (e : exn),
       let o := Main.main env args w fs file in
       Main.exit o = Main.Uncaught e →
       Main.exit_status (Main.exit o) = 1%Z
       ∧ Main.report o = None
       ∧ Main.EvWriteRows ∉ Main.trace (Main.final o))
  ∧ let url1 := lit "https://www.instagram.com/p/A1/" in
    let url2 := lit "https://www.instagram.com/p/B2/" in
    let url3 := lit "https://www.instagram.com/p/C3/" in
    let text :=
      csv.writerow [Main.Link; Main.Gorsel_URL]
      ++ csv.writerow [url1; []] ++ csv.writerow [url2]
      ++ csv.writerow [url3; []] in
    let fs : files := {[ lit "recipes.csv" := text ]} in
    let o := Main.main Examples.offline (Examples.args (lit "images") None)
               () fs None in
    (length <$> CSVHandler.read_rows {| CSVHandler.csv_path := lit "recipes.csv" |} fs)
    = Ok 3%nat
    ∧ Main.exit o = Main.Uncaught AttributeError
    ∧ Main.exit_status (Main.exit o) = 1%Z
    ∧ Main.trace (Main.final o)
      = [Main.EvBackup;
         Main.EvFetchThumbnail url1;
         Main.EvMarkFailed (lit "A1") (lit "Thumbnail URL not found")]
    ∧ Main.total (Main.stats (Main.final o)) = 2%nat
    ∧ Main.failed_urls (Main.final o)
      = [(url1, lit "Thumbnail URL not found")]
    ∧ Main.report o = None.
Proof.
  split; [ | split ].
  - intros env args j others s0 row H.
    apply process_row_unreadable with (env := env) (args := args) in H.
    cbn [Main.process_rows]. rewrite H. reflexivity.
  - intros env args w fs file e o. subst o. unfold Main.main.
    destruct (CSVHandler.read_rows _ fs) as [loaded | e0];
      [ | discriminate ].
    destruct (Main.row_indices args) as [indices | e0].
    2: { intros _. split; [ reflexivity | ].
         split; [ reflexivity | apply not_elem_of_nil ]. }
    destruct (if negb (Main.no_backup args) && negb (Main.dry_run args)
              then _ else _) as [s1 | e0] eqn:Eb.
    2: { intros _. split; [ reflexivity | ].
         split; [ reflexivity | apply not_elem_of_nil ]. }
    assert (Htrace : Main.EvWriteRows ∉ Main.trace s1).
    { destruct (negb (Main.no_backup args) && negb (Main.dry_run args)).
      - destruct (CSVHandler.backup _ _ _) as [r | e0]; [ | discriminate ].
        injection Eb as <-. cbn.
        intros [=]%list_elem_of_singleton.
      - injection Eb as <-. apply not_elem_of_nil. }
    destruct (Main.dry_run args).
    { destruct (Main.dry_run_preview loaded); [ discriminate | ].
      intros _. split; [ reflexivity | ]. split; [ reflexivity | exact Htrace ]. }
    destruct (Main.process_rows env args _ s1) as [s2 [e0 | ]] eqn:El.
    + intros _. split; [ reflexivity | ]. split; [ reflexivity | ].
      cbn [Main.final Main.stop].
      pose proof (process_rows_trace env args _ _ _ _ El) as (evs & -> & Hevs).
      rewrite elem_of_app. tauto.
    + rewrite finish_exit.
      destruct (Main.update_csv env args (length loaded) s2).2; discriminate.
  - vm_compute. repeat split.
Qed.


(** ** The downloader *)

Section DownloadFacts.
Import ImageDownloader.
Context {W : Type}.
Variable http_get : str → W → option Response * W.
Variable image_ok : list N → bool.
Variable path_join : str → str → str.
Variable with_suffix : str → str → str.

Lemma size_refused (response : Response) (len : str) (n : Z) :
  content_length response = Some len →
  Py.truthy len = true →
  Py.int len = Some n →
  (MAX_FILE_SIZE < n)%Z →
  size_accepted response = false.
Proof.
  intros Hc Ht Hi Hn. unfold size_accepted. rewrite Hc, Ht, Hi.
  apply Z.ltb_lt in Hn. rewrite Hn. reflexivity.
Qed.

(** A download refused for its size has written nothing. *)
Lemma download_refused (self : t) (url filename : str) (w w' : W)
    (fs : files) (response : Response) :
  skip_existing self
  && bool_decide (is_Some (fs !! path_join (output_dir self) filename))
  = false →
  http_get url w = (Some response, w') →
  size_accepted response = false →
  download http_get image_ok path_join with_suffix self url filename w fs
  = (false, w', fs).
Proof.
  intros Hskip Hget Hsize. unfold download.
  rewrite Hskip, Hget, Hsize. destruct (status_ok response); reflexivity.
Qed.

(** A download that fails has touched no file but its temporary one. *)
Lemma download_failed_frame (self : t) (url filename : str) (w w' : W)
    (fs fs' : files) (p : str) :
  download http_get image_ok path_join with_suffix self url filename w fs
  = (false, w', fs') →
  p ≠ with_suffix (path_join (output_dir self) filename) (lit ".tmp") →
  fs' !! p = fs !! p.
Proof.
  unfold download. intros H Hp.
  destruct (skip_existing self && _); [ discriminate | ].
  destruct (http_get url w) as [[response | ] w1]; [ | congruence ].
  destruct (negb (status_ok response)); [ congruence | ].
  destruct (negb (size_accepted response)); [ congruence | ].
  destruct (negb (stream_ok response)).
  { injection H as _ <-. rewrite lookup_insert_ne by congruence. reflexivity. }
  destruct (negb (verify_image _ _ _)).
  { injection H as _ <-.
    rewrite lookup_delete_ne, lookup_insert_ne by congruence. reflexivity. }
  unfold move in H. rewrite lookup_insert_eq in H. discriminate.
Qed.

End DownloadFacts.

Section SizeFacts.
Import Main.
Variable env : Env.
Variable args : Args.

(** C6, as the code has it.  When the answer to the request for the
    image declares a length above the ceiling, the download is refused
    before any file is opened: the files after the row are the files
    before it, so nothing is at the final path and there is no
    temporary file.  The row is counted as failed and recorded, in the
    failure list and in the ledger, with the reason ['Download failed'],
    the one every failed download gets. *)
Theorem oversize_download_is_refused :
  ∀ (i : nat) (url : str) (t : InstagramScraper.url_type) (id : str)
    (s s1 : State env) (r : result str (option str)) (u : str)
    (response : ImageDownloader.Response) (w' : W env) (len : str) (n : Z),
    fetch_thumbnail_url env url s = (r, s1) →
    found r = Some u →
    skip_existing args
    && bool_decide
         (is_Some (disk s !! path_join env (output_dir args) (filename_of t id)))
    = false →
    http_get env u (world s1) = (Some response, w') →
    ImageDownloader.content_length response = Some len →
    Py.truthy len = true →
    Py.int len = Some n →
    (ImageDownloader.MAX_FILE_SIZE < n)%Z →
    let s' := resolve_and_download env args i url t id s in
    disk s' = disk s
    ∧ rows s' = rows s
    ∧ failed (stats s') = S (failed (stats s))
    ∧ failed_urls s' = failed_urls s ++ [(url, lit "Download failed")]
    ∧ ProgressTracker.failed_ids (ProgressTracker.data (progress s')) !! id
      = Some (lit "Download failed").
Proof.
  intros i url t id s s1 r u response w' len n Hf Hr Hskip Hget Hc Ht Hi Hn s'.
  subst s'. unfold resolve_and_download. rewrite Hf, Hr.
  apply fetch_thumbnail_url_frame in Hf as (Hdisk & _ & Hrows & Hst & Hurls & _).
  unfold download.
  erewrite download_refused;
    [ | rewrite Hdisk; exact Hskip | exact Hget
      | eapply size_refused; eassumption ].
  cbn. rewrite Hdisk, Hrows, Hst, Hurls.
  repeat split. apply lookup_insert_eq.
Qed.

End SizeFacts.

Lemma oversize_download_is_refused_witness :
  let env := Examples.env (Some Examples.cdn_url) None (Some Examples.too_large) in
  let args := Examples.args (lit "images") None in
  let s := Examples.start (env := env) () ∅ [Examples.row Examples.reel_url []] in
  let s' := Main.resolve_and_download env args 1 Examples.reel_url
              InstagramScraper.reel (lit "ABC123") s in
  Main.disk s' = ∅
  ∧ Main.failed_urls s' = [(Examples.reel_url, lit "Download failed")].
Proof.
  intros env args s s'.
  destruct (oversize_download_is_refused env args 1 Examples.reel_url
              InstagramScraper.reel (lit "ABC123") s
              (Main.fetch_thumbnail_url env Examples.reel_url s).2
              (Ok (Some Examples.cdn_url)) Examples.cdn_url Examples.too_large ()
              (lit "20000000") 20000000)
    as (Hdisk & _ & _ & Hurls & _);
    try reflexivity.
  split; [ exact Hdisk | exact Hurls ].
Defined.

(** C6 as stated fails on the reason: what is recorded for a download
    refused for its size is what is recorded for one that could not
    connect, so the reason says nothing of the size. *)
Lemma oversize_reason_is_generic :
  let args := Examples.args (lit "images") None in
  let oversize :=
    Examples.env (Some Examples.cdn_url) None (Some Examples.too_large) in
  let unreachable := Examples.env (Some Examples.cdn_url) None None in
  let run (env : Main.Env) (w : Main.W env) :=
    Main.resolve_and_download env args 1 Examples.reel_url
      InstagramScraper.reel (lit "ABC123")
      (Examples.start w ∅ [Examples.row Examples.reel_url []]) in
  ImageDownloader.size_accepted Examples.too_large = false
  ∧ Main.failed_urls (run oversize ())
    = [(Examples.reel_url, lit "Download failed")]
  ∧ ProgressTracker.failed_ids
      (ProgressTracker.data (Main.progress (run oversize ())))
      !! lit "ABC123" = Some (lit "Download failed")
  ∧ Main.failed_urls (run unreachable ()) = Main.failed_urls (run oversize ())
  ∧ ProgressTracker.failed_ids
      (ProgressTracker.data (Main.progress (run unreachable ())))
    = ProgressTracker.failed_ids
        (ProgressTracker.data (Main.progress (run oversize ()))).
Proof. repeat split. Qed.

(** ** The single rewrite *)

Section RewriteFacts.
Import Main.
Variable env : Env.
Variable args : Args.

(** No download of the run uses the path of the dataset for its
    temporary file. *)
Hypothesis temp_paths :
  ∀ name : str,
    with_suffix env (path_join env (output_dir args) name) (lit ".tmp")
    ≠ csv_arg args.

Lemma later_refl (s : State env) : later env args s s.
Proof.
  split; [ lia | split; [ reflexivity | ] ].
  exists []. split; [ symmetry; apply app_nil_r | apply not_elem_of_nil ].
Qed.

Lemma later_trans (a b c : State env) :
  later env args a b → later env args b c → later env args a c.
Proof.
  intros (Hab & Dab & evs1 & Tab & Nab) (Hbc & Dbc & evs2 & Tbc & Nbc).
  split; [ lia | split ].
  - intros Heq. rewrite Dbc, Dab by lia. reflexivity.
  - exists (evs1 ++ evs2). split.
    + rewrite Tbc, Tab, app_assoc. reflexivity.
    + rewrite elem_of_app. tauto.
Qed.

Lemma later_count_total (s : State env) : later env args s (count_total s).
Proof.
  split; [ simpl; lia | split; [ reflexivity | ] ].
  exists []. split; [ symmetry; apply app_nil_r | apply not_elem_of_nil ].
Qed.

Ltac no_rewrite :=
  rewrite ?elem_of_app, ?elem_of_cons, ?elem_of_nil; intuition discriminate.

Lemma later_ending (i : nat) (url : str) (t : InstagramScraper.url_type)
    (id : str) (s s' : State env) :
  ending env args i url t id s s' → later env args s s'.
Proof.
  intros [r s1 Hf Hr | r s1 u s2 Hf Hr Hd | r s1 u s2 Hf Hr Hd];
    apply fetch_thumbnail_url_frame in Hf as (Hdisk & _ & _ & Hst & _ & Htr).
  - split; [ cbn; rewrite Hst; lia | split ].
    + intros _. cbn. rewrite Hdisk. reflexivity.
    + eexists. split; [ cbn; rewrite Htr, <- app_assoc; reflexivity | ].
      no_rewrite.
  - apply download_frame in Hd as (Hdl & _ & _ & Hst2 & _ & Htr2).
    split; [ cbn; rewrite Hst2, Hst; lia | split ].
    + intros _. cbn.
      erewrite download_failed_frame; [ | exact Hdl | ].
      * rewrite Hdisk. reflexivity.
      * intros E. exact (temp_paths _ (eq_sym E)).
    + eexists. split;
        [ cbn; rewrite Htr2, Htr, <- !app_assoc; reflexivity | ].
      no_rewrite.
  - apply download_frame in Hd as (Hdl & _ & _ & Hst2 & _ & Htr2).
    split; [ cbn; rewrite Hst2, Hst; lia | split ].
    + cbn. rewrite Hst2, Hst. lia.
    + eexists. split;
        [ cbn; rewrite Htr2, Htr, <- !app_assoc; reflexivity | ].
      no_rewrite.
Qed.

Lemma later_process_row (i : nat) (s s' : State env) :
  process_row env args i s = Ok s' → later env args s s'.
Proof.
  intros [ | url Hl Hp | url t id s2 Hl Hp Hc He]%process_row_ending.
  - split; [ simpl; lia | split; [ reflexivity | ] ].
    exists []. split; [ symmetry; apply app_nil_r | apply not_elem_of_nil ].
  - split; [ simpl; lia | split; [ reflexivity | ] ].
    exists []. split; [ symmetry; apply app_nil_r | apply not_elem_of_nil ].
  - eapply later_trans; [ apply later_count_total | ].
    eapply later_ending, He.
Qed.

Lemma later_process_rows (l : list nat) (s s' : State env)
    (crash : option exn) :
  process_rows env args l s = (s', crash) → later env args s s'.
Proof.
  revert s. induction l as [ | i l IH]; intros s; simpl.
  - intros [= <- _]. apply later_refl.
  - destruct (process_row env args i s) as [s1 | e] eqn:E.
    + intros H. eapply later_trans; [ eapply later_process_row, E | ].
      apply IH, H.
    + intros [= <- _]. apply later_count_total.
Qed.

(** The body of the loop assigns to a row only when it ends in a
    download, and then to the reference field of its own row. *)
Lemma process_row_rows (i : nat) (s s' : State env) :
  process_row env args i s = Ok s' →
  rows s' = rows s
  ∨ (downloaded (stats s') = S (downloaded (stats s))
     ∧ ∃ v, rows s'
            = alter (λ row, csv.set row (Some Gorsel_URL) (csv.VStr v))
                (i - 1)%nat (rows s)).
Proof.
  intros [ | url Hl Hp | url t id s2 Hl Hp Hc He]%process_row_ending;
    [ left; reflexivity | left; reflexivity | ].
  destruct He as [r s1 Hf Hr | r s1 u s2 Hf Hr Hd | r s1 u s2 Hf Hr Hd];
    apply fetch_thumbnail_url_frame in Hf as (_ & _ & Hrows & Hst & _).
  - left. cbn. exact Hrows.
  - apply download_frame in Hd as (_ & _ & Hrows2 & _).
    left. cbn. rewrite Hrows2. exact Hrows.
  - apply download_frame in Hd as (_ & _ & Hrows2 & Hst2 & _).
    right. cbn. rewrite Hst2, Hst, Hrows2, Hrows. cbn.
    split; [ reflexivity | eexists; reflexivity ].
Qed.

(** After the loop, [finish] leaves the counts alone and adds to the
    trace nothing, or the rewrite with the check that may follow it. *)
Lemma finish_shape (n : nat) (s : State env) :
  let o := finish env args n s in
  stats (final o) = stats s
  ∧ ((downloaded (stats s) = 0%nat ∧ final o = s)
     ∨ ((0 < downloaded (stats s))%nat
        ∧ (trace (final o) = trace s ++ [EvWriteRows]
           ∨ trace (final o) = trace s ++ [EvWriteRows; EvVerifyIntegrity]))).
Proof.
  unfold finish, update_csv.
  destruct (0 <? downloaded (stats s))%nat eqn:E.
  - apply Nat.ltb_lt in E.
    destruct (CSVHandler.write_rows _ _ _ _ _) as [[ | e] fs'].
    + destruct (CSVHandler.verify_integrity _ _ _); cbn;
        (split; [ reflexivity | right; split; [ exact E | right ] ]);
        rewrite <- app_assoc; reflexivity.
    + cbn. split; [ reflexivity | right; split; [ exact E | left ] ].
      reflexivity.
  - apply Nat.ltb_ge in E. cbn.
    split; [ reflexivity | left; split; [ lia | reflexivity ] ].
Qed.

(** The rewrite in a run, as far as the state goes.  The rewrite of the
    dataset is called at most once, after every call made for the
    rows, with nothing but its check after it, and only when a row was
    downloaded; a run that downloads no row leaves the dataset file of
    its last state as it found it; and the body of the loop changes
    the rows in memory only when it ends in a download for the row. *)
Lemma rewrite_once_in_run :
  ∀ (w : W env) (fs : files) (progress_file : option ProgressTracker.Data),
    let o := main env args w fs progress_file in
    (∃ before after,
       trace (final o) = before ++ after
       ∧ (EvWriteRows ∉ before)
       ∧ (after = []
          ∨ ((after = [EvWriteRows]
              ∨ after = [EvWriteRows; EvVerifyIntegrity])
             ∧ (0 < downloaded (stats (final o)))%nat)))
    ∧ (downloaded (stats (final o)) = 0%nat →
       disk (final o) !! csv_arg args = fs !! csv_arg args)
    ∧ (∀ (i : nat) (s s' : State env),
         process_row env args i s = Ok s' →
         rows s' = rows s
         ∨ (downloaded (stats s') = S (downloaded (stats s))
            ∧ ∃ v, rows s'
                   = alter (λ row, csv.set row (Some Gorsel_URL) (csv.VStr v))
                       (i - 1)%nat (rows s))).
Proof.
  intros w fs progress_file o.
  apply and_assoc. split; [ | exact process_row_rows ].
  assert (Hquiet : ∀ (x : Exit) (s : State env),
            EvWriteRows ∉ trace s →
            (downloaded (stats s) = 0%nat →
             disk s !! csv_arg args = fs !! csv_arg args) →
            (∃ before after,
               trace (final (stop env x s)) = before ++ after
               ∧ (EvWriteRows ∉ before)
               ∧ (after = []
                  ∨ ((after = [EvWriteRows]
                      ∨ after = [EvWriteRows; EvVerifyIntegrity])
                     ∧ (0 < downloaded (stats (final (stop env x s))))%nat)))
            ∧ (downloaded (stats (final (stop env x s))) = 0%nat →
               disk (final (stop env x s)) !! csv_arg args
               = fs !! csv_arg args)).
  { intros x s Ht Hd. split; [ | exact Hd ].
    exists (trace s), []. cbn. rewrite app_nil_r. auto. }
  subst o. unfold main.
  destruct (CSVHandler.read_rows _ fs) as [loaded | e] eqn:Eread.
  2: { apply Hquiet; [ apply not_elem_of_nil | reflexivity ]. }
  destruct (row_indices args) as [indices | e].
  2: { apply Hquiet; [ apply not_elem_of_nil | reflexivity ]. }
  match goal with
  | |- context [ match ?b with Ok _ => _ | Raise _ => _ end ] =>
      destruct b as [s | e] eqn:Eb
  end.
  2: { apply Hquiet; [ apply not_elem_of_nil | reflexivity ]. }
  assert (Hs : (EvWriteRows ∉ trace s)
               ∧ disk s !! csv_arg args = fs !! csv_arg args
               ∧ downloaded (stats s) = 0%nat).
  { destruct (negb (no_backup args) && negb (dry_run args)).
    - unfold CSVHandler.backup in Eb. cbn [CSVHandler.csv_path csv_handler] in Eb.
      set (backup_path := with_suffix env (csv_arg args) (lit ".csv.backup"))
        in Eb.
      destruct (fs !! csv_arg args) as [c | ] eqn:Ec; [ | discriminate ].
      cbn in Eb. injection Eb as <-. cbn.
      split; [ rewrite elem_of_cons, elem_of_nil; intuition discriminate | ].
      split; [ | reflexivity ].
      destruct (decide (backup_path = csv_arg args)) as [-> | Hne].
      + rewrite lookup_insert_eq. reflexivity.
      + rewrite lookup_insert_ne by exact Hne. exact Ec.
    - injection Eb as <-. cbn.
      split; [ apply not_elem_of_nil | split; reflexivity ]. }
  destruct Hs as (Htr & Hdisk & Hdl).
  destruct (dry_run args).
  { destruct (dry_run_preview _); apply Hquiet; auto. }
  destruct (process_rows env args _ s) as [s1 crash] eqn:Eloop.
  apply later_process_rows in Eloop as (Hle & Hsame & evs & Hevs & Hno).
  assert (Htr1 : EvWriteRows ∉ trace s1).
  { rewrite Hevs, elem_of_app. tauto. }
  assert (Hdisk1 : downloaded (stats s1) = 0%nat →
                   disk s1 !! csv_arg args = fs !! csv_arg args).
  { intros H0. rewrite Hsame by lia. exact Hdisk. }
  destruct crash as [e | ]; [ apply Hquiet; assumption | ].
  destruct (finish_shape (length loaded) s1) as (Hst & [[H0 Hfin] | [Hpos Hfin]]).
  - rewrite Hfin. split; [ | exact Hdisk1 ].
    exists (trace s1), []. rewrite app_nil_r. auto.
  - rewrite Hst. split; [ | lia ].
    exists (trace s1).
    destruct Hfin as [Hfin | Hfin]; rewrite Hfin;
      [ exists [EvWriteRows] | exists [EvWriteRows; EvVerifyIntegrity] ];
      (split; [ reflexivity | split; [ exact Htr1 | right ] ]);
      (split; [ auto | exact Hpos ]).
Qed.

End RewriteFacts.

Lemma with_suffix_last (p s : str) (c : N) :
  last s = Some c → last (Examples.with_suffix p s) = Some c.
Proof.
  intros H. unfold Examples.with_suffix. rewrite last_app, H. reflexivity.
Qed.

(** With these paths no temporary file of a download is the dataset:
    the one ends in [.tmp], the other in [.csv]. *)
Lemma examples_temp_paths (output_dir name : str) :
  Examples.with_suffix (Examples.path_join output_dir name) (lit ".tmp")
  ≠ lit "recipes.csv".
Proof.
  intros H. apply (f_equal last) in H.
  rewrite (with_suffix_last _ _ 112) in H by reflexivity.
  discriminate H.
Qed.

Lemma files_at_exit_other (env : Main.Env) (o : Main.Outcome env) (p : str) :
  p ≠ Main.failed_urls_txt →
  Main.files_at_exit o !! p = Main.disk (Main.final o) !! p.
Proof.
  intros Hp. unfold Main.files_at_exit.
  destruct (Main.report o); [ | reflexivity ].
  apply lookup_insert_ne. congruence.
Qed.

Lemma rewrite_trace (env : Main.Env) (args : Main.Args) (w : Main.W env)
    (fs : files) (file : option ProgressTracker.Data) :
  let o := Main.main env args w fs file in
  ∃ before after,
    Main.trace (Main.final o) = before ++ after
    ∧ (Main.EvWriteRows ∉ before)
    ∧ (after = []
       ∨ ((after = [Main.EvWriteRows]
           ∨ after = [Main.EvWriteRows; Main.EvVerifyIntegrity])
          ∧ (0 < Main.downloaded (Main.stats (Main.final o)))%nat)).
Proof.
  intros o. subst o.
  assert (Hquiet : ∀ (x : Main.Exit) (s : Main.State env),
            Main.EvWriteRows ∉ Main.trace s →
            ∃ before after,
              Main.trace (Main.final (Main.stop env x s)) = before ++ after
              ∧ (Main.EvWriteRows ∉ before)
              ∧ (after = []
                 ∨ ((after = [Main.EvWriteRows]
                     ∨ after = [Main.EvWriteRows; Main.EvVerifyIntegrity])
                    ∧ (0 < Main.downloaded
                             (Main.stats (Main.final (Main.stop env x s))))%nat))).
  { intros x s Ht. exists (Main.trace s), []. cbn. rewrite app_nil_r. auto. }
  unfold Main.main.
  destruct (CSVHandler.read_rows _ fs) as [loaded | e].
  2: { apply Hquiet, not_elem_of_nil. }
  destruct (Main.row_indices args) as [indices | e].
  2: { apply Hquiet, not_elem_of_nil. }
  destruct (if negb (Main.no_backup args) && negb (Main.dry_run args)
            then _ else _) as [s | e] eqn:Eb.
  2: { apply Hquiet, not_elem_of_nil. }
  assert (Htr : Main.EvWriteRows ∉ Main.trace s).
  { destruct (negb (Main.no_backup args) && negb (Main.dry_run args)).
    - destruct (CSVHandler.backup _ _ _) as [r | e]; [ | discriminate ].
      injection Eb as <-. cbn. intros [=]%list_elem_of_singleton.
    - injection Eb as <-. apply not_elem_of_nil. }
  destruct (Main.dry_run args).
  { destruct (Main.dry_run_preview _); apply Hquiet; exact Htr. }
  destruct (Main.process_rows env args _ s) as [s1 crash] eqn:Eloop.
  apply process_rows_trace in Eloop as (evs & Hevs & Hno).
  assert (Htr1 : Main.EvWriteRows ∉ Main.trace s1).
  { rewrite Hevs, elem_of_app. tauto. }
  destruct crash as [e | ]; [ apply Hquiet; exact Htr1 | ].
  destruct (finish_shape env args (length loaded) s1)
    as (Hst & [[H0 Hfin] | [Hpos Hfin]]).
  - rewrite Hfin. exists (Main.trace s1), []. rewrite app_nil_r. auto.
  - rewrite Hst. exists (Main.trace s1).
    destruct Hfin as [Hfin | Hfin]; rewrite Hfin;
      [ exists [Main.EvWriteRows]
      | exists [Main.EvWriteRows; Main.EvVerifyIntegrity] ];
      (split; [ reflexivity | split; [ exact Htr1 | right ] ]);
      (split; [ auto | exact Hpos ]).
Qed.

(** C5, as the code has it.  In a run, the rewrite of the dataset is
    called at most once, after every call made for the rows, with
    nothing but its check after it, and only when a row was
    downloaded.  The body of the loop changes the rows in memory only
    when it ends in a download for the row, whose reference field it
    then assigns.  And a run that downloads no row leaves the dataset
    file as it found it, when the process has ended, provided the path
    of the dataset is none that the program writes for another
    purpose: not the temporary file of a download, and not the failure
    report, the progress file or the log. *)
Theorem rewrite_once_after_success :
  ∀ (env : Main.Env) (args : Main.Args) (w : Main.W env) (fs : files)
    (file : option ProgressTracker.Data),
    let o := Main.main env args w fs file in
    (∃ before after,
       Main.trace (Main.final o) = before ++ after
       ∧ (Main.EvWriteRows ∉ before)
       ∧ (after = []
          ∨ ((after = [Main.EvWriteRows]
              ∨ after = [Main.EvWriteRows; Main.EvVerifyIntegrity])
             ∧ (0 < Main.downloaded (Main.stats (Main.final o)))%nat)))
    ∧ ((∀ name : str,
          Main.with_suffix env
            (Main.path_join env (Main.output_dir args) name) (lit ".tmp")
          ≠ Main.csv_arg args) →
       Main.csv_arg args ∉ Main.own_files →
       Main.downloaded (Main.stats (Main.final o)) = 0%nat →
       Main.files_at_exit o !! Main.csv_arg args = fs !! Main.csv_arg args)
    ∧ (∀ (i : nat) (s s' : Main.State env),
         Main.process_row env args i s = Ok s' →
         Main.rows s' = Main.rows s
         ∨ (Main.downloaded (Main.stats s')
            = S (Main.downloaded (Main.stats s))
            ∧ ∃ v, Main.rows s'
                   = alter (λ row, csv.set row (Some Main.Gorsel_URL)
                                     (csv.VStr v))
                       (i - 1)%nat (Main.rows s))).
Proof.
  intros env args w fs file o.
  split; [ apply rewrite_trace | ].
  split; [ | apply process_row_rows ].
  intros Htemp Hown Hnone.
  destruct (rewrite_once_in_run env args Htemp w fs file) as (_ & Hsame & _).
  rewrite files_at_exit_other.
  - apply Hsame, Hnone.
  - intros Heq. apply Hown. rewrite Heq. left.
Qed.

Lemma rewrite_once_after_success_witness :
  let args := Examples.args (lit "images") None in
  let fs : files :=
    {[ lit "recipes.csv" := Examples.dataset [(Examples.reel_url, [])] ]} in
  let o := Main.main Examples.offline args () fs None in
  Main.downloaded (Main.stats (Main.final o)) = 0%nat
  ∧ Main.report o = Some [(Examples.reel_url, lit "Thumbnail URL not found")]
  ∧ Main.files_at_exit o !! lit "recipes.csv" = fs !! lit "recipes.csv".
Proof.
  intros args fs o.
  destruct (rewrite_once_after_success Examples.offline args () fs None)
    as (_ & Hsame & _).
  split; [ vm_compute; reflexivity | ].
  split; [ vm_compute; reflexivity | ].
  apply Hsame.
  - apply examples_temp_paths.
  - apply (bool_decide_unpack _). vm_compute. exact I.
  - vm_compute. reflexivity.
Defined.

(** C5 as stated fails when the dataset is at the path of the failure
    report: no row succeeds, the rewrite is not made, and yet the
    dataset is replaced, by the report of the failures. *)
Lemma report_overwrites_dataset :
  let args := {| Main.csv_arg := lit "failed_urls.txt";
                 Main.output_dir := lit "images";
                 Main.dry_run := false;
                 Main.skip_existing := false;
                 Main.no_backup := false;
                 Main.rows_arg := None |} in
  let text := Examples.dataset [(Examples.reel_url, [])] in
  let fs : files := {[ lit "failed_urls.txt" := text ]} in
  let o := Main.main Examples.offline args () fs None in
  Main.exit o = Main.Returned
  ∧ Main.downloaded (Main.stats (Main.final o)) = 0%nat
  ∧ Main.trace (Main.final o)
    = [Main.EvBackup;
       Main.EvFetchThumbnail Examples.reel_url;
       Main.EvMarkFailed (lit "ABC123") (lit "Thumbnail URL not found")]
  ∧ fs !! lit "failed_urls.txt" = Some text
  ∧ Main.files_at_exit o !! lit "failed_urls.txt"
    = Some (Examples.reel_url ++ [9] ++ lit "Thumbnail URL not found" ++ [10])
  ∧ Main.files_at_exit o !! lit "failed_urls.txt"
    ≠ fs !! lit "failed_urls.txt".
Proof.
  intros args text fs o.
  split; [ vm_compute; reflexivity | ].
  split; [ vm_compute; reflexivity | ].
  split; [ vm_compute; reflexivity | ].
  split; [ vm_compute; reflexivity | ].
  split; [ vm_compute; reflexivity | ].
  vm_compute. discriminate.
Qed.

(** ** The reader of [csv], character by character *)

Section ReaderFacts.
Import csv.

Lemma fed_lines_cons (l : str) (lines : list str) :
  fed_lines (l :: lines) = (Ch <$> l) ++ EOL :: fed_lines lines.
Proof. unfold fed_lines; simpl. rewrite <- app_assoc. reflexivity. Qed.

Lemma fed_readlines_from (n : nat) :
  ∀ (t cur : str), (length t ≤ n)%nat →
    fed_lines (readlines_from cur t)
    = (Ch <$> cur) ++ fed_from (Py.truthy cur) t.
Proof.
  induction n as [ | n IH]; intros t cur Hn.
  - destruct t; [ | simpl in Hn; lia ].
    destruct cur; [ reflexivity | ].
    cbn [readlines_from fed_from Py.truthy]. rewrite fed_lines_cons.
    reflexivity.
  - destruct t as [ | c t].
    { destruct cur; [ reflexivity | ].
      cbn [readlines_from fed_from Py.truthy]. rewrite fed_lines_cons.
      reflexivity. }
    cbn [length] in Hn. cbn [readlines_from fed_from].
    destruct (c =? LF).
    { rewrite fed_lines_cons, IH by lia.
      rewrite fmap_app, <- app_assoc. reflexivity. }
    destruct (c =? CR).
    2: { rewrite IH by lia. rewrite fmap_app, <- app_assoc.
         destruct cur; reflexivity. }
    destruct t as [ | c' t].
    { rewrite fed_lines_cons. rewrite fmap_app, <- app_assoc. reflexivity. }
    cbn [length] in Hn. destruct (c' =? LF).
    + rewrite fed_lines_cons, IH by lia.
      rewrite fmap_app, <- app_assoc. reflexivity.
    + rewrite fed_lines_cons, IH by (cbn [length]; lia).
      rewrite fmap_app, <- app_assoc. reflexivity.
Qed.

Lemma fed_readlines (t : str) : fed_lines (readlines t) = fed_from false t.
Proof. apply (fed_readlines_from (length t) t []). reflexivity. Qed.

Lemma run_chars (l : str) (p : parser) (inside : bool) (rest : list input) :
  run p inside ((Ch <$> l) ++ rest)
  = p' ← parse_chars p l; run p' inside rest.
Proof.
  revert p. induction l as [ | c l IH]; intros p; simpl; [ reflexivity | ].
  destruct (parse_process_char p (Ch c)) as [p' | e]; simpl;
    [ apply IH | reflexivity ].
Qed.

Lemma reader_from_run (lines : list str) (p : parser) (inside : bool) :
  reader_from p inside lines = run p inside (fed_lines lines).
Proof.
  revert p inside. induction lines as [ | l lines IH]; intros p inside;
    [ reflexivity | ].
  rewrite fed_lines_cons, run_chars. cbn [reader_from run]. unfold parse_line.
  destruct (parse_chars p l) as [p1 | e]; simpl; [ | reflexivity ].
  destruct (parse_process_char p1 EOL) as [p2 | e]; simpl; [ | reflexivity ].
  destruct (st p2); rewrite ?IH; reflexivity.
Qed.

(** The reader on a text is the single pass over it. *)
Lemma reader_run (t : str) :
  reader (readlines t) = run parse_reset false (fed_from false t).
Proof. unfold reader. rewrite reader_from_run, fed_readlines. reflexivity. Qed.

Abbreviation P s g F := {| st := s; field := g; fields := F |}.

Lemma add_char_ok (s : state) (g : str) (F : list str) (c : N) (f : str) :
  fits (g ++ c :: f) →
  parse_add_char (P s g F) c = Ok (P s (g ++ [c]) F).
Proof.
  unfold fits, parse_add_char. rewrite length_app. cbn [length field].
  intros H. destruct (N.leb_spec field_size_limit (N.of_nat (length g)));
    [ lia | reflexivity ].
Qed.

Lemma fed_from_cr (b : bool) (t : str) :
  head t ≠ Some LF →
  fed_from b (CR :: t) = Ch CR :: EOL :: fed_from false t.
Proof.
  intros H. destruct t as [ | c t]; [ reflexivity | ].
  cbn [fed_from]. change (CR =? LF) with false. change (CR =? CR) with true.
  cbn iota. destruct (N.eqb_spec c LF) as [-> | ]; [ | reflexivity ].
  exfalso. apply H. reflexivity.
Qed.

Lemma fed_from_other (b : bool) (c : N) (t : str) :
  is_newline c = false →
  fed_from b (c :: t) = Ch c :: fed_from true t.
Proof.
  unfold is_newline. intros [H1 H2]%orb_false_elim.
  cbn [fed_from]. rewrite H1, H2. reflexivity.
Qed.

Lemma join_append_data_cons (c : N) (f : str) :
  join_append_data (c :: f)
  = (if c =? quotechar then [quotechar; c] else [c]) ++ join_append_data f.
Proof. reflexivity. Qed.

Lemma head_data (f t : str) :
  head f ≠ Some LF → head (join_append_data f ++ quotechar :: t) ≠ Some LF.
Proof.
  destruct f as [ | c f]; [ discriminate | ].
  rewrite join_append_data_cons. cbn [head].
  destruct (N.eqb_spec c quotechar) as [-> | ]; [ discriminate | ].
  intros H. exact H.
Qed.

(** Inside a quoted field: the doubled quotes and the line breaks of
    the field are read back as the field, up to the closing quote. *)
Lemma run_quoted (n : nat) :
  ∀ (f g : str) (F : list str) (inside b : bool) (t : str),
    (length f ≤ n)%nat →
    fits (g ++ f) →
    ∃ inside',
      run (P IN_QUOTED_FIELD g F) inside
        (fed_from b (join_append_data f ++ quotechar :: t))
      = run (P QUOTE_IN_QUOTED_FIELD (g ++ f) F) inside' (fed_from true t).
Proof.
  induction n as [ | n IH]; intros f g F inside b t Hn Hfit.
  { destruct f; [ | cbn [length] in Hn; lia ].
    exists inside. rewrite app_nil_r. reflexivity. }
  destruct f as [ | c f].
  { exists inside. rewrite app_nil_r. reflexivity. }
  cbn [length] in Hn.
  assert (Hfit' : fits ((g ++ [c]) ++ f)) by (rewrite <- app_assoc; exact Hfit).
  rewrite join_append_data_cons.
  destruct (N.eqb_spec c quotechar) as [-> | Hq].
  { (* a quote, written twice *)
    destruct (IH f (g ++ [quotechar]) F inside true t) as [inside' E];
      [ lia | exact Hfit' | ].
    rewrite <- app_assoc in E; cbn [app] in E.
    exists inside'. rewrite <- E.
    cbn [app]. rewrite !fed_from_other by reflexivity.
    cbn [run]. change (parse_process_char (P IN_QUOTED_FIELD g F) (Ch quotechar))
      with (Ok (E:=Error) (P QUOTE_IN_QUOTED_FIELD g F)).
    cbn [mbind result_bind].
    change (parse_process_char (P QUOTE_IN_QUOTED_FIELD g F) (Ch quotechar))
      with (goto IN_QUOTED_FIELD
              <$> parse_add_char (P QUOTE_IN_QUOTED_FIELD g F) quotechar).
    rewrite (add_char_ok _ _ _ _ f) by exact Hfit. reflexivity. }
  assert (Hstep : parse_process_char (P IN_QUOTED_FIELD g F) (Ch c)
                  = Ok (P IN_QUOTED_FIELD (g ++ [c]) F)).
  { unfold parse_process_char. cbn [st].
    destruct (N.eqb_spec c quotechar); [ contradiction | ].
    apply (add_char_ok _ _ _ _ f), Hfit. }
  cbn [app].
  destruct (N.eqb_spec c LF) as [-> | Hlf].
  { destruct (IH f (g ++ [LF]) F true false t) as [inside' E];
      [ lia | exact Hfit' | ].
    rewrite <- app_assoc in E; cbn [app] in E.
    exists inside'. rewrite <- E.
    cbn [fed_from]. change (LF =? LF) with true. cbn iota.
    cbn [run]. rewrite Hstep. reflexivity. }
  destruct (N.eqb_spec c CR) as [-> | Hcr].
  2: { destruct (IH f (g ++ [c]) F inside true t) as [inside' E];
         [ lia | exact Hfit' | ].
       rewrite <- app_assoc in E; cbn [app] in E.
    exists inside'. rewrite <- E.
       rewrite fed_from_other.
       - cbn [run]. rewrite Hstep. reflexivity.
       - unfold is_newline.
         destruct (N.eqb_spec c LF), (N.eqb_spec c CR);
           try contradiction; reflexivity. }
  (* a carriage return: alone, or the first half of a line ending *)
  destruct f as [ | c' f].
  { exists true. cbn [join_append_data flat_map app].
    rewrite fed_from_cr by discriminate.
    rewrite fed_from_other by reflexivity.
    cbn [run]. rewrite Hstep. reflexivity. }
  destruct (N.eqb_spec c' LF) as [-> | Hlf'].
  - cbn [length] in Hn.
    destruct (IH f (g ++ [CR; LF]) F true false t) as [inside' E]; [ lia | | ].
    { rewrite <- app_assoc. exact Hfit. }
    rewrite <- app_assoc in E; cbn [app] in E.
    exists inside'. rewrite <- E.
    rewrite join_append_data_cons. change (LF =? quotechar) with false.
    cbn iota. cbn [app fed_from].
    change (CR =? LF) with false. change (CR =? CR) with true.
    change (LF =? LF) with true. cbn iota.
    cbn [run]. rewrite Hstep. cbn [mbind result_bind].
    assert (Hstep2 : parse_process_char (P IN_QUOTED_FIELD (g ++ [CR]) F)
                       (Ch LF)
                     = Ok (P IN_QUOTED_FIELD ((g ++ [CR]) ++ [LF]) F)).
    { unfold parse_process_char. cbn [st]. change (LF =? quotechar) with false.
      cbn iota. apply (add_char_ok _ _ _ _ f).
      rewrite <- app_assoc. exact Hfit. }
    rewrite Hstep2. rewrite <- app_assoc. reflexivity.
  - destruct (IH (c' :: f) (g ++ [CR]) F true false t) as [inside' E];
      [ lia | exact Hfit' | ].
    rewrite <- app_assoc in E; cbn [app] in E.
    exists inside'. rewrite <- E.
    rewrite fed_from_cr.
    + cbn [run]. rewrite Hstep. reflexivity.
    + apply head_data. cbn [head]. congruence.
Qed.

Lemma needs_quotes_false (c : N) :
  needs_quotes c = false →
  (c =? delimiter) = false ∧ (c =? quotechar) = false ∧ is_newline c = false.
Proof.
  unfold needs_quotes.
  intros [[H1 H2]%orb_false_elim H3]%orb_false_elim. auto.
Qed.

(** An unquoted field: its characters are read back one by one. *)
Lemma run_plain (f g : str) (F : list str) (inside b : bool) (t : str) :
  existsb needs_quotes f = false →
  fits (g ++ f) →
  run (P IN_FIELD g F) inside (fed_from b (f ++ t))
  = run (P IN_FIELD (g ++ f) F) inside (fed_from (b || Py.truthy f) t).
Proof.
  revert g b. induction f as [ | c f IH]; intros g b Hq Hfit.
  { rewrite app_nil_r, orb_false_r. reflexivity. }
  cbn [existsb] in Hq. apply orb_false_elim in Hq as [Hc Hq].
  apply needs_quotes_false in Hc as (Hd & _ & Hn).
  cbn [app]. rewrite fed_from_other by exact Hn. cbn [run].
  unfold parse_process_char at 1. cbn [st]. rewrite Hn, Hd.
  rewrite (add_char_ok _ _ _ _ f) by exact Hfit. cbn [mbind result_bind].
  rewrite IH; [ | exact Hq | rewrite <- app_assoc; exact Hfit ].
  rewrite <- app_assoc, orb_true_r. reflexivity.
Qed.

Lemma run_quoted_field (f g : str) (F : list str) (inside b : bool) (t : str) :
  fits (g ++ f) →
  ∃ inside',
    run (P IN_QUOTED_FIELD g F) inside
      (fed_from b (join_append_data f ++ quotechar :: t))
    = run (P QUOTE_IN_QUOTED_FIELD (g ++ f) F) inside' (fed_from true t).
Proof. apply (run_quoted (length f)). reflexivity. Qed.

Lemma join_append_plain (f : str) :
  existsb needs_quotes f = false → join_append f = f.
Proof.
  intros H. unfold join_append. rewrite H.
  induction f as [ | c f IH]; [ reflexivity | ].
  cbn [existsb] in H. apply orb_false_elim in H as [Hc H].
  apply needs_quotes_false in Hc as (_ & Hc & _).
  rewrite join_append_data_cons, Hc, IH by exact H. reflexivity.
Qed.

Lemma run_field (s0 : state) (f : str) (F : list str) (inside b : bool)
    (t : str) :
  s0 = START_RECORD ∨ s0 = START_FIELD →
  fits f →
  ∃ inside' b' d,
    run (P s0 [] F) inside (fed_from b (join_append f ++ t))
    = run d inside' (fed_from b' t)
    ∧ field_read s0 f F d.
Proof.
  intros Hs0 Hfit.
  destruct (existsb needs_quotes f) eqn:Hq.
  - (* quoted *)
    unfold join_append. rewrite Hq.
    destruct (run_quoted_field f [] F inside true t Hfit) as [inside' E].
    cbn [app] in E.
    exists inside', true, (P QUOTE_IN_QUOTED_FIELD f F).
    split; [ | split; [ reflexivity | left; split; reflexivity ] ].
    rewrite <- E. rewrite <- !app_assoc. cbn [app].
    rewrite fed_from_other by reflexivity. cbn [run].
    destruct Hs0 as [-> | ->]; reflexivity.
  - rewrite join_append_plain by exact Hq.
    destruct f as [ | c f].
    + exists inside, b, (P s0 [] F).
      split; [ reflexivity | ].
      split; [ reflexivity | right; right; auto ].
    + exists inside, true, (P IN_FIELD (c :: f) F).
      split; [ | split; [ reflexivity | right; left; split; reflexivity ] ].
      cbn [existsb] in Hq. apply orb_false_elim in Hq as [Hc Hq].
      apply needs_quotes_false in Hc as (Hd & Hqc & Hn).
      cbn [app]. rewrite fed_from_other by exact Hn. cbn [run].
      assert (Hstep : parse_process_char (P s0 [] F) (Ch c)
                      = Ok (P IN_FIELD [c] F)).
      { unfold parse_process_char, start_field.
        destruct Hs0 as [-> | ->]; cbn [st goto field fields];
          rewrite ?Hn; cbn [st goto field fields]; rewrite ?Hn, Hqc, Hd;
          change (goto START_FIELD (P START_RECORD [] F))
            with (P START_FIELD [] F);
          rewrite (add_char_ok _ [] _ _ f) by exact Hfit; reflexivity. }
      rewrite Hstep. cbn [mbind result_bind].
      rewrite (run_plain f [c]); [ reflexivity | exact Hq | exact Hfit ].
Qed.

(** The delimiter after a field. *)
Lemma run_delimiter (s0 : state) (f : str) (F : list str) (d : parser)
    (inside b : bool) (t : str) :
  s0 = START_RECORD ∨ s0 = START_FIELD →
  field_read s0 f F d →
  run d inside (fed_from b (delimiter :: t))
  = run (P START_FIELD [] (F ++ [f])) inside (fed_from true t).
Proof.
  intros Hs0 (HF & Hd). destruct d as [s g F']. cbn in HF, Hd. subst F'.
  rewrite fed_from_other by reflexivity. cbn [run].
  destruct Hd as [[-> ->] | [[-> ->] | (-> & -> & ->)]];
    [ reflexivity | reflexivity | ].
  destruct Hs0 as [-> | ->]; reflexivity.
Qed.

(** The line terminator after the last field. *)
Lemma run_lineterminator (s0 : state) (f : str) (F : list str) (d : parser)
    (inside b : bool) (t : str) :
  s0 = START_RECORD ∨ s0 = START_FIELD →
  field_read s0 f F d →
  st d ≠ START_RECORD →
  run d inside (fed_from b (lineterminator ++ t))
  = cons (F ++ [f]) <$> run parse_reset false (fed_from false t).
Proof.
  intros Hs0 (HF & Hd) Hst. destruct d as [s g F'].
  cbn in HF, Hd, Hst. subst F'.
  change (fed_from b (lineterminator ++ t))
    with (Ch CR :: Ch LF :: EOL :: fed_from false t).
  destruct Hd as [[-> ->] | [[-> ->] | (-> & -> & ->)]];
    [ reflexivity | reflexivity | ].
  destruct Hs0 as [-> | ->]; [ contradiction | reflexivity ].
Qed.

Lemma join_cons (f f' : str) (fs : list str) :
  join (f :: f' :: fs) = f ++ delimiter :: join (f' :: fs).
Proof. reflexivity. Qed.

Lemma join_append_nil (f : str) : join_append f = [] → f = [].
Proof.
  unfold join_append. destruct (existsb needs_quotes f); [ discriminate | ].
  destruct f as [ | c f]; [ reflexivity | ].
  rewrite join_append_data_cons. destruct (c =? quotechar); discriminate.
Qed.

(** The fields of a record, from the first to the line terminator. *)
Lemma run_fields (fs : list str) :
  ∀ (s0 : state) (F : list str) (inside b : bool) (t : str),
    fs ≠ [] →
    Forall fits fs →
    s0 = START_FIELD
    ∨ (s0 = START_RECORD ∧ join (join_append <$> fs) ≠ []) →
    run (P s0 [] F) inside
      (fed_from b (join (join_append <$> fs) ++ lineterminator ++ t))
    = cons (F ++ fs) <$> run parse_reset false (fed_from false t).
Proof.
  induction fs as [ | f fs IH]; intros s0 F inside b t Hne Hfit Hs0;
    [ congruence | ].
  apply Forall_cons in Hfit as [Hf Hfit].
  assert (Hs0' : s0 = START_RECORD ∨ s0 = START_FIELD) by tauto.
  destruct fs as [ | f' fs].
  - cbn [fmap list_fmap join].
    destruct (run_field s0 f F inside b (lineterminator ++ t) Hs0' Hf)
      as (inside' & b' & d & E & Hd).
    rewrite E. eapply run_lineterminator; [ exact Hs0' | exact Hd | ].
    destruct Hs0 as [-> | [-> Hj]].
    + destruct Hd as (_ & [[-> _] | [[-> _] | (-> & _)]]); discriminate.
    + cbn [fmap list_fmap join] in Hj.
      destruct Hd as (_ & [[-> _] | [[-> _] | (_ & _ & ->)]]);
        try discriminate.
      exfalso. apply Hj. reflexivity.
  - change (join_append <$> f :: f' :: fs)
      with (join_append f :: join_append f' :: (join_append <$> fs)).
    rewrite join_cons, <- app_assoc. cbn [app].
    destruct (run_field s0 f F inside b
                (delimiter
                 :: join (join_append f' :: (join_append <$> fs))
                    ++ lineterminator ++ t) Hs0' Hf)
      as (inside' & b' & d & E & Hd).
    rewrite E. erewrite run_delimiter; [ | exact Hs0' | exact Hd ].
    change (join_append f' :: (join_append <$> fs))
      with (join_append <$> f' :: fs).
    rewrite IH; [ | discriminate | exact Hfit | left; reflexivity ].
    rewrite <- app_assoc. reflexivity.
Qed.

(** A record that [writerow] wrote is read back, and the reader starts
    afresh behind it. *)
Lemma run_writerow (row : list str) (t : str) :
  row ≠ [] →
  Forall fits row →
  run parse_reset false (fed_from false (writerow row ++ t))
  = cons row <$> run parse_reset false (fed_from false t).
Proof.
  intros Hne Hfit. unfold writerow.
  destruct row as [ | f row]; [ congruence | ].
  destruct (join (join_append <$> f :: row)) as [ | c j] eqn:Ej.
  - assert (f = [] ∧ row = []) as [-> ->].
    { destruct row as [ | f' row].
      - split; [ | reflexivity ]. apply join_append_nil. exact Ej.
      - change (join_append <$> f :: f' :: row)
          with (join_append f :: join_append f' :: (join_append <$> row)) in Ej.
        rewrite join_cons in Ej. destruct (join_append f); discriminate. }
    reflexivity.
  - rewrite <- Ej, <- app_assoc.
    change parse_reset with (P START_RECORD [] []).
    rewrite run_fields;
      [ reflexivity | discriminate | exact Hfit | right; split; congruence ].
Qed.

(** Reading what was written: every record comes back. *)
Lemma reader_writerows (records : list (list str)) :
  Forall (λ row, row ≠ [] ∧ Forall fits row) records →
  reader (readlines (concat (writerow <$> records))) = Ok records.
Proof.
  rewrite reader_run.
  induction 1 as [ | row records [Hne Hfit] _ IH]; [ reflexivity | ].
  cbn [fmap list_fmap concat].
  rewrite run_writerow by assumption.
  change (list_fmap _ _ writerow records) with (writerow <$> records).
  rewrite IH. reflexivity.
Qed.

End ReaderFacts.

(** ** Every field the reader returns is within its limit *)

Section LimitFacts.
Import csv.

Lemma within_goto (s : state) (p : parser) : within p → within (goto s p).
Proof. intros H. exact H. Qed.

Lemma within_save (p : parser) : within p → within (parse_save_field p).
Proof.
  intros [Hf HF]. split; [ unfold fits; cbn; lia | ].
  cbn. apply Forall_app. split; [ exact HF | ].
  constructor; [ exact Hf | constructor ].
Qed.

Lemma within_add (p p' : parser) (c : N) :
  parse_add_char p c = Ok p' → within p → within p'.
Proof.
  unfold parse_add_char.
  destruct (N.leb_spec field_size_limit (N.of_nat (length (field p))));
    [ discriminate | ].
  intros [= <-] [_ HF]. split; [ | exact HF ].
  unfold fits. cbn. rewrite length_app. cbn. lia.
Qed.

Lemma within_add_goto (s : state) (p p' : parser) (c : N) :
  goto s <$> parse_add_char p c = Ok p' → within p → within p'.
Proof.
  destruct (parse_add_char p c) as [p1 | ] eqn:E; [ | discriminate ].
  intros [= <-] H. apply within_goto. eapply within_add; eassumption.
Qed.

Lemma within_start_field (p p' : parser) (c : input) :
  start_field p c = Ok p' → within p → within p'.
Proof.
  unfold start_field. destruct c as [ | c].
  - intros [= <-] H. apply within_goto, within_save, H.
  - destruct (is_newline c);
      [ intros [= <-] H; apply within_goto, within_save, H | ].
    destruct (c =? quotechar); [ intros [= <-] H; apply within_goto, H | ].
    destruct (c =? delimiter); [ intros [= <-] H; apply within_save, H | ].
    apply within_add_goto.
Qed.

Ltac within_case :=
  match goal with
  | |- Ok _ = Ok _ → _ → _ =>
      intros [= <-] H;
      repeat first [ exact H | apply within_save | apply within_goto ]
  | |- Raise _ = Ok _ → _ => discriminate
  | |- start_field _ _ = Ok _ → _ → _ =>
      intros E H; eapply within_start_field; [ exact E | exact H ]
  | |- goto _ <$> parse_add_char _ _ = Ok _ → _ => apply within_add_goto
  | |- parse_add_char _ _ = Ok _ → _ => apply within_add
  end.

Lemma within_process_char (p p' : parser) (c : input) :
  parse_process_char p c = Ok p' → within p → within p'.
Proof.
  unfold parse_process_char.
  destruct (st p), c as [ | c];
    repeat match goal with
           | |- context [ if ?b then _ else _ ] => destruct b
           end;
    within_case.
Qed.

Lemma within_chars (l : str) (p p' : parser) :
  parse_chars p l = Ok p' → within p → within p'.
Proof.
  revert p. induction l as [ | c l IH]; intros p; simpl.
  - intros [= <-] H. exact H.
  - destruct (parse_process_char p (Ch c)) as [p1 | ] eqn:E;
      [ | discriminate ].
    simpl. intros H1 H. eapply IH; [ exact H1 | ].
    eapply within_process_char; eassumption.
Qed.

Lemma within_reset : within parse_reset.
Proof. split; [ unfold fits; cbn; lia | constructor ]. Qed.

Lemma reader_from_fits (lines : list str) :
  ∀ (p : parser) (inside : bool) (records : list (list str)),
    reader_from p inside lines = Ok records →
    within p →
    Forall (Forall fits) records.
Proof.
  induction lines as [ | l lines IH]; intros p inside records; simpl.
  - destruct (inside && _); intros [= <-] H; [ | constructor ].
    constructor; [ | constructor ]. apply within_save, H.
  - unfold parse_line.
    destruct (parse_chars p l) as [p1 | ] eqn:E1; [ | discriminate ].
    simpl.
    destruct (parse_process_char p1 EOL) as [p2 | ] eqn:E2;
      [ | discriminate ].
    simpl. intros Hr H.
    assert (H2 : within p2).
    { eapply within_process_char; [ exact E2 | ].
      eapply within_chars; eassumption. }
    destruct (st p2);
      try (eapply IH; [ exact Hr | exact H2 ]).
    destruct (reader_from parse_reset false lines) as [rs | ] eqn:Er;
      [ | discriminate ].
    injection Hr as <-. constructor; [ apply H2 | ].
    eapply IH; [ exact Er | apply within_reset ].
Qed.

Lemma reader_fits (lines : list str) (records : list (list str)) :
  reader lines = Ok records → Forall (Forall fits) records.
Proof. intros H. eapply reader_from_fits; [ exact H | apply within_reset ]. Qed.

End LimitFacts.

(** ** Rows as dictionaries *)

Section DictFacts.
Import csv.

Lemma keys_set (d : dict) (k : key) (v : value) :
  keys (set d k v)
  = if bool_decide (k ∈ keys d) then keys d else keys d ++ [k].
Proof.
  unfold keys. induction d as [ | [k' v'] d IH]; [ reflexivity | ].
  cbn [set]. destruct (decide (k' = k)) as [-> | Hne].
  - rewrite (bool_decide_eq_true_2 (k = k)) by reflexivity.
    cbn [fmap list_fmap fst].
    rewrite bool_decide_eq_true_2 by apply list_elem_of_here.
    reflexivity.
  - rewrite (bool_decide_eq_false_2 (k' = k)) by exact Hne.
    cbn [fmap list_fmap fst]. fold (fst <$> set d k v). rewrite IH.
    fold (fst <$> d).
    destruct (decide (k ∈ fst <$> d)) as [Hin | Hnin].
    + rewrite (bool_decide_eq_true_2 (k ∈ fst <$> d)) by exact Hin.
      rewrite bool_decide_eq_true_2 by (apply list_elem_of_further, Hin).
      reflexivity.
    + rewrite (bool_decide_eq_false_2 (k ∈ fst <$> d)) by exact Hnin.
      rewrite bool_decide_eq_false_2; [ reflexivity | ].
      intros [? | ?]%elem_of_cons; [ congruence | contradiction ].
Qed.

Lemma get_set (d : dict) (k : key) (v : value) : get (set d k v) k = Some v.
Proof.
  induction d as [ | [k' v'] d IH]; cbn [set get].
  - rewrite bool_decide_eq_true_2 by reflexivity. reflexivity.
  - destruct (decide (k' = k)) as [-> | Hne].
    + rewrite (bool_decide_eq_true_2 (k = k)) by reflexivity. cbn [get].
      rewrite bool_decide_eq_true_2 by reflexivity. reflexivity.
    + rewrite (bool_decide_eq_false_2 (k' = k)) by exact Hne. cbn [get].
      rewrite bool_decide_eq_false_2 by exact Hne. exact IH.
Qed.

Lemma get_set_other (d : csv.dict) (k k' : csv.key) (v : csv.value) :
  k' ≠ k → csv.get (csv.set d k v) k' = csv.get d k'.
Proof.
  intros Hne. induction d as [ | [k0 v0] d IH]; cbn.
  - rewrite bool_decide_eq_false_2 by congruence. reflexivity.
  - destruct (decide (k0 = k)) as [-> | H0].
    + rewrite (bool_decide_eq_true_2 (k = k)) by reflexivity. cbn.
      rewrite !bool_decide_eq_false_2 by congruence. reflexivity.
    + rewrite (bool_decide_eq_false_2 _ H0). cbn. rewrite IH. reflexivity.
Qed.

Lemma get_elem_of (d : dict) (k : key) (v : value) :
  get d k = Some v → (k, v) ∈ d.
Proof.
  induction d as [ | [k' v'] d IH]; cbn [get]; [ discriminate | ].
  destruct (decide (k' = k)) as [-> | Hne].
  - rewrite bool_decide_eq_true_2 by reflexivity.
    intros [= ->]. apply list_elem_of_here.
  - rewrite bool_decide_eq_false_2 by exact Hne.
    intros H. apply list_elem_of_further, IH, H.
Qed.

Lemma set_fresh (d : dict) (k : key) (v : value) :
  k ∉ keys d → set d k v = d ++ [(k, v)].
Proof.
  unfold keys. induction d as [ | [k' v'] d IH]; intros Hk; [ reflexivity | ].
  cbn [set]. cbn in Hk. apply not_elem_of_cons in Hk as [Hne Hk].
  rewrite bool_decide_eq_false_2 by congruence.
  rewrite IH by exact Hk. reflexivity.
Qed.

Lemma foldl_set_NoDup (l acc : dict) :
  NoDup (keys (acc ++ l)) →
  foldl (λ d kv, set d kv.1 kv.2) acc l = acc ++ l.
Proof.
  revert acc. induction l as [ | [k v] l IH]; intros acc Hnd; cbn [foldl].
  - rewrite app_nil_r. reflexivity.
  - cbn [fst snd]. rewrite set_fresh.
    + rewrite IH; rewrite <- app_assoc; [ reflexivity | exact Hnd ].
    + unfold keys in *. rewrite fmap_app in Hnd.
      apply NoDup_app in Hnd as (_ & Hdis & _).
      intros Hin. apply (Hdis _ Hin). apply list_elem_of_here.
Qed.

Lemma of_pairs_NoDup (d : dict) : NoDup (keys d) → of_pairs d = d.
Proof. intros H. apply (foldl_set_NoDup d []). exact H. Qed.

Lemma keys_row_of (ns vs : list str) :
  length vs = length ns → keys (row_of ns vs) = Some <$> ns.
Proof.
  intros H. unfold keys, row_of. apply fst_zip.
  rewrite !length_fmap. lia.
Qed.

Lemma text_row_row_of (r : dict) :
  text_row r → ∃ ns vs, r = row_of ns vs ∧ length vs = length ns.
Proof.
  induction 1 as [ | kv r (k & v & ->) _ (ns & vs & -> & Hl)].
  - exists [], []. split; reflexivity.
  - exists (k :: ns), (v :: vs). split; [ reflexivity | ].
    cbn [length]. rewrite Hl. reflexivity.
Qed.

Lemma row_of_text_row (ns vs : list str) : text_row (row_of ns vs).
Proof.
  revert vs. induction ns as [ | n ns IH]; intros [ | v vs];
    try constructor.
  - exists n, v. reflexivity.
  - apply IH.
Qed.

Lemma NoDup_Some (ns : list str) : NoDup ns → NoDup (Some <$> ns).
Proof. apply NoDup_fmap_2. intros ? ? [= ->]. reflexivity. Qed.

Lemma to_dict_row_of (ns vs : list str) :
  NoDup ns → length vs = length ns → to_dict ns vs = row_of ns vs.
Proof.
  intros Hnd Hl. unfold to_dict. rewrite Hl.
  rewrite Nat.ltb_irrefl.
  apply of_pairs_NoDup. rewrite keys_row_of by exact Hl.
  apply NoDup_Some, Hnd.
Qed.

Lemma get_row_of_cons (n : str) (v : str) (ns vs : list str) (k : str) :
  k ≠ n →
  get (row_of (n :: ns) (v :: vs)) (Some k) = get (row_of ns vs) (Some k).
Proof.
  intros H. unfold row_of. cbn [fmap list_fmap zip zip_with get].
  rewrite bool_decide_eq_false_2 by congruence. reflexivity.
Qed.

Section Texts.
Variable str_of_list : list str → str.

Lemma texts_row_of (ns vs : list str) :
  NoDup ns → length vs = length ns →
  (λ k, field_text str_of_list (default (VStr []) (get (row_of ns vs) k)))
    <$> (Some <$> ns) = vs.
Proof.
  intros Hnd. revert vs. induction Hnd as [ | n ns Hn Hnd IH];
    intros [ | v vs] Hl; try discriminate; [ reflexivity | ].
  cbn [length] in Hl. injection Hl as Hl.
  cbn [fmap list_fmap]. f_equal.
  - unfold row_of. cbn [fmap list_fmap zip zip_with get].
    rewrite bool_decide_eq_true_2 by reflexivity. reflexivity.
  - etransitivity; [ | apply (IH vs Hl) ].
    apply list_fmap_ext. intros i k Hk.
    apply list_elem_of_lookup_2, list_elem_of_fmap in Hk as (k' & -> & Hk).
    rewrite get_row_of_cons; [ reflexivity | ].
    intros ->. exact (Hn Hk).
Qed.

Lemma dict_to_list_row_of (ns vs : list str) :
  NoDup ns → length vs = length ns →
  dict_to_list str_of_list (Some <$> ns) (row_of ns vs) = Some vs.
Proof.
  intros Hnd Hl. unfold dict_to_list.
  rewrite keys_row_of by exact Hl.
  assert (Hall : forallb (λ k, bool_decide (k ∈ Some <$> ns)) (Some <$> ns)
                 = true).
  { apply forallb_forall. intros k Hk%list_elem_of_In.
    apply bool_decide_eq_true. exact Hk. }
  rewrite Hall. f_equal. apply texts_row_of; assumption.
Qed.

Lemma header_row_of (ns : list str) :
  NoDup ns → header (Some <$> ns) = row_of ns ns.
Proof.
  intros Hnd. unfold header. rewrite <- list_fmap_compose.
  change (zip (Some <$> ns) _) with (row_of ns ns).
  apply of_pairs_NoDup. rewrite keys_row_of by reflexivity.
  apply NoDup_Some, Hnd.
Qed.

(** The rows written under the names [ns]: a line each. *)
Lemma writerows_row_of (ns : list str) (vss : list (list str)) :
  NoDup ns →
  Forall (λ vs, length vs = length ns) vss →
  writerows str_of_list (Some <$> ns) (row_of ns <$> vss)
  = (concat (writerow <$> vss), true).
Proof.
  intros Hnd. induction 1 as [ | vs vss Hl _ IH]; [ reflexivity | ].
  cbn [fmap list_fmap writerows].
  rewrite dict_to_list_row_of by assumption.
  change (list_fmap _ _ (row_of ns) vss) with (row_of ns <$> vss).
  rewrite IH. reflexivity.
Qed.

End Texts.

End DictFacts.

(** ** What [DictReader] yields *)

Section LoadedFacts.
Import csv.

Lemma elem_of_set (d : dict) (k k' : key) (v v' : value) :
  (k', v') ∈ set d k v → (k', v') ∈ d ∨ (k', v') = (k, v).
Proof.
  induction d as [ | [k0 v0] d IH]; cbn [set].
  - intros ->%list_elem_of_singleton. right. reflexivity.
  - destruct (bool_decide (k0 = k)).
    + intros [-> | H]%elem_of_cons; [ right; reflexivity | ].
      left. apply list_elem_of_further, H.
    + intros [-> | H]%elem_of_cons; [ left; apply list_elem_of_here | ].
      destruct (IH H) as [H' | H']; [ left | right; exact H' ].
      apply list_elem_of_further, H'.
Qed.

Lemma elem_of_foldl_set (l acc : dict) (k : key) (v : value) :
  (k, v) ∈ foldl (λ d kv, set d kv.1 kv.2) acc l →
  (k, v) ∈ acc ∨ (k, v) ∈ l.
Proof.
  revert acc. induction l as [ | [k0 v0] l IH]; intros acc; cbn [foldl].
  - auto.
  - intros [[H | H]%elem_of_set | H]%IH.
    + left. exact H.
    + right. rewrite H. apply list_elem_of_here.
    + right. apply list_elem_of_further, H.
Qed.

Lemma add_name_elem (acc : list str) (k x : str) :
  x ∈ add_name acc k ↔ x ∈ acc ∨ x = k.
Proof.
  unfold add_name. case_bool_decide as Hk.
  - split; [ auto | intros [H | ->]; assumption ].
  - rewrite elem_of_app, list_elem_of_singleton. reflexivity.
Qed.

Lemma add_name_NoDup (acc : list str) (k : str) :
  NoDup acc → NoDup (add_name acc k).
Proof.
  intros H. unfold add_name. case_bool_decide as Hk; [ exact H | ].
  apply NoDup_app. split; [ exact H | split; [ | apply NoDup_singleton ] ].
  intros x Hx ->%list_elem_of_singleton. exact (Hk Hx).
Qed.

Lemma foldl_add_name (K acc : list str) :
  NoDup acc →
  NoDup (foldl add_name acc K)
  ∧ (∀ x, x ∈ foldl add_name acc K → x ∈ acc ∨ x ∈ K)
  ∧ (length acc ≤ length (foldl add_name acc K))%nat.
Proof.
  revert acc. induction K as [ | k K IH]; intros acc Hnd; cbn [foldl].
  - split; [ exact Hnd | split; [ auto | lia ] ].
  - destruct (IH (add_name acc k) (add_name_NoDup acc k Hnd))
      as (H1 & H2 & H3).
    split; [ exact H1 | split ].
    + intros x [[H | ->]%add_name_elem | H]%H2.
      * left. exact H.
      * right. apply list_elem_of_here.
      * right. apply list_elem_of_further, H.
    + etransitivity; [ | exact H3 ].
      unfold add_name. case_bool_decide; [ lia | ].
      rewrite length_app. lia.
Qed.

Lemma names_NoDup (K : list str) : NoDup (names K).
Proof. apply (foldl_add_name K []). constructor. Qed.

Lemma names_elem (K : list str) (x : str) : x ∈ names K → x ∈ K.
Proof.
  intros H. destruct (foldl_add_name K [] (NoDup_nil_2)) as (_ & H2 & _).
  destruct (H2 x H) as [H' | H']; [ | exact H' ].
  apply elem_of_nil in H'. contradiction.
Qed.

Lemma names_nonempty (K : list str) : K ≠ [] → names K ≠ [].
Proof.
  destruct K as [ | k K]; [ congruence | intros _ ].
  unfold names. cbn [foldl].
  destruct (foldl_add_name K (add_name [] k)) as (_ & _ & H3).
  { apply add_name_NoDup. constructor. }
  intros E. rewrite E in H3. unfold add_name in H3.
  rewrite bool_decide_eq_false_2 in H3 by apply not_elem_of_nil.
  cbn in H3. lia.
Qed.

Lemma keys_foldl_set (K : list str) :
  ∀ (vs : list str) (d : dict) (acc : list str),
    length vs = length K →
    keys d = Some <$> acc →
    keys (foldl (λ d kv, set d kv.1 kv.2) d
            (zip (Some <$> K) (VStr <$> vs)))
    = Some <$> foldl add_name acc K.
Proof.
  induction K as [ | k K IH]; intros [ | v vs] d acc Hl Hd;
    try discriminate; [ exact Hd | ].
  cbn [length] in Hl. injection Hl as Hl.
  cbn [fmap list_fmap zip zip_with foldl fst snd].
  apply IH; [ exact Hl | ].
  rewrite keys_set, Hd. unfold add_name.
  destruct (decide (k ∈ acc)) as [Hin | Hnin].
  - rewrite (bool_decide_eq_true_2 (k ∈ acc)) by exact Hin.
    rewrite bool_decide_eq_true_2; [ reflexivity | ].
    apply list_elem_of_fmap_2, Hin.
  - rewrite (bool_decide_eq_false_2 (k ∈ acc)) by exact Hnin.
    rewrite bool_decide_eq_false_2.
    + rewrite fmap_app. reflexivity.
    + intros (x & [= ->] & Hx)%list_elem_of_fmap. exact (Hnin Hx).
Qed.

Lemma not_text_field_None (v : value) : ¬ text_field (None, v).
Proof. intros (k & s & [=]). Qed.

Lemma not_text_field_VNone (k : key) : ¬ text_field (k, VNone).
Proof. intros (k' & s & [=]). Qed.

(** A row of text fields only comes from a line with as many fields as
    the header. *)
Lemma to_dict_text_length (K rec : list str) :
  text_row (to_dict K rec) → length rec = length K.
Proof.
  unfold to_dict, text_row. rewrite Forall_forall.
  destruct (Nat.ltb_spec (length K) (length rec)) as [Hlong | Hnl].
  { intros H. exfalso.
    eapply not_text_field_None, H, get_elem_of, get_set. }
  destruct (Nat.ltb_spec (length rec) (length K)) as [Hshort | Hns];
    [ | intros _; lia ].
  intros H. exfalso.
  assert (Hd : drop (length rec) K ≠ []).
  { intros E. apply (f_equal length) in E. rewrite length_drop in E.
    cbn in E. lia. }
  destruct (drop (length rec) K) as [ | x l _] using rev_ind;
    [ congruence | ].
  rewrite foldl_app in H. cbn [foldl] in H.
  eapply not_text_field_VNone, H, get_elem_of, get_set.
Qed.

Lemma to_dict_keys (K rec : list str) :
  length rec = length K → keys (to_dict K rec) = Some <$> names K.
Proof.
  intros Hl. unfold to_dict. rewrite Hl, Nat.ltb_irrefl.
  apply (keys_foldl_set K rec [] []); [ exact Hl | reflexivity ].
Qed.

Lemma to_dict_values (K rec : list str) (k : key) (v : str) :
  length rec = length K →
  (k, VStr v) ∈ to_dict K rec → v ∈ rec.
Proof.
  intros Hl. unfold to_dict. rewrite Hl, Nat.ltb_irrefl.
  intros [H | H]%elem_of_foldl_set; [ apply elem_of_nil in H; contradiction | ].
  apply elem_of_zip_r in H.
  apply list_elem_of_fmap in H as (x & [= ->] & Hx). exact Hx.
Qed.

Lemma elem_of_row_of (ns vs : list str) (v : str) :
  length vs = length ns → v ∈ vs → ∃ n, (Some n, VStr v) ∈ row_of ns vs.
Proof.
  revert vs. induction ns as [ | n ns IH]; intros [ | v0 vs] Hl Hv;
    try discriminate.
  - apply elem_of_nil in Hv. contradiction.
  - cbn [length] in Hl. injection Hl as Hl.
    apply elem_of_cons in Hv as [-> | Hv].
    + exists n. apply list_elem_of_here.
    + destruct (IH vs Hl Hv) as [n' H]. exists n'.
      apply list_elem_of_further, H.
Qed.

End LoadedFacts.

(** ** The round trip of the dataset *)

Section RoundTrip.
Import csv CSVHandler.
Variable with_suffix : str → str → str.
Variable str_of_list : list str → str.

Lemma DictReader_row_of (ns : list str) (vss : list (list str)) :
  NoDup ns → ns ≠ [] →
  Forall (λ vs, length vs = length ns) vss →
  DictReader (ns :: vss) = row_of ns <$> vss.
Proof.
  intros Hnd Hne. cbn [DictReader].
  induction 1 as [ | vs vss Hl _ IH]; [ reflexivity | ].
  rewrite filter_cons_True.
  - cbn [fmap list_fmap]. f_equal; [ apply to_dict_row_of; assumption | ].
    exact IH.
  - destruct vs; [ | reflexivity ].
    destruct ns; [ congruence | discriminate ].
Qed.

(** Rows of texts under distinct names, written and read again. *)
Lemma write_read_row_of (self : t) (fs : files) (ns : list str)
    (vss : list (list str)) :
  NoDup ns → ns ≠ [] → Forall fits ns → vss ≠ [] →
  Forall (λ vs, length vs = length ns ∧ Forall fits vs) vss →
  ∃ fs',
    write_rows with_suffix str_of_list self (row_of ns <$> vss) fs
    = (Ok (), fs')
    ∧ read_rows self fs' = Ok (row_of ns <$> vss).
Proof.
  intros Hnd Hne Hns Hvss Hall.
  assert (Hlen : Forall (λ vs, length vs = length ns) vss).
  { eapply Forall_impl; [ exact Hall | ]. intros vs [H _]. exact H. }
  destruct vss as [ | vs0 vss]; [ congruence | ].
  unfold write_rows. cbn [fmap list_fmap].
  change (list_fmap _ _ (row_of ns) vss) with (row_of ns <$> vss).
  assert (Hl0 : length vs0 = length ns) by (inversion Hlen; assumption).
  rewrite keys_row_of by exact Hl0.
  rewrite header_row_of by exact Hnd.
  rewrite dict_to_list_row_of by (exact Hnd || reflexivity).
  change (row_of ns vs0 :: (row_of ns <$> vss))
    with (row_of ns <$> vs0 :: vss).
  rewrite writerows_row_of by assumption.
  unfold move. rewrite lookup_insert_eq.
  eexists. split; [ reflexivity | ].
  unfold read_rows. rewrite lookup_insert_eq.
  change (writerow ns ++ concat (writerow <$> vs0 :: vss))
    with (concat (writerow <$> ns :: vs0 :: vss)).
  rewrite reader_writerows.
  - rewrite DictReader_row_of by assumption. reflexivity.
  - constructor; [ split; assumption | ].
    eapply Forall_impl; [ exact Hall | ].
    intros vs [Hl Hf]. split; [ | exact Hf ].
    destruct vs; [ | discriminate ].
    destruct ns; [ congruence | discriminate ].
Qed.

Lemma Forall2_transfer {A B : Type} (P : A → Prop) (R : A → B → Prop)
    (Q : B → Prop) (l : list A) (k : list B) :
  (∀ a b, P a → R a b → Q b) → Forall P l → Forall2 R l k → Forall Q k.
Proof.
  intros H HP HR. induction HR as [ | a b l k Hab _ IH]; [ constructor | ].
  apply Forall_cons in HP as [Ha HP].
  constructor; [ eapply H; eassumption | apply IH, HP ].
Qed.

Lemma Forall_row_of (ns : list str) (Q : list str → Prop)
    (rows : list dict) :
  Forall (λ r, ∃ vs, r = row_of ns vs ∧ Q vs) rows →
  ∃ vss, rows = row_of ns <$> vss ∧ Forall Q vss.
Proof.
  induction 1 as [ | r rows (vs & -> & Hq) _ (vss & -> & Hall)].
  - exists []. split; [ reflexivity | constructor ].
  - exists (vs :: vss). split; [ reflexivity | constructor; assumption ].
Qed.

(** A row read under the header [K] that holds texts only, after an
    update: it is a row of texts under the names of [K], each within
    the limit. *)
Lemma updated_row_of (K rec : list str) (r' : dict) :
  Forall fits rec →
  text_row (to_dict K rec) →
  updated (to_dict K rec) r' →
  ∃ vs, r' = row_of (names K) vs
        ∧ length vs = length (names K) ∧ Forall fits vs.
Proof.
  intros Hrec Htext (Hkeys & Htext' & Hup).
  apply to_dict_text_length in Htext as Hl.
  apply text_row_row_of in Htext' as (ns & vs & -> & Hlv).
  rewrite keys_row_of, to_dict_keys in Hkeys by assumption.
  apply (inj (fmap Some)) in Hkeys. subst ns.
  exists vs. split; [ reflexivity | split; [ exact Hlv | ] ].
  apply Forall_forall. intros v Hv.
  destruct (elem_of_row_of _ _ _ Hlv Hv) as [n Hn].
  destruct (Hup _ _ Hn) as [Hold | Hfit]; [ | exact Hfit ].
  rewrite Forall_forall in Hrec. eapply Hrec, to_dict_values; eassumption.
Qed.

(** What the run does to a row is an update: the row as it is, and the
    row after [row[k] = v] for a field it has. *)
Lemma updated_refl (r : dict) : text_row r → updated r r.
Proof. intros H. split; [ reflexivity | split; [ exact H | auto ] ]. Qed.

Lemma set_updated (r : dict) (k v : str) :
  text_row r → Some k ∈ keys r → fits v →
  updated r (set r (Some k) (VStr v)).
Proof.
  intros Ht Hk Hv. split; [ | split ].
  - rewrite keys_set, bool_decide_eq_true_2 by exact Hk. reflexivity.
  - apply Forall_forall. intros [k' v'] [H | [= -> ->]]%elem_of_set.
    + unfold text_row in Ht. rewrite Forall_forall in Ht. apply Ht, H.
    + exists k, v. reflexivity.
  - intros k' v' [H | [= -> ->]]%elem_of_set; [ left; exact H | ].
    right. exact Hv.
Qed.

(** A dataset in which every row holds texts only (every line of the
    file had as many fields as the header), and rows in memory that
    are these rows with texts assigned to fields they have: then
    [write_rows] succeeds, and reading the file again gives the rows in
    memory. *)
Lemma rewrite_round_trip_texts :
  ∀ (self : t) (fs : files) (rows rows' : list dict),
    read_rows self fs = Ok rows →
    Forall text_row rows →
    Forall2 updated rows rows' →
    ∃ fs' reloaded,
      write_rows with_suffix str_of_list self rows' fs = (Ok (), fs')
      ∧ read_rows self fs' = Ok reloaded
      ∧ length reloaded = length rows
      ∧ reloaded = rows'
      ∧ ∀ (i : nat) (r r' : dict) (k : key),
          rows !! i = Some r →
          rows' !! i = Some r' →
          get r' k = get r k →
          ∃ r'', reloaded !! i = Some r'' ∧ get r'' k = get r k.
Proof.
  intros self fs rows rows' Hread Htext Hup.
  assert (Hgoal : ∃ fs',
            write_rows with_suffix str_of_list self rows' fs = (Ok (), fs')
            ∧ read_rows self fs' = Ok rows').
  { destruct rows' as [ | r0' rows'].
    { apply Forall2_nil_inv_r in Hup. subst rows.
      exists fs. split; [ reflexivity | exact Hread ]. }
    unfold read_rows in Hread.
    destruct (fs !! csv_path self) as [text | ]; [ | discriminate ].
    destruct (reader (readlines text)) as [records | ] eqn:Er;
      [ | discriminate ].
    injection Hread as <-.
    apply reader_fits in Er.
    destruct records as [ | K recs].
    { apply Forall2_nil_inv_l in Hup. discriminate. }
    apply Forall_cons in Er as [HK Hrecs]. cbn [DictReader] in *.
    assert (Hloaded :
              Forall (λ r, ∃ rec, r = to_dict K rec ∧ rec ≠ []
                                  ∧ Forall fits rec ∧ text_row r)
                (to_dict K <$> filter (λ r, is_blank r = false) recs)).
    { apply Forall_forall. intros r Hr.
      rewrite Forall_forall in Htext. pose proof (Htext r Hr) as Ht.
      apply list_elem_of_fmap in Hr as (rec & -> & Hrec).
      apply list_elem_of_filter in Hrec as [Hnb Hrec].
      exists rec. split; [ reflexivity | ].
      split; [ intros ->; discriminate | ].
      rewrite Forall_forall in Hrecs. split; [ apply Hrecs, Hrec | exact Ht ]. }
    assert (HKne : K ≠ []).
    { clear Htext. revert Hup Hloaded.
      generalize (to_dict K <$> filter (λ r, is_blank r = false) recs).
      intros [ | r rs] Hup Hloaded.
      { apply Forall2_nil_inv_l in Hup. discriminate. }
      apply Forall_cons in Hloaded as [(rec & -> & Hne & _ & Ht) _].
      apply to_dict_text_length in Ht.
      intros ->. destruct rec; [ congruence | discriminate ]. }
    assert (Hrows' : Forall (λ r', ∃ vs, r' = row_of (names K) vs
                                 ∧ (length vs = length (names K)
                                    ∧ Forall fits vs)) (r0' :: rows')).
    { eapply (Forall2_transfer _ updated); [ | exact Hloaded | exact Hup ].
      intros r r' (rec & -> & _ & Hfit & Ht) Hu.
      destruct (updated_row_of K rec r' Hfit Ht Hu) as (vs & ? & ? & ?).
      exists vs. auto. }
    apply Forall_row_of in Hrows' as (vss & Hvss & Hall).
    rewrite Hvss. apply write_read_row_of.
    - apply names_NoDup.
    - apply names_nonempty, HKne.
    - apply Forall_forall. intros n Hn%names_elem.
      rewrite Forall_forall in HK. apply HK, Hn.
    - intros ->. discriminate.
    - exact Hall. }
  destruct Hgoal as (fs' & Hw & Hr).
  exists fs', rows'. split; [ exact Hw | split; [ exact Hr | ] ].
  split; [ symmetry; eapply Forall2_length, Hup | ].
  split; [ reflexivity | ].
  intros i r r' k _ Hr' Hk. exists r'. split; assumption.
Qed.

End RoundTrip.

Lemma example_row_text (link image : str) :
  csv.text_row (Examples.row link image).
Proof. repeat constructor; eexists; eexists; reflexivity. Qed.

Lemma example_row_updated (link image image' : str) :
  csv.fits image' →
  csv.updated (Examples.row link image) (Examples.row link image').
Proof.
  intros Hfit. split; [ reflexivity | split; [ apply example_row_text | ] ].
  intros k v H. unfold Examples.row in H.
  rewrite !elem_of_cons, elem_of_nil in H.
  destruct H as [[= -> ->] | [[= -> ->] | []]].
  - left. apply list_elem_of_here.
  - right. exact Hfit.
Qed.

Lemma rewrite_round_trip_texts_example :
  let self := {| CSVHandler.csv_path := lit "recipes.csv" |} in
  let url2 := lit "https://www.instagram.com/p/B2/" in
  let fs : files :=
    {[ lit "recipes.csv" :=
         Examples.dataset [(Examples.reel_url, []);
                           (url2, lit "images/post_B2.jpg")] ]} in
  let rows := [Examples.row Examples.reel_url [];
               Examples.row url2 (lit "images/post_B2.jpg")] in
  let rows' := [Examples.row Examples.reel_url (lit "images/reel_ABC123.jpg");
                Examples.row url2 (lit "images/post_B2.jpg")] in
  CSVHandler.read_rows self fs = Ok rows
  ∧ ∃ fs',
      CSVHandler.write_rows Examples.with_suffix (λ _, []) self rows' fs
      = (Ok (), fs')
      ∧ CSVHandler.read_rows self fs' = Ok rows'.
Proof.
  intros self url2 fs rows rows'.
  assert (Hread : CSVHandler.read_rows self fs = Ok rows)
    by (vm_compute; reflexivity).
  split; [ exact Hread | ].
  destruct (rewrite_round_trip_texts Examples.with_suffix (λ _, []) self fs rows
              rows' Hread)
    as (fs' & reloaded & Hw & Hr & _ & -> & _).
  - repeat (constructor; [ apply example_row_text | ]). constructor.
  - repeat (constructor;
            [ apply example_row_updated; vm_compute; discriminate | ]).
    constructor.
  - exists fs'. split; assumption.
Qed.

(** C1 as stated fails for a line with fewer fields than the header.
    The field that is missing is loaded as [None]; the rewrite, with no
    field modified, writes it as an empty field, and it is reloaded as
    the empty text. *)
Lemma short_row_not_round_trip :
  let self := {| CSVHandler.csv_path := lit "recipes.csv" |} in
  let fs : files :=
    {[ lit "recipes.csv" := lit "A;B" ++ [13; 10] ++ lit "1" ++ [13; 10] ]} in
  ∃ rows fs' reloaded r r'',
    CSVHandler.read_rows self fs = Ok rows
    ∧ CSVHandler.write_rows Examples.with_suffix (λ _, []) self rows fs
      = (Ok (), fs')
    ∧ CSVHandler.read_rows self fs' = Ok reloaded
    ∧ length reloaded = length rows
    ∧ rows !! 0%nat = Some r
    ∧ reloaded !! 0%nat = Some r''
    ∧ csv.get r (Some (lit "B")) = Some csv.VNone
    ∧ csv.get r'' (Some (lit "B")) = Some (csv.VStr []).
Proof.
  intros self fs.
  exists [[(Some (lit "A"), csv.VStr (lit "1")); (Some (lit "B"), csv.VNone)]].
  eexists. eexists. eexists. eexists.
  split; [ vm_compute; reflexivity | ].
  split; [ vm_compute; reflexivity | ].
  split; [ vm_compute; reflexivity | ].
  repeat split.
Qed.

(** * Further properties of the code *)

(** ** The ledger over a sequence of calls *)

Section LedgerFacts.
Import ProgressTracker.

Lemma run_snoc (p : t) (cs : list call) (c : call) :
  run p (cs ++ [c]) = apply (run p cs) c.
Proof. unfold run. rewrite foldl_app. reflexivity. Qed.

Lemma apply_saved (p : t) (c : call) :
  progress_file (apply p c) = Some (data (apply p c)).
Proof. destruct c; reflexivity. Qed.

(** X1.  Every mutator saves before it returns: after a call, whatever came
    before it, the progress file holds the dictionary in memory, and a
    tracker that a later run loads from the file has the same data and
    gives the same answers. *)
Theorem ledger_reload :
  ∀ (p : t) (cs : list call) (c : call),
    let q := run p (cs ++ [c]) in
    progress_file q = Some (data q)
    ∧ data (init (progress_file q)) = data q
    ∧ ∀ id, is_completed (init (progress_file q)) id = is_completed q id.
Proof.
  intros p cs c q. subst q. rewrite run_snoc.
  assert (H := apply_saved (run p cs) c).
  split; [ exact H | ].
  unfold is_completed, init. rewrite H. cbn [load data].
  split; reflexivity.
Qed.

Lemma mark_completed_ids (p : t) (id : str) :
  completed_ids (data (mark_completed p id))
  = completed_ids (data p)
    ++ (if bool_decide (id ∈ completed_ids (data p)) then [] else [id]).
Proof.
  unfold mark_completed. cbn.
  destruct (bool_decide (id ∈ completed_ids (data p)));
    [ rewrite app_nil_r | ]; reflexivity.
Qed.

(** X2.  The list of completed ids only grows, and at its end: after any
    calls it is the list before them followed by the ids they marked
    completed that were not in it, each once.  In particular a list
    without duplicates stays so. *)
Theorem completed_ids_append_only :
  ∀ (cs : list call) (p : t),
    ∃ new : list str,
      completed_ids (data (run p cs)) = completed_ids (data p) ++ new
      ∧ NoDup new
      ∧ (∀ id, id ∈ new ↔ id ∈ marked cs ∧ id ∉ completed_ids (data p))
      ∧ (NoDup (completed_ids (data p)) →
         NoDup (completed_ids (data (run p cs)))).
Proof.
  assert (Hmain : ∀ (cs : list call) (p : t),
            ∃ new : list str,
              completed_ids (data (run p cs)) = completed_ids (data p) ++ new
              ∧ NoDup new
              ∧ (∀ id, id ∈ new
                       ↔ id ∈ marked cs ∧ id ∉ completed_ids (data p))).
  { induction cs as [ | c cs IH]; intros p.
    { exists []. rewrite app_nil_r. split; [ reflexivity | ].
      split; [ constructor | ]. intros id. cbn.
      rewrite elem_of_nil. tauto. }
    destruct c as [id0 | id0 reason].
    - destruct (IH (mark_completed p id0)) as (new & Heq & Hnd & Hin).
      change (run p (MarkCompleted id0 :: cs))
        with (run (mark_completed p id0) cs).
      rewrite Heq, mark_completed_ids, <- app_assoc.
      eexists. split; [ reflexivity | ].
      change (marked (MarkCompleted id0 :: cs)) with (id0 :: marked cs).
      rewrite mark_completed_ids in Hin.
      destruct (decide (id0 ∈ completed_ids (data p))) as [Hold | Hnew].
      + rewrite (bool_decide_eq_true_2 _ Hold) in *.
        rewrite app_nil_r in Hin. cbn [app].
        split; [ exact Hnd | ]. intros id. rewrite Hin, elem_of_cons.
        split; [ tauto | ].
        intros [[-> | H] Hn]; [ contradiction | tauto ].
      + rewrite (bool_decide_eq_false_2 _ Hnew) in *. cbn [app].
        assert (Hid0 : id0 ∉ new).
        { rewrite Hin, elem_of_app, list_elem_of_singleton. tauto. }
        split; [ constructor; assumption | ].
        intros id. rewrite !elem_of_cons, Hin, elem_of_app,
          list_elem_of_singleton.
        destruct (decide (id = id0)) as [-> | Hne]; tauto.
    - destruct (IH (mark_failed p id0 reason)) as (new & Heq & Hnd & Hin).
      exists new. split; [ exact Heq | split; [ exact Hnd | exact Hin ] ]. }
  intros cs p. destruct (Hmain cs p) as (new & Heq & Hnd & Hin).
  exists new. split; [ exact Heq | split; [ exact Hnd | ] ].
  split; [ exact Hin | ].
  intros Hp. rewrite Heq. apply NoDup_app.
  split; [ exact Hp | split; [ | exact Hnd ] ].
  intros id Hold Hnew. apply Hin in Hnew as [_ Hn]. exact (Hn Hold).
Qed.

Lemma last_cons_nonempty {A : Type} (x y : A) (l : list A) :
  last (x :: y :: l) = last (y :: l).
Proof. reflexivity. Qed.

(** X3.  The reason kept for an id is the last one given.  A reason is never
    taken away: marking the id completed later leaves it in place. *)
Theorem failure_reason_last_wins :
  ∀ (cs : list call) (p : t) (id : str),
    failed_ids (data (run p cs)) !! id
    = match last (reasons id cs) with
      | Some reason => Some reason
      | None => failed_ids (data p) !! id
      end.
Proof.
  induction cs as [ | c cs IH]; intros p id; [ reflexivity | ].
  change (run p (c :: cs)) with (run (apply p c) cs). rewrite IH.
  destruct c as [id0 | id0 reason].
  - reflexivity.
  - destruct (decide (id0 = id)) as [-> | Hne].
    + assert (E : reasons id (MarkFailed id reason :: cs)
                  = reason :: reasons id cs).
      { unfold reasons. cbn [omap list_omap].
        rewrite (bool_decide_eq_true_2 (id = id)) by reflexivity.
        reflexivity. }
      rewrite E. destruct (reasons id cs) as [ | r rs].
      * cbn. apply lookup_insert_eq.
      * rewrite last_cons_nonempty.
        destruct (last (r :: rs)) eqn:El; [ reflexivity | ].
        apply last_None in El. discriminate.
    + assert (E : reasons id (MarkFailed id0 reason :: cs) = reasons id cs).
      { unfold reasons. cbn [omap list_omap].
        rewrite (bool_decide_eq_false_2 _ Hne). reflexivity. }
      rewrite E. destruct (last (reasons id cs)); [ reflexivity | ].
      cbn. apply lookup_insert_ne, Hne.
Qed.

End LedgerFacts.

(** ** Links and their ids *)

Section ScraperFacts.
Import InstagramScraper.

Lemma startswith_app (p s : str) : Py.startswith p (p ++ s) = true.
Proof.
  induction p as [ | a p IH]; [ reflexivity | ].
  cbn. rewrite N.eqb_refl. exact IH.
Qed.

Lemma startswith_eq (p s : str) :
  Py.startswith p s = true → s = p ++ drop (length p) s.
Proof.
  revert s. induction p as [ | a p IH]; intros s H; [ reflexivity | ].
  destruct s as [ | b s]; [ discriminate | ].
  cbn in H. apply andb_prop in H as [Hab H].
  apply N.eqb_eq in Hab as ->. cbn. f_equal. apply IH, H.
Qed.

Lemma after_app (p s : str) : after p (p ++ s) = Some s.
Proof.
  unfold after. rewrite startswith_app, drop_app_length. reflexivity.
Qed.

Lemma after_Some (p s r : str) : after p s = Some r → s = p ++ r.
Proof.
  unfold after. destruct (Py.startswith p s) eqn:E; [ | discriminate ].
  intros [= <-]. apply startswith_eq, E.
Qed.

Lemma not_slash_split (s : str) :
  (47 ∉ not_slash s)
  ∧ ∃ rest, s = not_slash s ++ rest ∧ (rest = [] ∨ head rest = Some 47).
Proof.
  induction s as [ | c s [Hn (rest & Hs & Hrest)]].
  { split; [ apply not_elem_of_nil | ]. exists []. split; [ | left ]; reflexivity. }
  cbn [not_slash]. destruct (c =? 47) eqn:E.
  - apply N.eqb_eq in E as ->.
    split; [ apply not_elem_of_nil | ].
    exists (47 :: s). split; [ reflexivity | right; reflexivity ].
  - apply N.eqb_neq in E. split.
    + rewrite not_elem_of_cons. split; [ congruence | exact Hn ].
    + exists rest. split; [ | exact Hrest ].
      cbn. f_equal. exact Hs.
Qed.

Lemma not_slash_app (id rest : str) :
  47 ∉ id → rest = [] ∨ head rest = Some 47 →
  not_slash (id ++ rest) = id.
Proof.
  intros Hid Hrest. induction id as [ | c id IH].
  - destruct Hrest as [-> | H]; [ reflexivity | ].
    destruct rest as [ | c rest]; [ discriminate | ].
    cbn in H. injection H as ->. reflexivity.
  - apply not_elem_of_cons in Hid as [Hc Hid]. cbn.
    destruct (c =? 47) eqn:E.
    + apply N.eqb_eq in E. congruence.
    + f_equal. apply IH, Hid.
Qed.

Lemma match_here_shape (s g1 g2 : str) :
  match_here s = Some (g1, g2) →
  ∃ t, g1 = segment t ∧ (t = post ↔ g1 = lit "p")
       ∧ g2 ≠ [] ∧ (47 ∉ g2)
       ∧ ∃ rest, s = site ++ segment t ++ lit "/" ++ g2 ++ rest
                 ∧ (rest = [] ∨ head rest = Some 47).
Proof.
  unfold match_here. fold site.
  destruct (after site s) as [r | ] eqn:Es; [ | discriminate ].
  apply after_Some in Es.
  assert (Halt : ∀ t, match after (segment t ++ lit "/") r with
                      | Some r' => (λ id, (segment t, id)) <$> group2 r'
                      | None => None
                      end = Some (g1, g2) →
                 g1 = segment t ∧ g2 ≠ [] ∧ (47 ∉ g2)
                 ∧ ∃ rest, s = site ++ segment t ++ lit "/" ++ g2 ++ rest
                           ∧ (rest = [] ∨ head rest = Some 47)).
  { intros t H.
    destruct (after (segment t ++ lit "/") r) as [r' | ] eqn:Er;
      [ | discriminate ].
    apply after_Some in Er. unfold group2 in H.
    destruct (not_slash_split r') as (Hn & rest & Hr' & Hrest).
    destruct (not_slash r') as [ | c id] eqn:En; [ discriminate | ].
    cbn in H. injection H as <- <-.
    split; [ reflexivity | ]. split; [ discriminate | ].
    split; [ exact Hn | ]. exists rest. split; [ | exact Hrest ].
    rewrite Es, Er, Hr', <- !app_assoc. reflexivity. }
  intros H.
  destruct (match after (lit "p" ++ lit "/") r with
            | Some r' => (λ id, (lit "p", id)) <$> group2 r'
            | None => None
            end) as [m | ] eqn:Ep.
  - injection H as ->. destruct (Halt post Ep) as (Hg & Hrest).
    exists post. split; [ exact Hg | ]. split; [ tauto | exact Hrest ].
  - destruct (Halt reel H) as (Hg & Hrest).
    exists reel. split; [ exact Hg | ].
    split; [ | exact Hrest ]. rewrite Hg. split; discriminate.
Qed.

Lemma search_shape (s g1 g2 : str) :
  search s = Some (g1, g2) →
  ∃ before s', s = before ++ s' ∧ match_here s' = Some (g1, g2).
Proof.
  induction s as [ | c s IH]; cbn [search].
  - destruct (match_here []) eqn:E; [ | discriminate ].
    intros [= ->]. exists [], []. split; [ reflexivity | exact E ].
  - destruct (match_here (c :: s)) eqn:E.
    + intros [= ->]. exists [], (c :: s). split; [ reflexivity | exact E ].
    + intros H. destruct (IH H) as (before & s' & -> & Hm).
      exists (c :: before), s'. split; [ reflexivity | exact Hm ].
Qed.

(** X4.  An id that [parse_instagram_url] returns is not empty and holds
    no slash, and the link reads: anything, the site, [p] or [reel]
    according to the kind returned, a slash, the id, and then the end of
    the link or a slash. *)
Theorem parse_instagram_url_shape :
  ∀ (url : str) (t : url_type) (id : str),
    parse_instagram_url url = Some (t, id) →
    id ≠ [] ∧ (47 ∉ id)
    ∧ ∃ before rest,
        url = before ++ site ++ segment t ++ lit "/" ++ id ++ rest
        ∧ (rest = [] ∨ head rest = Some 47).
Proof.
  intros url t id. unfold parse_instagram_url.
  destruct (search url) as [[g1 g2] | ] eqn:E; [ | discriminate ].
  intros [= <- <-].
  destruct (search_shape _ _ _ E) as (before & s' & -> & Hm).
  destruct (match_here_shape _ _ _ Hm)
    as (t & Hg1 & Hpost & Hne & Hn & rest & -> & Hrest).
  split; [ exact Hne | ]. split; [ exact Hn | ].
  exists before, rest. split; [ | exact Hrest ].
  destruct (decide (g1 = lit "p")) as [Hp | Hp].
  - rewrite (bool_decide_eq_true_2 _ Hp).
    apply Hpost in Hp as ->. reflexivity.
  - rewrite (bool_decide_eq_false_2 _ Hp).
    destruct t; [ exfalso; apply Hp; tauto | reflexivity ].
Qed.

Lemma parse_instagram_url_shape_witness :
  lit "C1" ≠ [] ∧ (47 ∉ lit "C1")
  ∧ ∃ before rest,
      lit "see https://www.instagram.com/reel/C1/?x=1"
      = before ++ site ++ segment reel ++ lit "/" ++ lit "C1" ++ rest
      ∧ (rest = [] ∨ head rest = Some 47).
Proof.
  apply (parse_instagram_url_shape
           (lit "see https://www.instagram.com/reel/C1/?x=1") reel (lit "C1")).
  vm_compute. reflexivity.
Defined.

(** X5.  The link built from the site, a kind, and an id that is not
    empty and holds no slash, followed by nothing or by a slash and
    anything, is parsed back to that kind and that id. *)
Theorem parse_instagram_url_round_trip :
  ∀ (t : url_type) (id rest : str),
    id ≠ [] → 47 ∉ id → rest = [] ∨ head rest = Some 47 →
    parse_instagram_url (site ++ segment t ++ lit "/" ++ id ++ rest)
    = Some (t, id).
Proof.
  intros t id rest Hne Hn Hrest.
  assert (Hm : match_here (site ++ segment t ++ lit "/" ++ id ++ rest)
               = Some (segment t, id)).
  { unfold match_here. fold site. rewrite after_app.
    assert (Hg : group2 (id ++ rest) = Some id).
    { unfold group2. rewrite (not_slash_app _ _ Hn Hrest).
      destruct id; [ contradiction | reflexivity ]. }
    destruct t.
    - change (segment post ++ lit "/" ++ id ++ rest)
        with ((lit "p" ++ lit "/") ++ id ++ rest).
      rewrite after_app, Hg. reflexivity.
    - change (after (lit "p" ++ lit "/")
                (segment reel ++ lit "/" ++ id ++ rest)) with (@None str).
      change (segment reel ++ lit "/" ++ id ++ rest)
        with ((lit "reel" ++ lit "/") ++ id ++ rest).
      rewrite after_app, Hg. reflexivity. }
  unfold parse_instagram_url.
  assert (Hs : search (site ++ segment t ++ lit "/" ++ id ++ rest)
               = Some (segment t, id)).
  { destruct (site ++ segment t ++ lit "/" ++ id ++ rest);
      cbn [search]; rewrite Hm; reflexivity. }
  rewrite Hs. destruct t; reflexivity.
Qed.

Lemma parse_instagram_url_round_trip_witness :
  parse_instagram_url
    (site ++ segment post ++ lit "/" ++ lit "Cabc_1" ++ lit "/?igshid=x")
  = Some (post, lit "Cabc_1").
Proof.
  apply (parse_instagram_url_round_trip post (lit "Cabc_1") (lit "/?igshid=x")).
  - discriminate.
  - apply (bool_decide_unpack _). vm_compute. exact I.
  - right. reflexivity.
Defined.

End ScraperFacts.

(** ** What a download leaves on disk *)

Section DownloadResults.
Import ImageDownloader.
Context {W : Type}.
Variable http_get : str → W → option Response * W.
Variable image_ok : list N → bool.
Variable path_join : str → str → str.
Variable with_suffix : str → str → str.

Abbreviation download' :=
  (download http_get image_ok path_join with_suffix).

(** Whatever the result, a download changes no file but the one at the
    final path and the temporary one beside it. *)
Lemma download_paths (self : t) (url filename : str) (w w' : W)
    (fs fs' : files) (ok : bool) (p : str) :
  download' self url filename w fs = (ok, w', fs') →
  p ≠ path_join (output_dir self) filename →
  p ≠ with_suffix (path_join (output_dir self) filename) (lit ".tmp") →
  fs' !! p = fs !! p.
Proof.
  intros H Hp Ht. unfold download in H.
  destruct (skip_existing self && _); [ congruence | ].
  destruct (http_get url w) as [[response | ] w1]; [ | congruence ].
  destruct (negb (status_ok response)); [ congruence | ].
  destruct (negb (size_accepted response)); [ congruence | ].
  destruct (negb (stream_ok response)).
  { injection H as _ _ <-. rewrite lookup_insert_ne by congruence.
    reflexivity. }
  destruct (negb (verify_image _ _ _)).
  { injection H as _ _ <-.
    rewrite lookup_delete_ne, lookup_insert_ne by congruence. reflexivity. }
  unfold move in H. rewrite lookup_insert_eq in H. injection H as _ _ <-.
  rewrite lookup_insert_ne, lookup_delete_ne, lookup_insert_ne by congruence.
  reflexivity.
Qed.

Lemma download_true_exists (self : t) (url filename : str) (w w' : W)
    (fs fs' : files) :
  download' self url filename w fs = (true, w', fs') →
  is_Some (fs' !! path_join (output_dir self) filename).
Proof.
  intros H. unfold download in H.
  destruct (skip_existing self && _) eqn:Hskip.
  { injection H as _ <-. apply andb_prop in Hskip as [_ He].
    apply bool_decide_eq_true in He. exact He. }
  destruct (http_get url w) as [[response | ] w1]; [ | discriminate ].
  destruct (negb (status_ok response)); [ discriminate | ].
  destruct (negb (size_accepted response)); [ discriminate | ].
  destruct (negb (stream_ok response)); [ discriminate | ].
  destruct (negb (verify_image _ _ _)); [ discriminate | ].
  unfold move in H. rewrite lookup_insert_eq in H. injection H as _ <-.
  rewrite lookup_insert_eq. eauto.
Qed.

(** X6.  When [download] returns [True], either the file was there and
    existing files are skipped, and then no request was made and no file
    changed; or the request was answered with a good status, an accepted
    length and a whole body that the image check accepts, the final
    path holds exactly that body, the temporary file is gone, and no
    other file changed. *)
Theorem download_true :
  ∀ (self : t) (url filename : str) (w w' : W) (fs fs' : files),
    download' self url filename w fs = (true, w', fs') →
    let filepath := path_join (output_dir self) filename in
    let temp_filepath := with_suffix filepath (lit ".tmp") in
    (skip_existing self = true ∧ is_Some (fs !! filepath)
     ∧ w' = w ∧ fs' = fs)
    ∨ (∃ response,
         http_get url w = (Some response, w')
         ∧ status_ok response = true
         ∧ size_accepted response = true
         ∧ stream_ok response = true
         ∧ image_ok (body response) = true
         ∧ fs' !! filepath = Some (body response)
         ∧ (temp_filepath ≠ filepath → fs' !! temp_filepath = None)
         ∧ ∀ p, p ≠ filepath → p ≠ temp_filepath → fs' !! p = fs !! p).
Proof.
  intros self url filename w w' fs fs' H filepath temp_filepath.
  assert (Hpaths := λ p, download_paths _ _ _ _ _ _ _ _ p H).
  unfold download in H. fold filepath in H. fold temp_filepath in H.
  destruct (skip_existing self && _) eqn:Hskip.
  { left. injection H as <- <-. apply andb_prop in Hskip as [Hs He].
    apply bool_decide_eq_true in He. tauto. }
  right.
  destruct (http_get url w) as [[response | ] w1]; [ | discriminate ].
  exists response.
  destruct (status_ok response); [ | discriminate ].
  destruct (size_accepted response); [ | discriminate ].
  destruct (stream_ok response); [ | discriminate ].
  cbn [negb] in H. unfold verify_image in H.
  rewrite lookup_insert_eq in H.
  destruct (image_ok (body response)); [ | discriminate ].
  cbn [negb] in H. unfold move in H. rewrite lookup_insert_eq in H.
  injection H as <- <-.
  repeat (split; [ reflexivity | ]).
  split; [ apply lookup_insert_eq | ].
  split; [ | exact Hpaths ].
  intros Hne. rewrite lookup_insert_ne by congruence. apply lookup_delete_eq.
Qed.

(** X7.  When [download] returns [False], no file but the temporary one
    has changed: nothing is created or altered at the final path.  The
    temporary file itself changes only when the body was cut short,
    which leaves what came, or when the image check refused it, which
    removes the file. *)
Theorem download_false :
  ∀ (self : t) (url filename : str) (w w' : W) (fs fs' : files),
    download' self url filename w fs = (false, w', fs') →
    let temp_filepath :=
      with_suffix (path_join (output_dir self) filename) (lit ".tmp") in
    (∀ p, p ≠ temp_filepath → fs' !! p = fs !! p)
    ∧ (fs' = fs
       ∨ ∃ response,
           http_get url w = (Some response, w')
           ∧ ((stream_ok response = false
               ∧ fs' !! temp_filepath = Some (body response))
              ∨ (image_ok (body response) = false
                 ∧ fs' !! temp_filepath = None))).
Proof.
  intros self url filename w w' fs fs' H temp_filepath.
  unfold download in H. fold temp_filepath in H.
  destruct (skip_existing self && _); [ discriminate | ].
  destruct (http_get url w) as [[response | ] w1];
    [ | injection H as <- <-; split; [ reflexivity | left; reflexivity ] ].
  destruct (negb (status_ok response));
    [ injection H as <- <-; split; [ reflexivity | left; reflexivity ] | ].
  destruct (negb (size_accepted response));
    [ injection H as <- <-; split; [ reflexivity | left; reflexivity ] | ].
  destruct (stream_ok response) eqn:Hstream; cbn [negb] in H.
  - unfold verify_image in H. rewrite lookup_insert_eq in H.
    destruct (image_ok (body response)) eqn:Himg; cbn [negb] in H.
    + unfold move in H. rewrite lookup_insert_eq in H. discriminate.
    + injection H as <- <-. split.
      * intros p Hp.
        rewrite lookup_delete_ne, lookup_insert_ne by congruence.
        reflexivity.
      * right. exists response. split; [ reflexivity | ].
        right. split; [ exact Himg | apply lookup_delete_eq ].
  - injection H as <- <-. split.
    + intros p Hp. rewrite lookup_insert_ne by congruence. reflexivity.
    + right. exists response. split; [ reflexivity | ].
      left. split; [ exact Hstream | apply lookup_insert_eq ].
Qed.

End DownloadResults.

Lemma download_true_witness :
  let self := {| ImageDownloader.output_dir := lit "images";
                 ImageDownloader.skip_existing := false |} in
  ∃ w' fs',
    ImageDownloader.download (λ _ w, (Some Examples.small_image, w))
      (λ _, true) Examples.path_join Examples.with_suffix self
      Examples.cdn_url (lit "reel_ABC123.jpg") () ∅ = (true, w', fs')
    ∧ fs' !! lit "images/reel_ABC123.jpg" = Some [255; 216; 255]
    ∧ fs' !! lit "images/reel_ABC123.tmp" = None.
Proof.
  intros self. exists (), {[ lit "images/reel_ABC123.jpg" := [255; 216; 255] ]}.
  assert (H : ImageDownloader.download (λ _ w, (Some Examples.small_image, w))
                (λ _, true) Examples.path_join Examples.with_suffix self
                Examples.cdn_url (lit "reel_ABC123.jpg") () ∅
              = (true, (), {[ lit "images/reel_ABC123.jpg"
                              := [255; 216; 255] ]})).
  { vm_compute. reflexivity. }
  split; [ exact H | ].
  destruct (download_true _ _ _ _ _ _ _ _ _ _ _ H)
    as [(Hskip & _) | (response & _ & _ & _ & _ & _ & Hfinal & Htemp & _)].
  - discriminate Hskip.
  - split; [ reflexivity | ]. apply Htemp. vm_compute. discriminate.
Defined.

Lemma download_false_witness :
  let self := {| ImageDownloader.output_dir := lit "images";
                 ImageDownloader.skip_existing := false |} in
  let fs : files := {[ lit "images/reel_ABC123.jpg" := [1; 2; 3] ]} in
  ∃ w' fs',
    ImageDownloader.download (λ _ w, (Some Examples.small_image, w))
      (λ _, false) Examples.path_join Examples.with_suffix self
      Examples.cdn_url (lit "reel_ABC123.jpg") () fs = (false, w', fs')
    ∧ fs' !! lit "images/reel_ABC123.jpg" = fs !! lit "images/reel_ABC123.jpg".
Proof.
  intros self fs.
  destruct (ImageDownloader.download (λ _ w, (Some Examples.small_image, w))
              (λ _, false) Examples.path_join Examples.with_suffix self
              Examples.cdn_url (lit "reel_ABC123.jpg") () fs)
    as [[ok w'] fs'] eqn:H.
  assert (Hok : ok = false).
  { apply (f_equal (λ r, r.1.1)) in H. vm_compute in H. congruence. }
  subst ok. exists w', fs'. split; [ reflexivity | ].
  apply (download_false _ _ _ _ _ _ _ _ _ _ _ H). vm_compute. discriminate.
Defined.

(** ** What the resolver returns *)

Section FetchFacts.
Import InstagramScraper.
Context {W : Type}.
Variable oembed : str → W → option str * W.
Variable og_image : str → W → option str * W.

Lemma og_tag_fallback_cases (url : str) (w w' : W) (r : option str) :
  og_tag_fallback og_image url w = (r, w') →
  ∃ r2, og_image url w = (r2, w')
        ∧ match r with
          | Some u => r2 = Some u ∧ Py.truthy u = true
          | None => from_option Py.truthy false r2 = false
          end.
Proof.
  unfold og_tag_fallback.
  destruct (og_image url w) as [[content | ] w2].
  - destruct (Py.truthy content) eqn:E; intros [= <- <-];
      exists (Some content); (split; [ reflexivity | ]);
      [ split; [ reflexivity | exact E ] | exact E ].
  - intros [= <- <-]. exists None. split; reflexivity.
Qed.

(** X8.  [fetch_thumbnail_url] never returns an empty address.  What it
    returns is the answer of the oEmbed endpoint when that is a string
    that is not empty, and then the page is not requested; otherwise it
    is the [og:image] of the page when that is not empty; and it is
    [None] only when both gave nothing. *)
Theorem fetch_thumbnail_url_result :
  ∀ (url : str) (w w' : W) (r : option str),
    fetch_thumbnail_url oembed og_image url w = (r, w') →
    let first := oembed url w in
    match r with
    | Some u =>
        Py.truthy u = true
        ∧ (first = (Some u, w')
           ∨ (from_option Py.truthy false first.1 = false
              ∧ og_image url first.2 = (Some u, w')))
    | None =>
        from_option Py.truthy false first.1 = false
        ∧ ∃ r2, og_image url first.2 = (r2, w')
                ∧ from_option Py.truthy false r2 = false
    end.
Proof.
  intros url w w' r H first. subst first. unfold fetch_thumbnail_url in H.
  destruct (oembed url w) as [[u1 | ] w1]; cbn [fst snd from_option].
  - destruct (Py.truthy u1) eqn:E.
    + injection H as <- <-. split; [ exact E | left; reflexivity ].
    + apply og_tag_fallback_cases in H as (r2 & Hog & Hr).
      destruct r as [u | ].
      * destruct Hr as [-> Hu]. split; [ exact Hu | ].
        right. split; [ reflexivity | exact Hog ].
      * split; [ reflexivity | ]. exists r2. split; assumption.
  - apply og_tag_fallback_cases in H as (r2 & Hog & Hr).
    destruct r as [u | ].
    + destruct Hr as [-> Hu]. split; [ exact Hu | ].
      right. split; [ reflexivity | exact Hog ].
    + split; [ reflexivity | ]. exists r2. split; assumption.
Qed.

Lemma fetch_thumbnail_url_truthy (url : str) (w w' : W) (u : str) :
  fetch_thumbnail_url oembed og_image url w = (Some u, w') →
  Py.truthy u = true.
Proof.
  unfold fetch_thumbnail_url, og_tag_fallback.
  repeat case_match; congruence.
Qed.

End FetchFacts.

Lemma fetch_thumbnail_url_result_witness :
  InstagramScraper.fetch_thumbnail_url
    (λ _ (w : nat), (Some [], S w)) (λ _ w, (Some Examples.cdn_url, S w))
    Examples.reel_url 0%nat
  = (Some Examples.cdn_url, 2%nat)
  ∧ Py.truthy Examples.cdn_url = true.
Proof.
  assert (H : InstagramScraper.fetch_thumbnail_url
                (λ _ (w : nat), (Some [], S w))
                (λ _ w, (Some Examples.cdn_url, S w))
                Examples.reel_url 0%nat
              = (Some Examples.cdn_url, 2%nat)) by reflexivity.
  split; [ exact H | ].
  exact (proj1 (fetch_thumbnail_url_result _ _ _ _ _ _ H)).
Defined.

(** ** The counters of a run *)

Section CountFacts.
Import Main.
Variable env : Env.
Variable args : Args.

Ltac frames :=
  repeat match goal with
  | H : fetch_thumbnail_url _ _ _ = _ |- _ =>
      apply fetch_thumbnail_url_frame in H as (? & ? & ? & ? & ? & ?)
  | H : download _ _ _ _ _ = _ |- _ =>
      apply download_frame in H as (? & ? & ? & ? & ? & ?)
  end.

Lemma process_row_balanced (i : nat) (s s' : State env) :
  process_row env args i s = Ok s' →
  balanced s →
  balanced s' ∧ total (stats s') = S (total (stats s)).
Proof.
  intros H [Htotal Hfailed]. apply process_row_ending in H.
  unfold balanced.
  destruct H as [ | url Hl Hp | url t id s' Hl Hp Hc He ].
  - cbn. lia.
  - cbn. rewrite length_app. cbn. lia.
  - destruct He; frames; cbn; rewrite ?length_app; cbn;
      repeat match goal with
      | H : stats _ = _ |- _ => rewrite H
      | H : failed_urls _ = _ |- _ => rewrite H
      end; cbn; lia.
Qed.

Lemma process_rows_balanced (l : list nat) :
  ∀ (s s' : State env),
    process_rows env args l s = (s', None) →
    balanced s →
    balanced s' ∧ total (stats s') = (total (stats s) + length l)%nat.
Proof.
  induction l as [ | i l IH]; intros s s' H Hb; cbn [process_rows] in H.
  - injection H as <-. split; [ exact Hb | cbn; lia ].
  - destruct (process_row env args i s) as [s1 | e] eqn:E; [ | discriminate ].
    destruct (process_row_balanced _ _ _ E Hb) as [Hb1 Ht1].
    destruct (IH _ _ H Hb1) as [Hb' Ht']. split; [ exact Hb' | ].
    rewrite Ht', Ht1. cbn [length]. lia.
Qed.

Lemma finish_keeps (n : nat) (s : State env) :
  let o := finish env args n s in
  stats (final o) = stats s ∧ failed_urls (final o) = failed_urls s.
Proof.
  unfold finish, update_csv.
  destruct (0 <? downloaded (stats s))%nat; [ | split; reflexivity ].
  destruct (CSVHandler.write_rows _ _ _ _ _) as [[[] | e] fs];
    [ | split; reflexivity ].
  cbn. destruct (CSVHandler.verify_integrity _ _ _); split; reflexivity.
Qed.

(** X9.  Unless an exception ends the run with a traceback, the counts
    of the summary add up: the total is the sum of the rows downloaded,
    skipped and failed, and the failed count is the number of entries
    of the failure list.  When the run gets past the loop, the total is
    the number of rows selected. *)
Theorem summary_counts_add_up :
  ∀ (w : W env) (fs : files) (file : option ProgressTracker.Data),
    let o := main env args w fs file in
    (∀ e, exit o ≠ Uncaught e) →
    balanced (final o)
    ∧ (dry_run args = false →
       ∀ loaded indices,
         CSVHandler.read_rows (csv_handler args) fs = Ok loaded →
         row_indices args = Ok indices →
         total (stats (final o))
         = length (rows_to_process indices (length loaded))).
Proof.
  intros w fs file o Hexit. subst o. unfold main in *.
  assert (Hzero : ∀ (s : State env),
            stats s = zero → failed_urls s = [] → balanced s).
  { intros s Hs Hu. unfold balanced. rewrite Hs, Hu. split; reflexivity. }
  destruct (CSVHandler.read_rows (csv_handler args) fs) as [loaded | e].
  2: { split; [ apply Hzero; reflexivity | ]. intros _ ? ? [=]. }
  destruct (row_indices args) as [indices | e].
  2: { exfalso. exact (Hexit e eq_refl). }
  cbn [progress] in *.
  destruct (if negb (no_backup args) && negb (dry_run args)
            then _ else _) as [s1 | e] eqn:Eb.
  2: { exfalso. exact (Hexit e eq_refl). }
  assert (Hs1 : stats s1 = zero ∧ failed_urls s1 = []).
  { destruct (negb (no_backup args) && negb (dry_run args)).
    - destruct (CSVHandler.backup _ _ _) as [r | e]; [ | discriminate ].
      injection Eb as <-. split; reflexivity.
    - injection Eb as <-. split; reflexivity. }
  destruct Hs1 as [Hst1 Hu1].
  destruct (dry_run args).
  { split; [ | discriminate ].
    destruct (dry_run_preview loaded); apply Hzero; assumption. }
  destruct (process_rows env args (rows_to_process indices (length loaded)) s1)
    as [s2 [e | ]] eqn:El.
  { exfalso. exact (Hexit e eq_refl). }
  destruct (process_rows_balanced _ _ _ El (Hzero _ Hst1 Hu1)) as [Hb Ht].
  destruct (finish_keeps (length loaded) s2) as [Hfs Hfu].
  split.
  - unfold balanced. rewrite Hfs, Hfu. exact Hb.
  - intros _ loaded' indices' [= <-] [= <-].
    rewrite Hfs, Ht, Hst1. reflexivity.
Qed.

End CountFacts.

Lemma summary_counts_add_up_witness :
  let env := Examples.env (Some Examples.cdn_url) None
               (Some Examples.small_image) in
  let args := Examples.args (lit "images") None in
  let fs : files :=
    {[ lit "recipes.csv"
       := Examples.dataset [(Examples.reel_url, []); (lit "no link", [])] ]} in
  let o := Main.main env args () fs None in
  Main.balanced (Main.final o)
  ∧ Main.total (Main.stats (Main.final o)) = 2%nat.
Proof.
  intros env args fs o.
  assert (Hexit : ∀ e, Main.exit o ≠ Main.Uncaught e).
  { intros e. vm_compute. discriminate. }
  destruct (summary_counts_add_up env args () fs None Hexit) as [Hb Ht].
  split; [ exact Hb | ].
  etransitivity;
    [ eapply Ht; [ reflexivity | vm_compute; reflexivity | reflexivity ] | ].
  vm_compute. reflexivity.
Defined.

(** ** Resuming: what is completed is not done again *)

Section ResumeFacts.
Import Main.
Variable env : Env.
Variable args : Args.

Ltac frames :=
  repeat match goal with
  | H : fetch_thumbnail_url _ _ _ = _ |- _ =>
      apply fetch_thumbnail_url_frame in H as (? & ? & ? & ? & ? & ?)
  | H : download _ _ _ _ _ = _ |- _ =>
      apply download_frame in H as (? & ? & ? & ? & ? & ?)
  end.

Lemma is_completed_marked (p : ProgressTracker.t) (id id' : str) :
  ProgressTracker.is_completed (ProgressTracker.mark_completed p id) id'
  = ProgressTracker.is_completed p id' || bool_decide (id' = id).
Proof.
  unfold ProgressTracker.is_completed, ProgressTracker.mark_completed.
  cbn. apply Bool.eq_iff_eq_true.
  rewrite Bool.orb_true_iff, !bool_decide_eq_true.
  destruct (decide (id ∈ ProgressTracker.completed_ids
                           (ProgressTracker.data p))) as [Hin | Hout].
  - rewrite (bool_decide_eq_true_2 _ Hin).
    split; [ tauto | ]. intros [H | ->]; assumption.
  - rewrite (bool_decide_eq_false_2 _ Hout).
    rewrite elem_of_app, list_elem_of_singleton. tauto.
Qed.

Lemma marks_nil (s s' : State env) :
  trace s' = trace s → progress s' = progress s → marks s s' [].
Proof.
  intros Ht Hp. unfold marks. rewrite Ht, Hp, app_nil_r. cbn.
  split; [ reflexivity | ].
  split; [ intros url H; inversion H | ].
  split; [ constructor | ].
  split; [ intros id H; inversion H | ].
  intros id. rewrite bool_decide_eq_false_2 by apply not_elem_of_nil.
  rewrite Bool.orb_false_r. reflexivity.
Qed.

(** The calls of one row: none, with the world and the files as they
    were, or a call of the resolver for an id not completed, followed
    by the mark of a failure or by a download to the file of this id
    and a mark. *)
Lemma process_row_calls (i : nat) (s s' : State env) :
  process_row env args i s = Ok s' →
  ∃ evs,
    marks s s' evs
    ∧ ((evs = [] ∧ world s' = world s ∧ disk s' = disk s)
       ∨ ∃ url t id,
           InstagramScraper.parse_instagram_url url = Some (t, id)
           ∧ ProgressTracker.is_completed (progress s) id = false
           ∧ ∃ tail,
               evs = EvFetchThumbnail url :: tail
               ∧ ((∃ reason, tail = [EvMarkFailed id reason])
                  ∨ ∃ u mark,
                      tail = [EvDownload u (filename_of t id); mark]
                      ∧ ((∃ reason, mark = EvMarkFailed id reason)
                         ∨ mark = EvMarkCompleted id))).
Proof.
  intros H. apply process_row_ending in H.
  destruct H as [ | url Hl Hp | url t id s' Hl Hp Hc He ].
  - exists []. split; [ apply marks_nil; reflexivity | ]. left. auto.
  - exists []. split; [ apply marks_nil; reflexivity | ]. left. auto.
  - assert (Hurl : ∀ url', url' ∈ [url] →
              ∃ t id, InstagramScraper.parse_instagram_url url' = Some (t, id)
                      ∧ ProgressTracker.is_completed (progress s) id = false).
    { intros url' ->%list_elem_of_singleton. exists t, id. tauto. }
    destruct He as [r s1 Hf Hr | r s1 u s2 Hf Hr Hd | r s1 u s2 Hf Hr Hd];
      frames.
    + exists [EvFetchThumbnail url; EvMarkFailed id (error_msg r)].
      split.
      2: { right. exists url, t, id. split; [ exact Hp | ].
           split; [ exact Hc | ]. eexists. split; [ reflexivity | ].
           left. eexists. reflexivity. }
      unfold marks. cbn -[lit].
      repeat match goal with
             | H : trace _ = _ |- _ => rewrite H
             | H : progress _ = _ |- _ => rewrite H
             end.
      cbn -[lit]. rewrite <- app_assoc.
      split; [ reflexivity | ]. split; [ exact Hurl | ].
      split; [ constructor | ]. split; [ intros id' H'; inversion H' | ].
      intros id'. rewrite bool_decide_eq_false_2 by apply not_elem_of_nil.
      rewrite Bool.orb_false_r. reflexivity.
    + exists [EvFetchThumbnail url; EvDownload u (filename_of t id);
              EvMarkFailed id (lit "Download failed")].
      split.
      2: { right. exists url, t, id. split; [ exact Hp | ].
           split; [ exact Hc | ]. eexists. split; [ reflexivity | ].
           right. eexists. eexists. split; [ reflexivity | ].
           left. eexists. reflexivity. }
      unfold marks. cbn -[lit].
      repeat match goal with
             | H : trace _ = _ |- _ => rewrite H
             | H : progress _ = _ |- _ => rewrite H
             end.
      cbn -[lit]. rewrite <- !app_assoc.
      split; [ reflexivity | ]. split; [ exact Hurl | ].
      split; [ constructor | ]. split; [ intros id' H'; inversion H' | ].
      intros id'. rewrite bool_decide_eq_false_2 by apply not_elem_of_nil.
      rewrite Bool.orb_false_r. reflexivity.
    + exists [EvFetchThumbnail url; EvDownload u (filename_of t id);
              EvMarkCompleted id].
      split.
      2: { right. exists url, t, id. split; [ exact Hp | ].
           split; [ exact Hc | ]. eexists. split; [ reflexivity | ].
           right. eexists. eexists. split; [ reflexivity | ].
           right. reflexivity. }
      unfold marks. cbn -[lit ProgressTracker.mark_completed].
      repeat match goal with
             | H : trace _ = _ |- _ => rewrite H
             | H : progress _ = _ |- _ => rewrite H
             end.
      cbn -[lit ProgressTracker.mark_completed]. rewrite <- !app_assoc.
      split; [ reflexivity | ]. split; [ exact Hurl | ].
      split; [ apply NoDup_singleton | ].
      split; [ intros id' ->%list_elem_of_singleton; exact Hc | ].
      intros id'. rewrite is_completed_marked. f_equal.
      apply bool_decide_ext. rewrite list_elem_of_singleton. reflexivity.
Qed.

Lemma process_row_marks (i : nat) (s s' : State env) :
  process_row env args i s = Ok s' → ∃ evs, marks s s' evs.
Proof.
  intros (evs & H & _)%process_row_calls. exists evs. exact H.
Qed.

Lemma completions_app (a b : list Event) :
  completions (a ++ b) = completions a ++ completions b.
Proof. apply omap_app. Qed.

Lemma resolved_app (a b : list Event) :
  resolved (a ++ b) = resolved a ++ resolved b.
Proof. apply omap_app. Qed.

Lemma marks_trans (s1 s2 s3 : State env) (a b : list Event) :
  marks s1 s2 a → marks s2 s3 b → marks s1 s3 (a ++ b).
Proof.
  intros (Ht1 & Hr1 & Hn1 & Hc1 & Hp1) (Ht2 & Hr2 & Hn2 & Hc2 & Hp2).
  assert (Hback : ∀ id, ProgressTracker.is_completed (progress s2) id = false →
                        ProgressTracker.is_completed (progress s1) id = false
                        ∧ id ∉ completions a).
  { intros id H. rewrite Hp1 in H. apply Bool.orb_false_iff in H as [H1 H2].
    split; [ exact H1 | ]. apply bool_decide_eq_false in H2. exact H2. }
  unfold marks. rewrite Ht2, Ht1, <- app_assoc, completions_app, resolved_app.
  split; [ reflexivity | ].
  split.
  { intros url [H | H]%elem_of_app; [ apply Hr1, H | ].
    destruct (Hr2 url H) as (t & id & Hparse & Hc).
    exists t, id. split; [ exact Hparse | apply Hback, Hc ]. }
  split.
  { apply NoDup_app. split; [ exact Hn1 | split; [ | exact Hn2 ] ].
    intros id Ha Hb. apply Hc2, Hback in Hb as [_ Hb]. exact (Hb Ha). }
  split.
  { intros id [H | H]%elem_of_app; [ apply Hc1, H | ].
    apply Hback, Hc2, H. }
  intros id. rewrite Hp2, Hp1, <- Bool.orb_assoc. f_equal.
  apply Bool.eq_iff_eq_true.
  rewrite Bool.orb_true_iff, !bool_decide_eq_true, elem_of_app. reflexivity.
Qed.

Lemma process_rows_marks (l : list nat) :
  ∀ (s s' : State env) (crash : option exn),
    process_rows env args l s = (s', crash) → ∃ evs, marks s s' evs.
Proof.
  induction l as [ | i l IH]; intros s s' crash H; cbn [process_rows] in H.
  - injection H as <- _. exists []. apply marks_nil; reflexivity.
  - destruct (process_row env args i s) as [s1 | e] eqn:E.
    + destruct (process_row_marks _ _ _ E) as (a & Ha).
      destruct (IH _ _ _ H) as (b & Hb).
      exists (a ++ b). exact (marks_trans _ _ _ _ _ Ha Hb).
    + injection H as <- _. exists []. apply marks_nil; reflexivity.
Qed.

(** X10.  In one pass over the rows no id is marked completed twice,
    and none that the ledger had as completed when the pass began: the
    ids marked are new, each is marked once, and at the end the ledger
    has them all. *)
Theorem completed_at_most_once :
  ∀ (l : list nat) (s : State env),
    let s' := (process_rows env args l s).1 in
    ∃ evs,
      trace s' = trace s ++ evs
      ∧ NoDup (completions evs)
      ∧ ∀ id, id ∈ completions evs →
          ProgressTracker.is_completed (progress s) id = false
          ∧ ProgressTracker.is_completed (progress s') id = true.
Proof.
  intros l s s'. subst s'.
  destruct (process_rows env args l s) as [s' crash] eqn:H. cbn [fst].
  destruct (process_rows_marks _ _ _ _ H) as (evs & Ht & _ & Hn & Hc & Hp).
  exists evs. split; [ exact Ht | ]. split; [ exact Hn | ].
  intros id Hid. split; [ apply Hc, Hid | ].
  rewrite Hp, (bool_decide_eq_true_2 _ Hid). apply Bool.orb_true_r.
Qed.

Lemma fresh_requests_nil (p : ProgressTracker.t) : fresh_requests p [].
Proof. intros n ev H. rewrite lookup_nil in H. discriminate. Qed.

Lemma fresh_requests_row (p : ProgressTracker.t) (url : str)
    (t : InstagramScraper.url_type) (id : str) (tail : list Event) :
  InstagramScraper.parse_instagram_url url = Some (t, id) →
  ProgressTracker.is_completed p id = false →
  (∃ reason, tail = [EvMarkFailed id reason])
  ∨ (∃ u mark,
       tail = [EvDownload u (filename_of t id); mark]
       ∧ ((∃ reason, mark = EvMarkFailed id reason)
          ∨ mark = EvMarkCompleted id)) →
  fresh_requests p (EvFetchThumbnail url :: tail).
Proof.
  intros Hp Hc Htail n ev Hn.
  destruct n as [ | n]; cbn in Hn.
  { injection Hn as <-. exists t, id. cbn.
    split; [ exact Hp | ]. split; [ exact Hc | apply not_elem_of_nil ]. }
  destruct Htail as [[reason ->] | (u & mark & -> & Hmark)].
  - destruct n as [ | n]; cbn in Hn; [ | discriminate ].
    injection Hn as <-. exact I.
  - destruct n as [ | [ | n]]; cbn in Hn; [ | | discriminate ].
    + injection Hn as <-. exists t, id. cbn.
      split; [ reflexivity | ]. split; [ exact Hc | apply not_elem_of_nil ].
    + injection Hn as <-.
      destruct Hmark as [[reason ->] | ->]; exact I.
Qed.

Lemma fresh_requests_app (s1 s2 : State env) (a b : list Event) :
  marks s1 s2 a →
  fresh_requests (progress s1) a →
  fresh_requests (progress s2) b →
  fresh_requests (progress s1) (a ++ b).
Proof.
  intros (_ & _ & _ & _ & Hp) Ha Hb n ev Hn.
  assert (Hback : ∀ id k,
            ProgressTracker.is_completed (progress s2) id = false →
            id ∉ completions (take k b) →
            ProgressTracker.is_completed (progress s1) id = false
            ∧ id ∉ completions (a ++ take k b)).
  { intros id k H Hk. rewrite Hp in H.
    apply Bool.orb_false_iff in H as [H1 H2].
    split; [ exact H1 | ]. apply bool_decide_eq_false in H2.
    rewrite completions_app, elem_of_app. tauto. }
  destruct (decide (n < length a)%nat) as [Hlt | Hge].
  - rewrite lookup_app_l in Hn by exact Hlt.
    rewrite take_app_le by lia. apply Ha, Hn.
  - rewrite lookup_app_r in Hn by lia.
    rewrite take_app_ge by lia.
    specialize (Hb _ _ Hn).
    destruct ev; try exact I; destruct Hb as (t & id & H1 & H2 & H3);
      exists t, id; (split; [ exact H1 | ]); apply Hback; assumption.
Qed.

(** The calls of a pass over the rows. *)
Lemma process_rows_requests (l : list nat) :
  ∀ (s s' : State env) (crash : option exn),
    process_rows env args l s = (s', crash) →
    ∃ evs,
      marks s s' evs
      ∧ fresh_requests (progress s) evs
      ∧ ((∀ url, EvFetchThumbnail url ∉ evs) →
         world s' = world s ∧ disk s' = disk s).
Proof.
  induction l as [ | i l IH]; intros s s' crash H; cbn [process_rows] in H.
  - injection H as <- _. exists [].
    split; [ apply marks_nil; reflexivity | ].
    split; [ apply fresh_requests_nil | auto ].
  - destruct (process_row env args i s) as [s1 | e] eqn:E.
    + destruct (process_row_calls _ _ _ E) as (a & Ha & Hrow).
      destruct (IH _ _ _ H) as (b & Hb & Hfb & Hwb).
      exists (a ++ b). split; [ exact (marks_trans _ _ _ _ _ Ha Hb) | ].
      destruct Hrow as [(-> & Hw & Hd) | (url & t & id & Hp & Hc & tail
                                          & -> & Htail)].
      * split.
        -- apply (fresh_requests_app s s1); [ exact Ha | | exact Hfb ].
           apply fresh_requests_nil.
        -- intros Hno. destruct (Hwb Hno) as [-> ->]. auto.
      * split.
        -- apply (fresh_requests_app s s1); [ exact Ha | | exact Hfb ].
           apply (fresh_requests_row _ url t id); assumption.
        -- intros Hno. exfalso. apply (Hno url). left.
    + injection H as <- _. exists [].
      split; [ apply marks_nil; reflexivity | ].
      split; [ apply fresh_requests_nil | auto ].
Qed.

(** X11.  What is completed is not requested again.  A row whose link
    parses to an id the ledger has as completed is counted as skipped
    and nothing else happens: no call, and the world, the files, the
    ledger, the rows and the failure list are as they were.  In a pass
    over the rows, every call of the resolver is for a link that parses
    to an id which was not completed when the pass began and which the
    pass has not marked completed before the call; every download is
    to the file of such an id; and a pass without a call of the
    resolver leaves the world and the files as they were. *)
Theorem completed_ids_are_not_resolved :
  (∀ (i : nat) (s : State env) (url current : str)
     (t : InstagramScraper.url_type) (id : str),
     let row := default [] (rows s !! (i - 1)%nat) in
     get_stripped row Link = Ok url →
     get_stripped row Gorsel_URL = Ok current →
     InstagramScraper.parse_instagram_url url = Some (t, id) →
     ProgressTracker.is_completed (progress s) id = true →
     ∃ s',
       process_row env args i s = Ok s'
       ∧ trace s' = trace s ∧ world s' = world s ∧ disk s' = disk s
       ∧ progress s' = progress s ∧ rows s' = rows s
       ∧ failed_urls s' = failed_urls s
       ∧ skipped (stats s') = S (skipped (stats s))
       ∧ downloaded (stats s') = downloaded (stats s)
       ∧ failed (stats s') = failed (stats s))
  ∧ ∀ (l : list nat) (s : State env),
      let s' := (process_rows env args l s).1 in
      ∃ evs,
        trace s' = trace s ++ evs
        ∧ (∀ before url after,
             evs = before ++ EvFetchThumbnail url :: after →
             ∃ t id,
               InstagramScraper.parse_instagram_url url = Some (t, id)
               ∧ ProgressTracker.is_completed (progress s) id = false
               ∧ id ∉ completions before)
        ∧ (∀ before u filename after,
             evs = before ++ EvDownload u filename :: after →
             ∃ t id,
               filename = filename_of t id
               ∧ ProgressTracker.is_completed (progress s) id = false
               ∧ id ∉ completions before)
        ∧ ((∀ url, EvFetchThumbnail url ∉ evs) →
           world s' = world s ∧ disk s' = disk s).
Proof.
  split.
  - intros i s url current t id row Hl Hg Hp Hc.
    exists (count_skipped (count_total s)).
    split; [ | repeat split ].
    unfold process_row. cbn [rows count_total]. fold row.
    rewrite Hl, Hg. cbn [mbind result_bind].
    destruct (negb (Py.truthy url)); [ reflexivity | ].
    destruct (SkipChecker.should_skip current); [ reflexivity | ].
    rewrite Hp. cbn [progress count_total]. rewrite Hc. reflexivity.
  - intros l s s'. subst s'.
    destruct (process_rows env args l s) as [s' crash] eqn:H. cbn [fst].
    destruct (process_rows_requests _ _ _ _ H)
      as (evs & (Ht & _) & Hfresh & Hworld).
    exists evs. split; [ exact Ht | ].
    split; [ | split; [ | exact Hworld ] ].
    + intros before url after ->.
      pose proof (Hfresh (length before) (EvFetchThumbnail url)
                    (list_lookup_middle _ _ _ _ eq_refl)) as Hf.
      cbn in Hf. rewrite take_app_length in Hf. exact Hf.
    + intros before u filename after ->.
      pose proof (Hfresh (length before) (EvDownload u filename)
                    (list_lookup_middle _ _ _ _ eq_refl)) as Hf.
      cbn in Hf. rewrite take_app_length in Hf. exact Hf.
Qed.

End ResumeFacts.

Lemma completed_ids_are_not_resolved_witness :
  let env := Examples.env (Some Examples.cdn_url) None
               (Some Examples.small_image) in
  let args := Examples.args (lit "images") None in
  let s : Main.State env :=
    {| Main.world := (tt : Main.W env); Main.disk := ∅;
       Main.progress :=
         ProgressTracker.mark_completed (ProgressTracker.init None)
           (lit "ABC123");
       Main.rows := [Examples.row Examples.reel_url []];
       Main.stats := Main.zero; Main.failed_urls := [];
       Main.trace := [] |} in
  ∃ s',
    Main.process_row env args 1 s = Ok s'
    ∧ Main.trace s' = []
    ∧ Main.skipped (Main.stats s') = 1%nat.
Proof.
  intros env args s.
  destruct (proj1 (completed_ids_are_not_resolved env args) 1%nat s
              Examples.reel_url [] InstagramScraper.reel (lit "ABC123"))
    as (s' & H & Ht & _ & _ & _ & _ & _ & Hs & _).
  - vm_compute. reflexivity.
  - vm_compute. reflexivity.
  - vm_compute. reflexivity.
  - vm_compute. reflexivity.
  - exists s'. split; [ exact H | ]. split; [ exact Ht | exact Hs ].
Defined.

(** ** Dry runs, and the row that was downloaded *)

Section RowFacts.
Import Main.
Variable env : Env.
Variable args : Args.

(** X12.  A dry run changes no data and asks nothing: however it ends,
    the dataset, the images and every other file of [disk] are as they
    were, and so is the network; no backup was made, the ledger is the
    one loaded, no call to a component was made, every counter is zero,
    and no failure report is written.  (The log file and the creation
    of the output directory are no part of [disk].) *)
Theorem dry_run_changes_nothing :
  ∀ (w : W env) (fs : files) (file : option ProgressTracker.Data),
    dry_run args = true →
    let o := main env args w fs file in
    world (final o) = w
    ∧ disk (final o) = fs
    ∧ progress (final o) = ProgressTracker.init file
    ∧ trace (final o) = []
    ∧ stats (final o) = zero
    ∧ report o = None.
Proof.
  intros w fs file Hdry o. subst o. unfold main. rewrite Hdry.
  rewrite Bool.andb_false_r.
  destruct (CSVHandler.read_rows (csv_handler args) fs) as [loaded | e];
    [ | repeat split ].
  destruct (row_indices args) as [indices | e]; [ | repeat split ].
  destruct (dry_run_preview loaded); repeat split.
Qed.

Lemma parse_instagram_url_nil :
  InstagramScraper.parse_instagram_url [] = None.
Proof. reflexivity. Qed.

(** X13.  A row counted as downloaded is consistent in all three
    places: the row exists and its reference field now holds
    [output_dir/kind_id.jpg] for the kind and id of its link, the other
    rows being as before; the ledger has the id as completed; and there
    is a file at the path the downloader uses for that name. *)
Theorem downloaded_row_is_consistent :
  ∀ (i : nat) (s s' : State env),
    process_row env args i s = Ok s' →
    downloaded (stats s') ≠ downloaded (stats s) →
    ∃ row url t id,
      rows s !! (i - 1)%nat = Some row
      ∧ get_stripped row Link = Ok url
      ∧ InstagramScraper.parse_instagram_url url = Some (t, id)
      ∧ rows s'
        = <[(i - 1)%nat :=
              csv.set row (Some Gorsel_URL)
                (csv.VStr (output_dir args ++ lit "/" ++ filename_of t id))]>
            (rows s)
      ∧ ProgressTracker.is_completed (progress s') id = true
      ∧ is_Some (disk s' !! path_join env (output_dir args) (filename_of t id))
      ∧ downloaded (stats s') = S (downloaded (stats s)).
Proof.
  intros i s s' H Hd. apply process_row_ending in H.
  destruct H as [ | url Hl Hp | url t id s' Hl Hp Hc He ];
    [ exfalso; apply Hd; reflexivity | exfalso; apply Hd; reflexivity | ].
  destruct (rows s !! (i - 1)%nat) as [row | ] eqn:Erow.
  2: { cbn in Hl. injection Hl as <-.
       rewrite parse_instagram_url_nil in Hp. discriminate. }
  cbn [default] in Hl.
  destruct He as [r s1 Hf Hr | r s1 u s2 Hf Hr Hdl | r s1 u s2 Hf Hr Hdl];
    apply fetch_thumbnail_url_frame in Hf as (Hdisk1 & Hp1 & Hrows1 & Hst1 & _);
    try apply download_frame in Hdl as (Hdl & Hp2 & Hrows2 & Hst2 & _).
  - exfalso. apply Hd. cbn. rewrite Hst1. reflexivity.
  - exfalso. apply Hd. cbn. rewrite Hst2, Hst1. reflexivity.
  - exists row, url, t, id.
    split; [ reflexivity | ]. split; [ exact Hl | ]. split; [ exact Hp | ].
    split.
    { cbn. rewrite Hrows2, Hrows1. cbn.
      apply list_eq. intros j.
      destruct (decide (j = (i - 1)%nat)) as [-> | Hj].
      - rewrite list_lookup_alter_eq, Erow.
        rewrite list_lookup_insert_eq
          by (apply lookup_lt_is_Some; rewrite Erow; eauto).
        reflexivity.
      - rewrite list_lookup_alter_ne, list_lookup_insert_ne by congruence.
        reflexivity. }
    split; [ apply is_completed_mark_completed | ].
    split; [ | cbn; rewrite Hst2, Hst1; reflexivity ].
    cbn. apply download_true_exists in Hdl. exact Hdl.
Qed.

End RowFacts.

Lemma dry_run_changes_nothing_witness :
  let args := {| Main.csv_arg := lit "recipes.csv";
                 Main.output_dir := lit "images";
                 Main.dry_run := true;
                 Main.skip_existing := false;
                 Main.no_backup := false;
                 Main.rows_arg := None |} in
  let env := Examples.env (Some Examples.cdn_url) None
               (Some Examples.small_image) in
  let fs : files :=
    {[ lit "recipes.csv" := Examples.dataset [(Examples.reel_url, [])] ]} in
  Main.disk (Main.final (Main.main env args () fs None)) = fs.
Proof.
  intros args env fs.
  apply (dry_run_changes_nothing env args () fs None). reflexivity.
Defined.

Lemma downloaded_row_is_consistent_witness :
  let env := Examples.env (Some Examples.cdn_url) None
               (Some Examples.small_image) in
  let args := Examples.args (lit "images") None in
  let s := Examples.start (env := env) () ∅ [Examples.row Examples.reel_url []] in
  ∃ s', Main.process_row env args 1 s = Ok s'
        ∧ is_Some (Main.disk s' !! lit "images/reel_ABC123.jpg").
Proof.
  intros env args s.
  destruct (Main.process_row env args 1 s) as [s' | e] eqn:E;
    [ | vm_compute in E; discriminate ].
  exists s'. split; [ reflexivity | ].
  assert (Hd : Main.downloaded (Main.stats s') ≠ Main.downloaded (Main.stats s)).
  { pose proof E as E'. vm_compute in E'. injection E' as <-.
    vm_compute. discriminate. }
  destruct (downloaded_row_is_consistent env args 1 s s' E Hd)
    as (row & url & t & id & Hrow & Hl & Hp & _ & _ & Hfile & _).
  vm_compute in Hrow. injection Hrow as <-.
  vm_compute in Hl. injection Hl as <-.
  vm_compute in Hp. injection Hp as <- <-.
  exact Hfile.
Defined.

(** ** The backup *)

Section BackupFacts.
Import Main.
Variable env : Env.
Variable args : Args.

Lemma write_rows_paths (with_suffix' : str → str → str)
    (str_of_list' : list str → str) (self : CSVHandler.t)
    (rows : list csv.dict) (fs fs' : files) (r : result exn ()) (p : str) :
  CSVHandler.write_rows with_suffix' str_of_list' self rows fs = (r, fs') →
  p ≠ CSVHandler.csv_path self →
  p ≠ with_suffix' (CSVHandler.csv_path self) (lit ".tmp") →
  fs' !! p = fs !! p.
Proof.
  intros H Hcsv Htmp. unfold CSVHandler.write_rows in H.
  destruct rows as [ | row0 rows']; [ congruence | ].
  destruct (csv.dict_to_list _ _ _) as [h | ].
  2: { injection H as _ <-. apply lookup_insert_ne. congruence. }
  destruct (csv.writerows _ _ _) as [text ok].
  destruct ok.
  2: { injection H as _ <-. apply lookup_insert_ne. congruence. }
  unfold move in H. rewrite lookup_insert_eq in H. injection H as _ <-.
  rewrite lookup_insert_ne, lookup_delete_ne, lookup_insert_ne by congruence.
  reflexivity.
Qed.

Variable p : str.
(** [p] is no path of an asset of the run and no temporary path of one. *)
Hypothesis not_asset :
  ∀ t id,
    p ≠ path_join env (output_dir args) (filename_of t id)
    ∧ p ≠ with_suffix env (path_join env (output_dir args) (filename_of t id))
          (lit ".tmp").

Lemma process_row_keeps (i : nat) (s s' : State env) :
  process_row env args i s = Ok s' → disk s' !! p = disk s !! p.
Proof.
  intros H. apply process_row_ending in H.
  destruct H as [ | url Hl Hp | url t id s' Hl Hp Hc He ];
    [ reflexivity | reflexivity | ].
  destruct (not_asset t id) as [Hfinal Htemp].
  destruct He as [r s1 Hf Hr | r s1 u s2 Hf Hr Hdl | r s1 u s2 Hf Hr Hdl];
    apply fetch_thumbnail_url_frame in Hf as (Hdisk1 & _);
    try apply download_frame in Hdl as (Hdl & _);
    cbn; rewrite <- ?Hdisk1.
  - rewrite Hdisk1. reflexivity.
  - change (disk s) with (disk (count_total s)). rewrite <- Hdisk1.
    eapply download_paths; [ exact Hdl | exact Hfinal | exact Htemp ].
  - change (disk s) with (disk (count_total s)). rewrite <- Hdisk1.
    eapply download_paths; [ exact Hdl | exact Hfinal | exact Htemp ].
Qed.

Lemma process_rows_keeps (l : list nat) :
  ∀ (s s' : State env) (crash : option exn),
    process_rows env args l s = (s', crash) → disk s' !! p = disk s !! p.
Proof.
  induction l as [ | i l IH]; intros s s' crash H; cbn [process_rows] in H.
  - injection H as <- _. reflexivity.
  - destruct (process_row env args i s) as [s1 | e] eqn:E.
    + rewrite (IH _ _ _ H). exact (process_row_keeps _ _ _ E).
    + injection H as <- _. reflexivity.
Qed.

Lemma finish_keeps_path (n : nat) (s : State env) :
  p ≠ csv_arg args →
  p ≠ with_suffix env (csv_arg args) (lit ".tmp") →
  disk (final (finish env args n s)) !! p = disk s !! p.
Proof.
  intros Hcsv Htmp. unfold finish, update_csv.
  destruct (0 <? downloaded (stats s))%nat; [ | reflexivity ].
  destruct (CSVHandler.write_rows _ _ _ _ _) as [r fs] eqn:E.
  apply (write_rows_paths _ _ _ _ _ _ _ p) in E; [ | exact Hcsv | exact Htmp ].
  destruct r as [[] | e]; [ | exact E ].
  cbn. destruct (CSVHandler.verify_integrity _ _ _); exact E.
Qed.

End BackupFacts.

Section BackupTheorem.
Import Main.
Variable env : Env.
Variable args : Args.

(** X14.  The backup made at the start of a run is still there at its
    end, with the text the dataset had when the run began, whatever the
    run downloaded, rewrote or failed to, and however it ended;
    provided the path of the backup is not the dataset's, nor that of
    its temporary file, nor one the downloader writes to. *)
Theorem backup_survives_the_run :
  ∀ (w : W env) (fs : files) (file : option ProgressTracker.Data)
    (loaded : list csv.dict) (indices : option (list Z)),
    let backup_path := with_suffix env (csv_arg args) (lit ".csv.backup") in
    no_backup args = false →
    dry_run args = false →
    backup_path ≠ csv_arg args →
    backup_path ≠ with_suffix env (csv_arg args) (lit ".tmp") →
    (∀ t id,
       backup_path ≠ path_join env (output_dir args) (filename_of t id)
       ∧ backup_path
         ≠ with_suffix env (path_join env (output_dir args) (filename_of t id))
             (lit ".tmp")) →
    CSVHandler.read_rows (csv_handler args) fs = Ok loaded →
    row_indices args = Ok indices →
    let o := main env args w fs file in
    is_Some (fs !! csv_arg args)
    ∧ disk (final o) !! backup_path = fs !! csv_arg args.
Proof.
  intros w fs file loaded indices backup_path Hnb Hdry Hcsv Htmp Hassets
    Hread Hidx o.
  subst o. unfold main. rewrite Hread, Hidx, Hnb, Hdry. cbn [negb andb].
  unfold CSVHandler.read_rows in Hread. unfold CSVHandler.backup.
  change (CSVHandler.csv_path (csv_handler args)) with (csv_arg args) in *.
  fold backup_path.
  destruct (fs !! csv_arg args) as [c | ] eqn:Ec; [ | discriminate ].
  split; [ eauto | ]. cbn [fmap result_fmap].
  destruct (process_rows _ _ _ _) as [s2 crash] eqn:El.
  apply (process_rows_keeps env args backup_path Hassets) in El.
  cbn in El. rewrite lookup_insert_eq in El.
  destruct crash as [e | ]; [ exact El | ].
  rewrite finish_keeps_path by assumption. exact El.
Qed.

End BackupTheorem.

Lemma examples_backup_apart (t : InstagramScraper.url_type) (id : str) :
  let backup_path :=
    Examples.with_suffix (lit "recipes.csv") (lit ".csv.backup") in
  let asset :=
    Examples.path_join (lit "images") (Main.filename_of t id) in
  backup_path ≠ asset
  ∧ backup_path ≠ Examples.with_suffix asset (lit ".tmp").
Proof.
  intros backup_path asset. split; intros H.
  - apply (f_equal head) in H. discriminate H.
  - apply (f_equal (λ l, rev l !! 1%nat)) in H.
    unfold Examples.with_suffix in H. rewrite !rev_app_distr in H.
    discriminate H.
Qed.

Lemma backup_survives_the_run_witness :
  let env := Examples.env (Some Examples.cdn_url) None
               (Some Examples.small_image) in
  let args := Examples.args (lit "images") None in
  let fs : files :=
    {[ lit "recipes.csv" := Examples.dataset [(Examples.reel_url, [])] ]} in
  let o := Main.main env args () fs None in
  Main.disk (Main.final o) !! lit "recipes.csv.backup"
  = fs !! lit "recipes.csv"
  ∧ Main.downloaded (Main.stats (Main.final o)) = 1%nat.
Proof.
  intros env args fs o. split; [ | vm_compute; reflexivity ].
  refine (proj2 (backup_survives_the_run env args () fs None
                   (csv.DictReader
                      [[Main.Link; Main.Gorsel_URL]; [Examples.reel_url; []]])
                   None _ _ _ _ _ _ _)).
  - reflexivity.
  - reflexivity.
  - vm_compute. discriminate.
  - vm_compute. discriminate.
  - exact examples_backup_apart.
  - vm_compute. reflexivity.
  - reflexivity.
Defined.

(** ** Rewriting any rows *)

Section AnyRows.
Import csv.
Variable with_suffix : str → str → str.
Variable str_of_list : list str → str.

Abbreviation dict_to_list' := (dict_to_list str_of_list).
Abbreviation writerows' := (writerows str_of_list).
Abbreviation write_rows' := (CSVHandler.write_rows with_suffix str_of_list).

Lemma keys_foldl_subset (l acc : dict) (k : key) :
  k ∈ keys (foldl (λ d kv, set d kv.1 kv.2) acc l) →
  k ∈ keys acc ∨ k ∈ l.*1.
Proof.
  revert acc. induction l as [ | [k' v'] l IH]; intros acc H; cbn in H.
  - left. exact H.
  - apply IH in H as [H | H].
    + rewrite keys_set in H. cbn [fst snd] in H.
      destruct (bool_decide (k' ∈ keys acc)); [ left; exact H | ].
      apply elem_of_app in H as [H | ->%list_elem_of_singleton];
        [ left; exact H | right; cbn; left ].
    + right. cbn. right. exact H.
Qed.

Lemma header_written (fieldnames : list key) :
  ∃ h, dict_to_list' fieldnames (header fieldnames) = Some h.
Proof.
  unfold dict_to_list.
  destruct (forallb _ (keys (header fieldnames))) eqn:E; [ eauto | ].
  exfalso. apply Bool.not_true_iff_false in E. apply E.
  apply forallb_forall. intros k Hk. apply bool_decide_eq_true.
  apply list_elem_of_In in Hk. unfold header, of_pairs in Hk.
  apply keys_foldl_subset in Hk as [Hk | Hk]; [ inversion Hk | ].
  apply list_elem_of_fmap in Hk as ([k' v'] & -> & Hin).
  apply elem_of_zip_l in Hin. exact Hin.
Qed.

Lemma dict_to_list_Some (fieldnames : list key) (r : dict) (l : list str) :
  dict_to_list' fieldnames r = Some l →
  keys r ⊆ fieldnames
  ∧ l = (λ k, field_text str_of_list (default (VStr []) (get r k)))
          <$> fieldnames.
Proof.
  unfold dict_to_list.
  destruct (forallb _ (keys r)) eqn:E; [ | discriminate ].
  intros [= <-]. split; [ | reflexivity ].
  intros k Hk. rewrite forallb_forall in E.
  apply list_elem_of_In, E in Hk. apply bool_decide_eq_true in Hk. exact Hk.
Qed.

Lemma dict_to_list_None (fieldnames : list key) (r : dict) :
  dict_to_list' fieldnames r = None →
  ∃ k, k ∈ keys r ∧ k ∉ fieldnames.
Proof.
  unfold dict_to_list.
  destruct (forallb _ (keys r)) eqn:E; [ discriminate | ]. intros _.
  apply Bool.not_true_iff_false in E.
  destruct (decide (Forall (λ k, k ∈ fieldnames) (keys r))) as [Hall | Hnot].
  - exfalso. apply E. apply forallb_forall. intros k Hk.
    apply bool_decide_eq_true. rewrite Forall_forall in Hall.
    apply Hall, list_elem_of_In, Hk.
  - apply not_Forall_Exists in Hnot; [ | intros k; apply _ ].
    apply Exists_exists in Hnot as (k & Hk & Hn). eauto.
Qed.

Lemma dict_to_list_subset (fieldnames : list key) (r : dict) :
  keys r ⊆ fieldnames → is_Some (dict_to_list' fieldnames r).
Proof.
  intros Hsub. destruct (dict_to_list' fieldnames r) eqn:E; [ eauto | ].
  apply dict_to_list_None in E as (k & Hk & Hn). destruct (Hn (Hsub _ Hk)).
Qed.

Lemma writerows_true (fieldnames : list key) (rows : list dict) (text : str) :
  writerows' fieldnames rows = (text, true) →
  ∃ ls, Forall2 (λ r l, dict_to_list' fieldnames r = Some l) rows ls
        ∧ text = concat (writerow <$> ls).
Proof.
  revert text. induction rows as [ | r rows IH]; intros text H; cbn in H.
  - injection H as <-. exists []. split; [ constructor | reflexivity ].
  - destruct (dict_to_list' fieldnames r) as [l | ] eqn:E; [ | discriminate ].
    destruct (writerows' fieldnames rows) as [text' ok].
    injection H as <- ->. destruct (IH _ eq_refl) as (ls & Hall & ->).
    exists (l :: ls). split; [ constructor; assumption | reflexivity ].
Qed.

Lemma writerows_true_subset (fieldnames : list key) (rows : list dict)
    (text : str) :
  writerows' fieldnames rows = (text, true) →
  Forall (λ r, keys r ⊆ fieldnames) rows.
Proof.
  intros H. apply writerows_true in H as (ls & Hall & _).
  induction Hall as [ | r l rows ls Hr _ IH]; constructor; [ | exact IH ].
  apply dict_to_list_Some in Hr as [Hsub _]. exact Hsub.
Qed.

Lemma writerows_false (fieldnames : list key) (rows : list dict) (text : str) :
  writerows' fieldnames rows = (text, false) →
  ∃ r k, r ∈ rows ∧ k ∈ keys r ∧ k ∉ fieldnames.
Proof.
  revert text. induction rows as [ | r rows IH]; intros text H; cbn in H;
    [ discriminate | ].
  destruct (dict_to_list' fieldnames r) as [l | ] eqn:E.
  - destruct (writerows' fieldnames rows) as [text' ok].
    injection H as _ ->. destruct (IH _ eq_refl) as (r' & k & Hr & Hk).
    exists r', k. split; [ right; exact Hr | exact Hk ].
  - apply dict_to_list_None in E as (k & Hk). exists r, k.
    split; [ left | exact Hk ].
Qed.

Lemma writerows_subset (fieldnames : list key) (rows : list dict) :
  Forall (λ r, keys r ⊆ fieldnames) rows →
  (writerows' fieldnames rows).2 = true.
Proof.
  induction 1 as [ | r rows Hr _ IH]; [ reflexivity | ]. cbn.
  destruct (dict_to_list_subset _ _ Hr) as [l ->].
  destruct (writerows' fieldnames rows). exact IH.
Qed.

(** X15.  [write_rows] succeeds exactly when no row has a key that the
    first row lacks.  When it does not, what it raises is the
    [ValueError] of the writer, and the dataset is as it was: only the
    temporary file has been written. *)
Theorem write_rows_succeeds_iff :
  ∀ (self : CSVHandler.t) (row0 : dict) (rest : list dict) (fs : files),
    let out := write_rows' self (row0 :: rest) fs in
    let temp_path := with_suffix (CSVHandler.csv_path self) (lit ".tmp") in
    (out.1 = Ok () ↔ Forall (λ r, keys r ⊆ keys row0) (row0 :: rest))
    ∧ (out.1 ≠ Ok () →
       out.1 = Raise ValueError_extra_fields
       ∧ ∀ p, p ≠ temp_path → out.2 !! p = fs !! p).
Proof.
  intros self row0 rest fs out temp_path. subst out.
  unfold CSVHandler.write_rows. fold temp_path.
  destruct (header_written (keys row0)) as [h ->].
  destruct (writerows' (keys row0) (row0 :: rest)) as [text ok] eqn:E.
  destruct ok.
  - unfold move. rewrite lookup_insert_eq. cbn [fst snd]. split.
    + split; [ intros _ | reflexivity ].
      exact (writerows_true_subset _ _ _ E).
    + intros H. destruct (H eq_refl).
  - cbn [fst snd]. split.
    + split; [ discriminate | ]. intros Hall.
      apply writerows_subset in Hall. rewrite E in Hall. discriminate.
    + intros _. split; [ reflexivity | ].
      intros p Hp. apply lookup_insert_ne. congruence.
Qed.

End AnyRows.

Section RowCount.
Import csv.
Variable with_suffix : str → str → str.
Variable str_of_list : list str → str.

Lemma fits_nil : fits [].
Proof. unfold fits, field_size_limit. cbn. lia. Qed.

Lemma header_fits (fieldnames : list key) (h : list str) :
  (∀ name, Some name ∈ fieldnames → fits name) →
  dict_to_list str_of_list fieldnames (header fieldnames) = Some h →
  Forall fits h.
Proof.
  intros Hnames H. apply dict_to_list_Some in H as [_ ->].
  apply Forall_fmap, Forall_forall. intros k _. cbn.
  destruct (get (header fieldnames) k) as [v | ] eqn:E; [ | apply fits_nil ].
  apply get_elem_of in E. unfold header, of_pairs in E.
  apply elem_of_foldl_set in E as [E | E]; [ inversion E | ].
  apply elem_of_zip_r in E. apply list_elem_of_fmap in E as (k' & -> & Hk').
  destruct k' as [name | ]; [ apply Hnames, Hk' | apply fits_nil ].
Qed.

Lemma row_fits (fieldnames : list key) (r : dict) (l : list str) :
  (∀ k v, (k, v) ∈ r → fits (field_text str_of_list v)) →
  dict_to_list str_of_list fieldnames r = Some l →
  Forall fits l.
Proof.
  intros Hr H. apply dict_to_list_Some in H as [_ ->].
  apply Forall_fmap, Forall_forall. intros k _. cbn.
  destruct (get r k) as [v | ] eqn:E; [ | apply fits_nil ].
  apply get_elem_of in E. exact (Hr _ _ E).
Qed.

Lemma dict_to_list_length (fieldnames : list key) (r : dict) (l : list str) :
  dict_to_list str_of_list fieldnames r = Some l →
  length l = length fieldnames.
Proof.
  intros H. apply dict_to_list_Some in H as [_ ->]. apply length_fmap.
Qed.

Lemma DictReader_length (h : list str) (ls : list (list str)) :
  Forall (λ l, l ≠ []) ls → length (DictReader (h :: ls)) = length ls.
Proof.
  intros Hall. unfold DictReader. rewrite length_fmap. f_equal.
  induction Hall as [ | l ls Hl _ IH]; [ reflexivity | ].
  rewrite filter_cons_True by (destruct l; [ contradiction | reflexivity ]).
  cbn [length]. f_equal. exact IH.
Qed.

(** X16.  A rewrite that succeeds keeps the number of rows, whatever
    the rows hold, texts or [None] or the list of the excess fields of
    a long line: when the first row has a key and every text written
    is within the limit of the reader, the dataset can be loaded again,
    it has as many rows as were written, and the integrity check
    passes. *)
Theorem rewrite_keeps_row_count :
  ∀ (self : CSVHandler.t) (row0 : dict) (rest : list dict) (fs fs' : files),
    CSVHandler.write_rows with_suffix str_of_list self (row0 :: rest) fs
    = (Ok (), fs') →
    row0 ≠ [] →
    (∀ name, Some name ∈ keys row0 → fits name) →
    (∀ r k v, r ∈ row0 :: rest → (k, v) ∈ r →
       fits (field_text str_of_list v)) →
    (∃ reloaded,
       CSVHandler.read_rows self fs' = Ok reloaded
       ∧ length reloaded = length (row0 :: rest))
    ∧ CSVHandler.verify_integrity self (length (row0 :: rest)) fs' = Ok ().
Proof.
  intros self row0 rest fs fs' H Hne Hnames Hrows.
  assert (Hread : ∃ reloaded,
            CSVHandler.read_rows self fs' = Ok reloaded
            ∧ length reloaded = length (row0 :: rest)).
  2: { split; [ exact Hread | ]. apply verify_integrity_spec, Hread. }
  unfold CSVHandler.write_rows in H.
  destruct (dict_to_list str_of_list (keys row0) (header (keys row0)))
    as [h | ] eqn:Eh; [ | discriminate ].
  destruct (writerows str_of_list (keys row0) (row0 :: rest))
    as [text ok] eqn:Ew.
  destruct ok; [ | discriminate ].
  unfold move in H. rewrite lookup_insert_eq in H. injection H as <-.
  apply writerows_true in Ew as (ls & Hall & ->).
  assert (Hlen : length (keys row0) ≠ 0%nat).
  { unfold keys. rewrite length_fmap. destruct row0; [ contradiction | ].
    discriminate. }
  assert (Hls : Forall (λ l, l ≠ [] ∧ Forall fits l) ls).
  { apply Forall_forall. intros l Hl.
    apply list_elem_of_lookup in Hl as [j Hj].
    destruct (Forall2_lookup_r _ _ _ _ _ Hall Hj) as (r & Hr & Hd).
    split.
    - intros ->. apply dict_to_list_length in Hd. cbn in Hd. lia.
    - apply (row_fits (keys row0) r); [ | exact Hd ].
      intros k v. apply Hrows. apply list_elem_of_lookup. eauto. }
  assert (Hh : h ≠ [] ∧ Forall fits h).
  { split.
    - intros ->. apply dict_to_list_length in Eh. cbn in Eh. lia.
    - exact (header_fits _ _ Hnames Eh). }
  unfold CSVHandler.read_rows. rewrite lookup_insert_eq.
  change (writerow h ++ concat (writerow <$> ls))
    with (concat (writerow <$> h :: ls)).
  rewrite reader_writerows by (constructor; assumption).
  eexists. split; [ reflexivity | ].
  rewrite DictReader_length.
  - symmetry. exact (Forall2_length _ _ _ Hall).
  - eapply Forall_impl; [ exact Hls | ]. intros l [Hl _]. exact Hl.
Qed.

End RowCount.

Lemma rewrite_keeps_row_count_witness :
  let self := {| CSVHandler.csv_path := lit "recipes.csv" |} in
  let short : csv.dict :=
    [(Some (lit "Link"), csv.VStr (lit "a")); (Some (lit "Tarih"), csv.VNone)] in
  let full : csv.dict :=
    [(Some (lit "Link"), csv.VStr (lit "b"));
     (Some (lit "Tarih"), csv.VStr (lit "1.2.2024"))] in
  ∃ fs',
    CSVHandler.write_rows Examples.with_suffix (λ _, []) self [short; full] ∅
    = (Ok (), fs')
    ∧ CSVHandler.verify_integrity self 2 fs' = Ok ().
Proof.
  intros self short full.
  destruct (CSVHandler.write_rows Examples.with_suffix (λ _, []) self
              [short; full] ∅) as [r fs'] eqn:E.
  assert (Hr : r = Ok ()).
  { apply (f_equal fst) in E. vm_compute in E. congruence. }
  subst r. exists fs'. split; [ reflexivity | ].
  refine (proj2 (rewrite_keeps_row_count Examples.with_suffix (λ _, []) self
                   short [full] ∅ fs' E _ _ _)).
  - discriminate.
  - intros name Hname. unfold csv.fits, csv.field_size_limit.
    apply list_elem_of_In in Hname.
    destruct Hname as [[= <-] | [[= <-] | []]]; vm_compute; discriminate.
  - intros r k v Hr Hkv. unfold csv.fits, csv.field_size_limit.
    apply list_elem_of_In in Hr. destruct Hr as [<- | [<- | []]];
      apply list_elem_of_In in Hkv;
      destruct Hkv as [[= <- <-] | [[= <- <-] | []]];
      vm_compute; discriminate.
Defined.

(** ** The rewrite of any dataset *)

Section RewriteAnyRows.
Import csv.
Variable with_suffix : str → str → str.
Variable str_of_list : list str → str.

Lemma set_nonempty (d : dict) (k : key) (v : value) : set d k v ≠ [].
Proof.
  destruct d as [ | [k' v'] d]; cbn [set]; [ discriminate | ].
  destruct (bool_decide (k' = k)); discriminate.
Qed.

Lemma set_keeps (d : dict) (k : key) (v : value) :
  NoDup (keys d) → Forall field_ok d → field_ok (k, v) →
  NoDup (keys (set d k v)) ∧ Forall field_ok (set d k v).
Proof.
  intros Hnd Hall Hkv. split.
  - rewrite keys_set. case_bool_decide as Hk; [ exact Hnd | ].
    apply NoDup_app. split; [ exact Hnd | split ].
    + intros x Hx ->%list_elem_of_singleton. exact (Hk Hx).
    + apply NoDup_singleton.
  - apply Forall_forall. intros [k' v'] [H | [= -> ->]]%elem_of_set.
    + rewrite Forall_forall in Hall. apply Hall, H.
    + exact Hkv.
Qed.

(** Assignments one after the other, whatever they are made from. *)
Lemma foldl_set_keeps {A : Type} (kf : A → key) (vf : A → value)
    (xs : list A) (acc : dict) :
  NoDup (keys acc) → Forall field_ok acc →
  Forall (λ x, field_ok (kf x, vf x)) xs →
  NoDup (keys (foldl (λ d x, set d (kf x) (vf x)) acc xs))
  ∧ Forall field_ok (foldl (λ d x, set d (kf x) (vf x)) acc xs).
Proof.
  intros Hnd Hall Hxs. revert acc Hnd Hall.
  induction Hxs as [ | x xs Hx _ IH]; intros acc Hnd Hall; cbn [foldl].
  - split; assumption.
  - destruct (set_keeps acc (kf x) (vf x) Hnd Hall Hx) as [Hnd' Hall'].
    apply IH; assumption.
Qed.

Lemma foldl_set_nonempty {A : Type} (kf : A → key) (vf : A → value)
    (xs : list A) (acc : dict) :
  acc ≠ [] → foldl (λ d x, set d (kf x) (vf x)) acc xs ≠ [].
Proof.
  revert acc. induction xs as [ | x xs IH]; intros acc H; cbn [foldl].
  - exact H.
  - apply IH, set_nonempty.
Qed.

Lemma elem_of_foldl_assign {A : Type} (kf : A → key) (vf : A → value)
    (xs : list A) (acc : dict) (k : key) (v : value) :
  (k, v) ∈ foldl (λ d x, set d (kf x) (vf x)) acc xs →
  (k, v) ∈ acc ∨ ∃ x, x ∈ xs ∧ k = kf x.
Proof.
  revert acc. induction xs as [ | x xs IH]; intros acc; cbn [foldl].
  - auto.
  - intros [[H | [= -> ->]]%elem_of_set | (y & Hy & ->)]%IH.
    + left. exact H.
    + right. exists x. split; [ left | reflexivity ].
    + right. exists y. split; [ right; exact Hy | reflexivity ].
Qed.

Lemma to_dict_well_formed (K rec : list str) :
  Forall fits K → Forall fits rec → rec ≠ [] → well_formed (to_dict K rec).
Proof.
  intros HK Hrec Hne. unfold to_dict.
  set (pairs := zip (Some <$> K) (VStr <$> rec)).
  assert (Hpairs : Forall (λ x : key * value, field_ok (x.1, x.2)) pairs).
  { apply Forall_forall. intros [k v] Hkv. cbn [fst snd].
    pose proof (elem_of_zip_l _ _ _ _ Hkv) as Hk.
    pose proof (elem_of_zip_r _ _ _ _ Hkv) as Hv.
    apply list_elem_of_fmap in Hk as (n & -> & Hn).
    apply list_elem_of_fmap in Hv as (t & -> & Ht).
    rewrite Forall_forall in HK, Hrec. split; [ apply HK, Hn | apply Hrec, Ht ]. }
  destruct (foldl_set_keeps fst snd pairs [] (NoDup_nil_2) (Forall_nil_2 _)
              Hpairs) as [Hnd Hall].
  fold (of_pairs pairs) in Hnd, Hall.
  destruct (length K <? length rec)%nat eqn:E1.
  { destruct (set_keeps (of_pairs pairs) None (VList (drop (length K) rec))
                Hnd Hall I) as [H1 H2].
    split; [ apply set_nonempty | split; assumption ]. }
  assert (Hd : of_pairs pairs ≠ []).
  { apply Nat.ltb_ge in E1. subst pairs.
    destruct rec as [ | t rec]; [ congruence | ].
    destruct K as [ | n K]; [ cbn in E1; lia | ].
    cbn [fmap list_fmap zip zip_with]. unfold of_pairs. cbn [foldl].
    apply (foldl_set_nonempty fst snd). discriminate. }
  destruct (length rec <? length K)%nat eqn:E2.
  - destruct (foldl_set_keeps Some (λ _, VNone) (drop (length rec) K)
                (of_pairs pairs) Hnd Hall) as [H1 H2].
    { apply Forall_forall. intros n Hn. cbn.
      rewrite Forall_forall in HK. apply HK.
      apply list_elem_of_lookup in Hn as [i Hi].
      rewrite lookup_drop in Hi. eapply list_elem_of_lookup_2, Hi. }
    split; [ | split; assumption ].
    apply (foldl_set_nonempty Some (λ _, VNone)), Hd.
  - split; [ exact Hd | split; assumption ].
Qed.

Lemma read_rows_well_formed (self : CSVHandler.t) (fs : files)
    (rows : list dict) :
  CSVHandler.read_rows self fs = Ok rows → Forall well_formed rows.
Proof.
  unfold CSVHandler.read_rows.
  destruct (fs !! CSVHandler.csv_path self) as [text | ]; [ | discriminate ].
  destruct (reader (readlines text)) as [records | ] eqn:Er;
    [ | discriminate ].
  intros [= <-]. apply reader_fits in Er.
  destruct records as [ | K recs]; [ constructor | ].
  apply Forall_cons in Er as [HK Hrecs]. cbn [DictReader].
  apply Forall_forall. intros r Hr.
  apply list_elem_of_fmap in Hr as (rec & -> & Hrec).
  apply list_elem_of_filter in Hrec as [Hnb Hrec].
  rewrite Forall_forall in Hrecs.
  apply to_dict_well_formed; [ exact HK | apply Hrecs, Hrec | ].
  intros ->. discriminate.
Qed.

Lemma assigned_well_formed (r r' : dict) :
  well_formed r → assigned r r' → well_formed r'.
Proof.
  intros (Hne & Hnd & Hall) (l & -> & Hl).
  destruct (foldl_set_keeps (λ kv : str * str, Some kv.1)
              (λ kv, VStr kv.2) l r Hnd Hall) as [H1 H2].
  { eapply Forall_impl; [ exact Hl | ]. intros kv H. exact H. }
  split; [ | split; assumption ].
  apply (foldl_set_nonempty (λ kv : str * str, Some kv.1) (λ kv, VStr kv.2)).
  exact Hne.
Qed.

(** Assignments are made under names: what a row holds under [None]
    it held before them. *)
Lemma assigned_None (r r' : dict) (v : value) :
  assigned r r' → (None, v) ∈ r' → (None, v) ∈ r.
Proof.
  intros (l & -> & _) H.
  apply (elem_of_foldl_assign (λ kv : str * str, Some kv.1)
           (λ kv, VStr kv.2)) in H as [H | (x & _ & [=])].
  exact H.
Qed.

(** [dict(zip(keys, values))] at a key, when the pairs with this key
    agree on the value. *)
Lemma get_foldl_set {A : Type} (a : A → key) (b : A → value) (ks : list A)
    (k : A) :
  ∀ acc,
    (∀ k', k' ∈ ks → a k' = a k → b k' = b k) →
    k ∈ ks ∨ get acc (a k) = Some (b k) →
    get (foldl (λ d kv, set d kv.1 kv.2) acc (zip (a <$> ks) (b <$> ks)))
      (a k)
    = Some (b k).
Proof.
  induction ks as [ | k0 ks IH]; intros acc Hsame Hin;
    cbn [fmap list_fmap zip zip_with foldl fst snd].
  - destruct Hin as [Hin | H]; [ inversion Hin | exact H ].
  - apply IH.
    + intros k' Hk'. apply Hsame. right. exact Hk'.
    + destruct Hin as [[-> | Hin]%elem_of_cons | H].
      * right. apply get_set.
      * left. exact Hin.
      * right. destruct (decide (a k0 = a k)) as [E | Hne].
        -- rewrite <- E, get_set. f_equal. apply Hsame; [ left | exact E ].
        -- rewrite get_set_other by congruence. exact H.
Qed.

(** The header line: the names, and the empty text for the key
    [None]. *)
Lemma header_texts (fieldnames : list key) (h : list str) :
  dict_to_list str_of_list fieldnames (header fieldnames) = Some h →
  h = (λ k, match k with Some name => name | None => [] end) <$> fieldnames.
Proof.
  intros H. apply dict_to_list_Some in H as [_ ->].
  apply list_fmap_ext. intros i k Hk. apply list_elem_of_lookup_2 in Hk.
  pose proof (get_foldl_set id
                (λ k, match k with Some s => VStr s | None => VNone end)
                fieldnames k []) as G.
  rewrite list_fmap_id in G. unfold header, of_pairs.
  unfold id in G. rewrite G; [ destruct k; reflexivity | | left; exact Hk ].
  intros k' _ ->. reflexivity.
Qed.

Lemma filter_nonblank (ls : list (list str)) :
  Forall (λ l, l ≠ []) ls → filter (λ r, is_blank r = false) ls = ls.
Proof.
  induction 1 as [ | l ls Hl _ IH]; [ reflexivity | ].
  rewrite filter_cons_True by (destruct l; [ contradiction | reflexivity ]).
  f_equal. exact IH.
Qed.

(** C1, as the code has it.  Take the rows [read_rows] loaded from a
    dataset, and the rows in memory when the run ends: the rows
    loaded, with texts within the limit of the reader assigned to
    fields.  When [write_rows] succeeds on them, the dataset can be
    loaded again and has as many rows as before; every field under a
    name that holds after the run the value that was loaded is found
    again in its row, with the same text when that value is a text,
    and with the empty text when it is [None], the value of a field
    missing from a short line.  Two things are asked of a dataset whose
    first row has surplus fields, loaded as a list under the key
    [None]: that this row has no field with the empty name, under which
    the list is written, and that the text written for such a list is
    within the limit of the reader. *)
Theorem rewrite_round_trip :
  ∀ (self : CSVHandler.t) (fs fs' : files) (rows rows' : list dict),
    CSVHandler.read_rows self fs = Ok rows →
    Forall2 assigned rows rows' →
    CSVHandler.write_rows with_suffix str_of_list self rows' fs
    = (Ok (), fs') →
    (∀ row0, head rows' = Some row0 →
             None ∈ keys row0 → Some [] ∉ keys row0) →
    (∀ r l, r ∈ rows → (None, VList l) ∈ r → fits (str_of_list l)) →
    ∃ reloaded,
      CSVHandler.read_rows self fs' = Ok reloaded
      ∧ length reloaded = length rows
      ∧ ∀ (i : nat) (r r' : dict) (name : str) (v : value),
          rows !! i = Some r →
          rows' !! i = Some r' →
          get r (Some name) = Some v →
          get r' (Some name) = Some v →
          ∃ r'',
            reloaded !! i = Some r''
            ∧ (∀ text, v = VStr text →
                       get r'' (Some name) = Some (VStr text))
            ∧ (v = VNone → get r'' (Some name) = Some (VStr [])).
Proof.
  intros self fs fs' rows rows' Hread Hup Hw Hempty Hlists.
  destruct rows' as [ | row0 rest].
  { apply Forall2_nil_inv_r in Hup. subst rows. cbn in Hw.
    injection Hw as <-. exists []. split; [ exact Hread | ].
    split; [ reflexivity | ]. intros i r r' name v Hi.
    rewrite lookup_nil in Hi. discriminate. }
  pose proof (read_rows_well_formed _ _ _ Hread) as Hwf.
  assert (Hwf' : Forall well_formed (row0 :: rest)).
  { eapply (Forall2_transfer _ assigned); [ | exact Hwf | exact Hup ].
    intros r r'. apply assigned_well_formed. }
  assert (Hfield : ∀ r' k v, r' ∈ row0 :: rest → (k, v) ∈ r' →
                             fits (field_text str_of_list v)).
  { intros r' k v Hr' Hkv.
    rewrite Forall_forall in Hwf'. destruct (Hwf' _ Hr') as (_ & _ & Hok).
    rewrite Forall_forall in Hok. specialize (Hok _ Hkv).
    destruct k as [name | ], v as [ | text | l]; cbn in Hok |- *;
      try contradiction.
    - apply fits_nil.
    - apply Hok.
    - apply list_elem_of_lookup in Hr' as [i Hi].
      destruct (Forall2_lookup_r _ _ _ _ _ Hup Hi) as (r & Hr & Ha).
      apply (Hlists r); [ eapply list_elem_of_lookup_2, Hr | ].
      eapply assigned_None; eassumption. }
  assert (Hnames : ∀ name, Some name ∈ keys row0 → fits name).
  { intros name Hname.
    apply list_elem_of_fmap in Hname as ([k v] & Hk & Hkv).
    cbn in Hk. subst k.
    apply Forall_cons in Hwf' as [(_ & _ & Hok) _].
    rewrite Forall_forall in Hok. specialize (Hok _ Hkv).
    destruct v; cbn in Hok; [ exact Hok | apply Hok | contradiction ]. }
  assert (Hne : row0 ≠ []).
  { apply Forall_cons in Hwf' as [(H & _) _]. exact H. }
  unfold CSVHandler.write_rows in Hw.
  destruct (dict_to_list str_of_list (keys row0) (header (keys row0)))
    as [h | ] eqn:Eh; [ | discriminate ].
  destruct (writerows str_of_list (keys row0) (row0 :: rest))
    as [text ok] eqn:Ew.
  destruct ok; [ | discriminate ].
  unfold move in Hw. rewrite lookup_insert_eq in Hw. injection Hw as <-.
  apply writerows_true in Ew as (ls & Hall & ->).
  assert (Hlen : length (keys row0) ≠ 0%nat).
  { unfold keys. rewrite length_fmap. destruct row0; [ contradiction | ].
    discriminate. }
  assert (Hls : Forall (λ l, l ≠ [] ∧ Forall fits l) ls).
  { apply Forall_forall. intros l Hl.
    apply list_elem_of_lookup in Hl as [j Hj].
    destruct (Forall2_lookup_r _ _ _ _ _ Hall Hj) as (r & Hr & Hd).
    split.
    - intros ->. apply (dict_to_list_length str_of_list) in Hd.
      cbn in Hd. lia.
    - apply (row_fits str_of_list (keys row0) r); [ | exact Hd ].
      intros k v. apply Hfield. eapply list_elem_of_lookup_2, Hr. }
  assert (Hh : h ≠ [] ∧ Forall fits h).
  { split.
    - intros ->. apply (dict_to_list_length str_of_list) in Eh.
      cbn in Eh. lia.
    - exact (header_fits str_of_list _ _ Hnames Eh). }
  assert (Hnb : Forall (λ l : list str, l ≠ []) ls).
  { eapply Forall_impl; [ exact Hls | ]. intros l [Hl _]. exact Hl. }
  unfold CSVHandler.read_rows. rewrite lookup_insert_eq.
  change (writerow h ++ concat (writerow <$> ls))
    with (concat (writerow <$> h :: ls)).
  rewrite reader_writerows by (constructor; assumption).
  eexists. split; [ reflexivity | ].
  split.
  { rewrite DictReader_length by exact Hnb.
    rewrite <- (Forall2_length _ _ _ Hall). symmetry.
    exact (Forall2_length _ _ _ Hup). }
  intros i r r' name v Hi Hi' Hg Hg'.
  destruct (Forall2_lookup_l _ _ _ _ _ Hall Hi') as (l & Hl & Hd).
  exists (to_dict h l). split.
  { cbn [DictReader]. rewrite filter_nonblank by exact Hnb.
    rewrite list_lookup_fmap, Hl. reflexivity. }
  assert (Hget : get (to_dict h l) (Some name)
                 = Some (VStr (field_text str_of_list v))).
  2: { split; [ intros t -> | intros -> ]; exact Hget. }
  apply header_texts in Eh.
  apply dict_to_list_Some in Hd as [Hsub ->].
  assert (Hin : Some name ∈ keys row0).
  { apply Hsub. apply get_elem_of in Hg'.
    apply list_elem_of_fmap. exists (Some name, v).
    split; [ reflexivity | exact Hg' ]. }
  subst h. unfold to_dict. rewrite !length_fmap, Nat.ltb_irrefl.
  unfold of_pairs. rewrite <- !list_fmap_compose.
  pose proof (get_foldl_set
                (Some ∘ (λ k, match k with Some n => n | None => [] end))
                (VStr ∘ (λ k, field_text str_of_list
                                (default (VStr []) (get r' k))))
                (keys row0) (Some name) []) as G.
  cbn [compose] in G. rewrite Hg' in G. cbn [default] in G.
  apply G; [ | left; exact Hin ].
  intros [name' | ] Hin' [= E].
  - subst name'. rewrite Hg'. reflexivity.
  - exfalso. subst name. exact (Hempty row0 eq_refl Hin' Hin).
Qed.

End RewriteAnyRows.

Lemma rewrite_round_trip_witness :
  let self := {| CSVHandler.csv_path := lit "recipes.csv" |} in
  let url2 := lit "https://www.instagram.com/p/B2/" in
  let fs : files :=
    {[ lit "recipes.csv" :=
         csv.writerow [Main.Link; Main.Gorsel_URL]
         ++ csv.writerow [Examples.reel_url; []]
         ++ csv.writerow [url2] ]} in
  let short : csv.dict :=
    [(Some Main.Link, csv.VStr url2); (Some Main.Gorsel_URL, csv.VNone)] in
  let rows := [Examples.row Examples.reel_url []; short] in
  let rows' := [Examples.row Examples.reel_url (lit "images/reel_ABC123.jpg");
                short] in
  CSVHandler.read_rows self fs = Ok rows
  ∧ ∃ fs' reloaded r1,
      CSVHandler.write_rows Examples.with_suffix (λ _, []) self rows' fs
      = (Ok (), fs')
      ∧ CSVHandler.read_rows self fs' = Ok reloaded
      ∧ length reloaded = 2%nat
      ∧ reloaded !! 1%nat = Some r1
      ∧ csv.get r1 (Some Main.Link) = Some (csv.VStr url2)
      ∧ csv.get r1 (Some Main.Gorsel_URL) = Some (csv.VStr []).
Proof.
  intros self url2 fs short rows rows'.
  assert (Hread : CSVHandler.read_rows self fs = Ok rows)
    by (vm_compute; reflexivity).
  split; [ exact Hread | ].
  destruct (CSVHandler.write_rows Examples.with_suffix (λ _, []) self rows'
              fs) as [res fs'] eqn:Hw.
  assert (Hres : res = Ok ()).
  { apply (f_equal fst) in Hw. vm_compute in Hw. congruence. }
  subst res.
  destruct (rewrite_round_trip Examples.with_suffix (λ _, []) self fs fs'
              rows rows' Hread) as (reloaded & Hr & Hlen & Hfields).
  - constructor; [ | constructor; [ | constructor ] ].
    + exists [(Main.Gorsel_URL, lit "images/reel_ABC123.jpg")].
      split; [ reflexivity | ].
      constructor; [ split; vm_compute; discriminate | constructor ].
    + exists []. split; [ reflexivity | constructor ].
  - exact Hw.
  - intros row0 [= <-] Hnone. exfalso. revert Hnone.
    apply (bool_decide_unpack _). vm_compute. exact I.
  - intros r l _ _. vm_compute. discriminate.
  - destruct (Hfields 1%nat short short Main.Link (csv.VStr url2)
                eq_refl eq_refl eq_refl eq_refl) as (r1 & H1 & Htext & _).
    destruct (Hfields 1%nat short short Main.Gorsel_URL csv.VNone
                eq_refl eq_refl eq_refl eq_refl) as (r1' & H1' & _ & Hnone).
    rewrite H1 in H1'. injection H1' as <-.
    exists fs', reloaded, r1.
    split; [ reflexivity | ]. split; [ exact Hr | ].
    split; [ exact Hlen | ]. split; [ exact H1 | ].
    split; [ exact (Htext _ eq_refl) | exact (Hnone eq_refl) ].
Defined.

(** The surplus fields of a long first line are written under the empty
    name, as the text of their list: where the dataset has a column
    with the empty name, a field of this column that the run left
    alone is lost to the rewrite. *)
Lemma long_first_line_not_round_trip :
  let self := {| CSVHandler.csv_path := lit "recipes.csv" |} in
  let fs : files :=
    {[ lit "recipes.csv" :=
         csv.writerow [[]; lit "A"] ++ csv.writerow [lit "1"; lit "2"; lit "3"]
    ]} in
  let str_of_list := λ _ : list str, lit "['3']" in
  ∃ rows fs' reloaded r r'',
    CSVHandler.read_rows self fs = Ok rows
    ∧ CSVHandler.write_rows Examples.with_suffix str_of_list self rows fs
      = (Ok (), fs')
    ∧ CSVHandler.read_rows self fs' = Ok reloaded
    ∧ rows !! 0%nat = Some r
    ∧ reloaded !! 0%nat = Some r''
    ∧ csv.get r (Some []) = Some (csv.VStr (lit "1"))
    ∧ csv.get r'' (Some []) = Some (csv.VStr (lit "['3']")).
Proof.
  intros self fs str_of_list.
  exists [[(Some [], csv.VStr (lit "1")); (Some (lit "A"), csv.VStr (lit "2"));
           (None, csv.VList [lit "3"])]].
  eexists. eexists. eexists. eexists.
  split; [ vm_compute; reflexivity | ].
  split; [ vm_compute; reflexivity | ].
  split; [ vm_compute; reflexivity | ].
  repeat split.
Qed.

(** ** Texts and their parts *)

Section RowRangeResults.

Lemma elem_of_lstrip (c : N) (s : str) : c ∈ Py.lstrip s → c ∈ s.
Proof.
  induction s as [ | a s IH]; cbn; [ tauto | ].
  destruct (Py.isspace a); [ | tauto ].
  intros H. right. apply IH, H.
Qed.

Lemma elem_of_rev {A : Type} (x : A) (l : list A) : x ∈ rev l ↔ x ∈ l.
Proof. rewrite !list_elem_of_In. symmetry. apply in_rev. Qed.

Lemma elem_of_strip (c : N) (s : str) : c ∈ Py.strip s → c ∈ s.
Proof.
  unfold Py.strip, Py.rstrip. rewrite elem_of_rev.
  intros H%elem_of_lstrip. rewrite elem_of_rev in H.
  apply elem_of_lstrip, H.
Qed.

Lemma split_no_sep (sep : N) (s p : str) : p ∈ Py.split sep s → sep ∉ p.
Proof.
  revert p. induction s as [ | c s IH]; intros p; cbn.
  - intros ->%list_elem_of_singleton. apply not_elem_of_nil.
  - destruct (c =? sep) eqn:E.
    + intros [-> | H]%elem_of_cons; [ apply not_elem_of_nil | apply IH, H ].
    + apply N.eqb_neq in E. destruct (Py.split sep s) as [ | h t].
      * intros ->%list_elem_of_singleton.
        intros ->%list_elem_of_singleton. congruence.
      * intros [-> | H]%elem_of_cons.
        -- rewrite not_elem_of_cons. split; [ congruence | ].
           apply IH. left.
        -- apply IH. right. exact H.
Qed.

Lemma contains_char_false (c : N) (s : str) :
  Py.contains [c] s = false → c ∉ s.
Proof.
  induction s as [ | a s IH]; cbn; [ intros _; apply not_elem_of_nil | ].
  rewrite Bool.andb_true_r. intros H.
  apply Bool.orb_false_iff in H as [Ha Hs]. apply N.eqb_neq in Ha.
  rewrite not_elem_of_cons. split; [ congruence | apply IH, Hs ].
Qed.

Lemma elem_of_parse_parts (parts : list str) (l : list Z) (n : Z) :
  parse_parts parts = Some l →
  n ∈ l ↔ ∃ part ns, part ∈ parts ∧ parse_part part = Some ns ∧ n ∈ ns.
Proof.
  revert l. induction parts as [ | part parts IH]; intros l H; cbn in H.
  - injection H as <-. split; [ intros H; inversion H | ].
    intros (part & ns & H & _). inversion H.
  - destruct (parse_part part) as [ns | ] eqn:Ep; [ | discriminate ].
    destruct (parse_parts parts) as [rows | ]; [ | discriminate ].
    cbn in H. injection H as <-. rewrite elem_of_app, (IH rows eq_refl).
    split.
    + intros [Hn | (part' & ns' & Hin & Hp & Hn)].
      * exists part, ns. split; [ left | split; assumption ].
      * exists part', ns'. split; [ right; exact Hin | split; assumption ].
    + intros (part' & ns' & Hin & Hp & Hn).
      apply elem_of_cons in Hin as [-> | Hin].
      * left. congruence.
      * right. exists part', ns'. split; [ exact Hin | split; assumption ].
Qed.

End RowRangeResults.

(** ** The id of a video *)

Section VideoIdFacts.
Import YouTubeFetcher.
Variable urlparse : str → option ParseResult.
Variable parse_qs : str → gmap str (list str).

Lemma split_head (sep : N) (s : str) :
  ∃ h t, Py.split sep s = h :: t
         ∧ (sep ∉ h)
         ∧ (s = h ∨ ∃ more, s = h ++ sep :: more).
Proof.
  induction s as [ | c s (h & t & Hs & Hh & Hrest)]; cbn.
  - exists [], []. split; [ reflexivity | ].
    split; [ apply not_elem_of_nil | left; reflexivity ].
  - destruct (c =? sep) eqn:E.
    + apply N.eqb_eq in E as ->. exists [], (Py.split sep s).
      split; [ reflexivity | ]. split; [ apply not_elem_of_nil | ].
      right. exists s. reflexivity.
    + apply N.eqb_neq in E. rewrite Hs. exists (c :: h), t.
      split; [ reflexivity | ].
      split; [ rewrite not_elem_of_cons; split; [ congruence | exact Hh ] | ].
      destruct Hrest as [-> | (more & ->)];
        [ left; reflexivity | right; exists more; reflexivity ].
Qed.

Lemma lstrip_chars_slash (s : str) :
  ∃ n, s = replicate n 47 ++ lstrip_chars (lit "/") s
       ∧ head (lstrip_chars (lit "/") s) ≠ Some 47.
Proof.
  induction s as [ | c s (n & Hs & Hh)].
  - exists 0%nat. split; [ reflexivity | discriminate ].
  - cbn [lstrip_chars]. destruct (decide (c ∈ lit "/")) as [Hc | Hc].
    + rewrite (bool_decide_eq_true_2 _ Hc).
      apply list_elem_of_singleton in Hc as ->.
      exists (S n). split; [ cbn; f_equal; exact Hs | exact Hh ].
    + rewrite (bool_decide_eq_false_2 _ Hc).
      exists 0%nat. split; [ reflexivity | ]. cbn. intros [= ->].
      apply Hc. left.
Qed.

(** X18.  For a link that [urlparse] accepts, [extract_video_id] reads
    the path as follows.  On the two YouTube hosts, a path that starts
    with [/embed/] never raises [IndexError]: the id is what follows up
    to the next slash or the end, so it holds no slash.  On [youtu.be]
    the id is the path without its leading slashes.  On any other host
    there is no id. *)
Theorem extract_video_id_paths :
  ∀ (url : str) (parsed : ParseResult),
    Py.truthy url = true →
    urlparse url = Some parsed →
    let r := extract_video_id urlparse parse_qs url in
    (hostname parsed ∈ [Some (lit "www.youtube.com"); Some (lit "youtube.com")] →
     ∀ rest, path parsed = lit "/embed/" ++ rest →
       ∃ id, r = Ok (Some id)
             ∧ (47 ∉ id)
             ∧ (rest = id ∨ ∃ more, rest = id ++ 47 :: more))
    ∧ (hostname parsed = Some (lit "youtu.be") →
       ∃ id n, r = Ok (Some id)
               ∧ path parsed = replicate n 47 ++ id
               ∧ head id ≠ Some 47)
    ∧ (hostname parsed
       ∉ [Some (lit "www.youtube.com"); Some (lit "youtube.com");
          Some (lit "youtu.be")] →
       r = Ok None).
Proof.
  intros url parsed Hurl Hparse r. subst r. unfold extract_video_id.
  rewrite Hurl, Hparse. cbn [negb].
  split; [ | split ].
  - intros Hhost rest Hpath. rewrite (bool_decide_eq_true_2 _ Hhost).
    rewrite Hpath.
    rewrite bool_decide_eq_false_2 by discriminate.
    rewrite startswith_app.
    destruct (split_head 47 rest) as (h & t & Hs & Hh & Hrest).
    change (Py.split 47 (lit "/embed/" ++ rest))
      with ([] :: lit "embed" :: Py.split 47 rest).
    rewrite Hs. cbn [lookup list_lookup]. exists h.
    split; [ reflexivity | split; assumption ].
  - intros Hhost. rewrite Hhost.
    rewrite bool_decide_eq_false_2
      by (intros H; apply list_elem_of_In in H;
          destruct H as [[=] | [[=] | []]]).
    rewrite bool_decide_eq_true_2 by reflexivity.
    destruct (lstrip_chars_slash (path parsed)) as (n & Hp & Hh).
    exists (lstrip_chars (lit "/") (path parsed)), n.
    split; [ reflexivity | split; assumption ].
  - intros Hhost. rewrite !not_elem_of_cons in Hhost.
    destruct Hhost as (H1 & H2 & H3 & _).
    rewrite bool_decide_eq_false_2.
    + rewrite bool_decide_eq_false_2 by exact H3. reflexivity.
    + rewrite !not_elem_of_cons. split; [ exact H1 | ].
      split; [ exact H2 | apply not_elem_of_nil ].
Qed.

End VideoIdFacts.

Lemma extract_video_id_paths_witness :
  let parsed := {| YouTubeFetcher.hostname := Some (lit "www.youtube.com");
                   YouTubeFetcher.path := lit "/embed/dQw4w9WgXcQ/extra";
                   YouTubeFetcher.query := [] |} in
  ∃ id,
    YouTubeFetcher.extract_video_id (λ _, Some parsed) (λ _, ∅)
      (lit "https://www.youtube.com/embed/dQw4w9WgXcQ/extra")
    = Ok (Some id)
    ∧ (47 ∉ id).
Proof.
  intros parsed.
  destruct (extract_video_id_paths (λ _, Some parsed) (λ _, ∅)
              (lit "https://www.youtube.com/embed/dQw4w9WgXcQ/extra") parsed
              eq_refl eq_refl) as (Hembed & _).
  destruct (Hembed (list_elem_of_here _ _) (lit "dQw4w9WgXcQ/extra") eq_refl)
    as (id & Hr & Hid & _).
  exists id. split; [ exact Hr | exact Hid ].
Defined.

(** ** The fields a run leaves alone *)

Section FieldFacts.
Import Main.
Variable env : Env.
Variable args : Args.

Lemma same_but_reference_refl (rows : list csv.dict) :
  same_but_reference rows rows.
Proof. split; [ reflexivity | ]. intros j row H. eauto. Qed.

Lemma same_but_reference_trans (a b c : list csv.dict) :
  same_but_reference a b → same_but_reference b c →
  same_but_reference a c.
Proof.
  intros [Hl1 H1] [Hl2 H2]. split; [ congruence | ].
  intros j row Hj. destruct (H1 _ _ Hj) as (row1 & Hj1 & Hg1).
  destruct (H2 _ _ Hj1) as (row2 & Hj2 & Hg2).
  exists row2. split; [ exact Hj2 | ].
  intros k Hk. rewrite Hg2, Hg1 by exact Hk. reflexivity.
Qed.

Lemma process_row_fields (i : nat) (s s' : State env) :
  process_row env args i s = Ok s' → same_but_reference (rows s) (rows s').
Proof.
  intros H. apply process_row_rows in H as [-> | (_ & v & ->)];
    [ apply same_but_reference_refl | ].
  split; [ apply length_alter | ].
  intros j row Hj. destruct (decide (j = (i - 1)%nat)) as [-> | Hne].
  - rewrite list_lookup_alter_eq, Hj. cbn. eexists. split; [ reflexivity | ].
    intros k Hk. apply get_set_other, Hk.
  - rewrite list_lookup_alter_ne by congruence. eauto.
Qed.

(** X19.  A pass over the rows changes nothing of the dataset in memory
    but reference fields: the rows are as many as before and in the
    same places, and in each of them every other field holds what it
    held. *)
Theorem only_reference_fields_change :
  ∀ (l : list nat) (s : State env),
    let s' := (process_rows env args l s).1 in
    length (rows s') = length (rows s)
    ∧ ∀ j row, rows s !! j = Some row →
        ∃ row', rows s' !! j = Some row'
                ∧ ∀ k, k ≠ Some Gorsel_URL → csv.get row' k = csv.get row k.
Proof.
  induction l as [ | i l IH]; intros s; cbn [process_rows].
  - apply same_but_reference_refl.
  - destruct (process_row env args i s) as [s1 | e] eqn:E.
    + exact (same_but_reference_trans _ _ _
               (process_row_fields _ _ _ E) (IH s1)).
    + apply same_but_reference_refl.
Qed.

End FieldFacts.

(** ** The rows of videos *)

Section VideoRowFacts.
Import YouTubeFetcher.
Context {W : Type}.
Variable urlparse : str → option ParseResult.
Variable parse_qs : str → gmap str (list str).
Variable api_get : str → W → option json * W.
Variable strftime_of_iso : str → option str.

Abbreviation process_video' :=
  (process_video urlparse parse_qs api_get strftime_of_iso).

Lemma row_get_set_other (d : row) (k k' : csv.key) (v : cell) :
  k' ≠ k → row_get (row_set d k v) k' = row_get d k'.
Proof.
  intros Hne. induction d as [ | [k0 v0] d IH]; cbn.
  - rewrite bool_decide_eq_false_2 by congruence. reflexivity.
  - destruct (decide (k0 = k)) as [-> | H0].
    + rewrite (bool_decide_eq_true_2 (k = k)) by reflexivity. cbn.
      rewrite !bool_decide_eq_false_2 by congruence. reflexivity.
    + rewrite (bool_decide_eq_false_2 _ H0). cbn. rewrite IH. reflexivity.
Qed.

Lemma row_get_if (b : bool) (d : row) (k k' : csv.key) (v : cell) :
  (b = false → k' ≠ k) →
  row_get (if b then d else row_set d k v) k' = row_get d k'.
Proof.
  destruct b; [ reflexivity | ]. intros H. apply row_get_set_other, H.
  reflexivity.
Qed.

(** X20.  The body of the loop over the videos never replaces what a
    row has.  Fields other than the description, the image and the
    date are left as they are; the image and the date are left as they
    are when they are not empty, and the description when it is not
    empty and is not the title.  Unless the row is counted as updated
    it is not changed at all, and when it is skipped, or its link gives
    no id, no request is made. *)
Theorem present_fields_are_kept :
  ∀ (r r' : row) (w w' : W) (o : outcome),
    process_video' r w = Ok (r', o, w') →
    (∀ k, k ∉ [Some Aciklama; Some Main.Gorsel_URL; Some Tarih] →
          row_get r' k = row_get r k)
    ∧ (∀ image, get_stripped r Main.Gorsel_URL = Ok image →
                Py.truthy image = true →
                row_get r' (Some Main.Gorsel_URL)
                = row_get r (Some Main.Gorsel_URL))
    ∧ (∀ date, get_stripped r Tarih = Ok date →
               Py.truthy date = true →
               row_get r' (Some Tarih) = row_get r (Some Tarih))
    ∧ (∀ text heading,
         get_stripped r Aciklama = Ok text →
         get_stripped r Baslik = Ok heading →
         Py.truthy text = true → text ≠ heading →
         row_get r' (Some Aciklama) = row_get r (Some Aciklama))
    ∧ (o ≠ Updated → r' = r)
    ∧ (o = Skipped ∨ (∃ link, o = Failed link (lit "Invalid URL")) →
       w' = w).
Proof.
  intros r r' w w' o H. unfold process_video in H.
  destruct (get_stripped r Main.Link) as [link | e]; [ | discriminate ].
  cbn [mbind result_bind] in H.
  destruct (extract_video_id urlparse parse_qs link) as [video_id | e];
    [ | discriminate ].
  destruct (negb (from_option Py.truthy false video_id)).
  { injection H as <- <- <-. repeat split; try reflexivity. }
  destruct (get_stripped r Aciklama) as [text | e]; [ | discriminate ].
  cbn [mbind result_bind] in H.
  destruct (get_stripped r Baslik) as [heading | e]; [ | discriminate ].
  cbn [mbind result_bind] in H.
  destruct (get_stripped r Main.Gorsel_URL) as [image | e]; [ | discriminate ].
  cbn [mbind result_bind] in H.
  destruct (get_stripped r Tarih) as [date | e]; [ | discriminate ].
  cbn [mbind result_bind] in H.
  set (has_real := Py.truthy text && negb (bool_decide (text = heading))) in H.
  destruct (has_real && Py.truthy image && Py.truthy date) eqn:Eall.
  { injection H as <- <- <-. repeat split; try reflexivity. }
  destruct (fetch_video_data api_get (default [] video_id) w)
    as [[video_data | ] w1].
  2: { injection H as <- <- <-. repeat split; try reflexivity.
       intros [[=] | (l & [=])]. }
  injection H as <- <- <-.
  assert (Hkeys : Some Aciklama ≠ Some Main.Gorsel_URL
                  ∧ Some Aciklama ≠ Some Tarih
                  ∧ Some Main.Gorsel_URL ≠ Some Tarih).
  { repeat split; discriminate. }
  destruct Hkeys as (Hag & Hat & Hgt).
  split; [ | split; [ | split; [ | split; [ | split ] ] ] ].
  - intros k Hk. rewrite !not_elem_of_cons in Hk.
    destruct Hk as (Ha & Hg & Ht & _).
    rewrite !row_get_if by (intros _; assumption). reflexivity.
  - intros image' [= <-] Himg. rewrite Himg.
    repeat rewrite row_get_if
      by first [ discriminate | intros _; congruence ].
    reflexivity.
  - intros date' [= <-] Hdate. rewrite Hdate.
    repeat rewrite row_get_if
      by first [ discriminate | intros _; congruence ].
    reflexivity.
  - intros text' heading' [= <-] [= <-] Htext Hne.
    assert (Hreal : has_real = true).
    { subst has_real. rewrite Htext, (bool_decide_eq_false_2 _ Hne).
      reflexivity. }
    rewrite Hreal.
    repeat rewrite row_get_if
      by first [ discriminate | intros _; congruence ].
    reflexivity.
  - intros Ho. destruct (Ho eq_refl).
  - intros [[=] | (l & [=])].
Qed.

End VideoRowFacts.

Lemma present_fields_are_kept_witness :
  let parsed := {| YouTubeFetcher.hostname := Some (lit "youtu.be");
                   YouTubeFetcher.path := lit "/dQw4w9WgXcQ";
                   YouTubeFetcher.query := [] |} in
  let snippet :=
    YouTubeFetcher.JDict
      [(lit "title", YouTubeFetcher.JStr (lit "Cake"));
       (lit "description", YouTubeFetcher.JStr (lit "How to bake"));
       (lit "publishedAt", YouTubeFetcher.JStr (lit "2024-02-01T00:00:00Z"));
       (lit "thumbnails",
        YouTubeFetcher.JDict
          [(lit "high",
            YouTubeFetcher.JDict
              [(lit "url", YouTubeFetcher.JStr (lit "h.jpg"))])])] in
  let answer :=
    YouTubeFetcher.JDict
      [(lit "items",
        YouTubeFetcher.JList
          [YouTubeFetcher.JDict [(lit "snippet", snippet)]])] in
  let r : YouTubeFetcher.row :=
    [(Some Main.Link,
      YouTubeFetcher.FromFile (csv.VStr (lit "https://youtu.be/dQw4w9WgXcQ")));
     (Some YouTubeFetcher.Tarih,
      YouTubeFetcher.FromFile (csv.VStr (lit "31.01.2024")))] in
  ∃ r' w',
    YouTubeFetcher.process_video (λ _, Some parsed) (λ _, ∅)
      (λ _ (w : nat), (Some answer, S w)) (λ _, Some (lit "01.02.2024")) r 0%nat
    = Ok (r', YouTubeFetcher.Updated, w')
    ∧ YouTubeFetcher.row_get r' (Some YouTubeFetcher.Tarih)
      = Some (YouTubeFetcher.FromFile (csv.VStr (lit "31.01.2024"))).
Proof.
  intros parsed snippet answer r.
  destruct (YouTubeFetcher.process_video (λ _, Some parsed) (λ _, ∅)
              (λ _ (w : nat), (Some answer, S w))
              (λ _, Some (lit "01.02.2024")) r 0%nat)
    as [[[r' o] w'] | e] eqn:E; [ | vm_compute in E; discriminate ].
  assert (Ho : o = YouTubeFetcher.Updated).
  { pose proof E as E'. vm_compute in E'. congruence. }
  subst o. exists r', w'. split; [ reflexivity | ].
  destruct (present_fields_are_kept _ _ _ _ _ _ _ _ _ E)
    as (_ & _ & Hdate & _).
  rewrite (Hdate (lit "31.01.2024")); reflexivity.
Defined.

(** ** Dates for the migration *)

Section DateFacts.
Import Migrate.

Lemma split_cons (sep : N) (s h : str) (t : list str) :
  Py.split sep s = h :: t →
  (t = [] ∧ s = h) ∨ (∃ rest, s = h ++ sep :: rest ∧ Py.split sep rest = t).
Proof.
  revert h t. induction s as [ | c s IH]; intros h t H; cbn in H.
  - injection H as <- <-. left. split; reflexivity.
  - destruct (c =? sep) eqn:E.
    + apply N.eqb_eq in E as ->. injection H as <- <-.
      right. exists s. split; reflexivity.
    + destruct (Py.split sep s) as [ | h' t'] eqn:Es.
      * injection H as <- <-.
        destruct (split_head sep s) as (? & ? & Hs & _). congruence.
      * injection H as <- <-.
        destruct (IH h' t' eq_refl) as [[-> ->] | (rest & -> & Hr)].
        -- left. split; reflexivity.
        -- right. exists rest. split; [ reflexivity | exact Hr ].
Qed.

Lemma split_plain (sep : N) (s : str) : sep ∉ s → Py.split sep s = [s].
Proof.
  induction s as [ | c s IH]; intros H; [ reflexivity | ].
  apply not_elem_of_cons in H as [Hc Hs]. cbn.
  destruct (c =? sep) eqn:E; [ apply N.eqb_eq in E; congruence | ].
  rewrite (IH Hs). reflexivity.
Qed.

Lemma split_app_sep (sep : N) (a rest : str) :
  sep ∉ a → Py.split sep (a ++ sep :: rest) = a :: Py.split sep rest.
Proof.
  induction a as [ | c a IH]; intros H; cbn.
  - rewrite N.eqb_refl. reflexivity.
  - apply not_elem_of_cons in H as [Hc Ha].
    destruct (c =? sep) eqn:E; [ apply N.eqb_eq in E; congruence | ].
    rewrite (IH Ha). reflexivity.
Qed.

Lemma contains_char_true (c : N) (s : str) :
  c ∈ s → Py.contains [c] s = true.
Proof.
  induction s as [ | a s IH]; intros H; [ inversion H | ].
  cbn. rewrite Bool.andb_true_r.
  apply elem_of_cons in H as [-> | H].
  - rewrite N.eqb_refl. reflexivity.
  - rewrite (IH H). apply Bool.orb_true_r.
Qed.

Lemma zfill_length (width : nat) (s : str) :
  length (zfill width s) = (length s `max` width)%nat.
Proof.
  unfold zfill. destruct s as [ | c s]; cbn [length].
  - rewrite length_replicate. lia.
  - destruct ((c =? 43) || (c =? 45)); cbn [length];
      rewrite length_app, length_replicate; cbn [length]; lia.
Qed.

(** X21.  [parse_date] gives a date exactly for the texts that, without
    the white space around them, are three parts separated by two
    dots; the date is the third part, the second and the first, with
    hyphens between them, the second and the first filled with zeros
    to two characters and otherwise as they came.  Nothing checks that
    a part is a number. *)
Theorem parse_date_result :
  ∀ (date_str r : str),
    parse_date date_str = Some r
    ↔ ∃ day month year,
        Py.strip date_str = day ++ [46] ++ month ++ [46] ++ year
        ∧ (46 ∉ day) ∧ (46 ∉ month) ∧ (46 ∉ year)
        ∧ r = year ++ lit "-" ++ zfill 2 month ++ lit "-" ++ zfill 2 day
        ∧ (2 ≤ length (zfill 2 month))%nat
        ∧ (2 ≤ length (zfill 2 day))%nat.
Proof.
  intros date_str r. unfold parse_date. split.
  - destruct (negb (Py.truthy date_str) || _); [ discriminate | ].
    destruct (Py.split 46 (Py.strip date_str))
      as [ | day [ | month [ | year [ | ]]]] eqn:Es; try discriminate.
    intros [= <-]. exists day, month, year.
    assert (Hparts : ∀ p, p ∈ [day; month; year] → 46 ∉ p).
    { intros p Hp. apply (split_no_sep 46 (Py.strip date_str)).
      rewrite Es. exact Hp. }
    apply split_cons in Es as [[[=] _] | (rest1 & Hs1 & Es1)].
    apply split_cons in Es1 as [[[=] _] | (rest2 & Hs2 & Es2)].
    apply split_cons in Es2 as [[_ Hs3] | (rest3 & _ & Es3)].
    2: { destruct (split_head 46 rest3) as (? & ? & Hs & _). congruence. }
    split; [ rewrite Hs1, Hs2, Hs3; reflexivity | ].
    split; [ apply Hparts; left | ].
    split; [ apply Hparts; right; left | ].
    split; [ apply Hparts; right; right; left | ].
    split; [ reflexivity | ].
    rewrite !zfill_length. lia.
  - intros (day & month & year & Hs & Hd & Hm & Hy & -> & _).
    assert (Hin : 46 ∈ date_str).
    { apply elem_of_strip. rewrite Hs, !elem_of_app.
      right. left. left. }
    change (lit ".") with [46]. rewrite (contains_char_true _ _ Hin).
    destruct date_str as [ | c s]; [ inversion Hin | ].
    cbn [Py.truthy negb orb]. rewrite Hs.
    change (day ++ [46] ++ month ++ [46] ++ year)
      with (day ++ 46 :: month ++ 46 :: year).
    rewrite (split_app_sep _ _ _ Hd), (split_app_sep _ _ _ Hm),
      (split_plain _ _ Hy).
    reflexivity.
Qed.

End DateFacts.

(** ** The batches of the migration *)

Section BatchFacts.
Import Migrate.
Context {W Recipe : Type}.
Variable insert_batch : list Recipe → W → option bool * W.
Variable recipes : list Recipe.

Lemma batch_length (i : nat) :
  length (take BATCH_SIZE (drop i recipes))
  = (BATCH_SIZE `min` (length recipes - i))%nat.
Proof. rewrite length_take, length_drop. reflexivity. Qed.

(** From the batch numbered [a], with [m] batches to come and all the
    recipes before them counted: the count at the end is that of whole
    batches up to one that was refused, or of all the batches. *)
Lemma insert_batches_total (m : nat) :
  ∀ (a : nat) (w w' : W) (total : nat),
    insert_batches insert_batch recipes
      ((λ k, k * BATCH_SIZE)%nat <$> seq a m)
      ((a * BATCH_SIZE) `min` length recipes)%nat w
    = (Some total, w') →
    (∃ k, (a ≤ k < a + m)%nat
          ∧ total = ((k * BATCH_SIZE) `min` length recipes)%nat)
    ∨ total = (((a + m) * BATCH_SIZE) `min` length recipes)%nat.
Proof.
  induction m as [ | m IH]; intros a w w' total H; cbn in H.
  - injection H as <- _. right. rewrite Nat.add_0_r. reflexivity.
  - destruct (insert_batch _ w) as [[[ | ] | ] w1]; [ | | discriminate ].
    + rewrite batch_length in H.
      replace ((a * BATCH_SIZE) `min` length recipes
               + BATCH_SIZE `min` (length recipes - a * BATCH_SIZE))%nat
        with ((S a * BATCH_SIZE) `min` length recipes)%nat in H
        by (cbn [Nat.mul]; lia).
      apply IH in H as [(k & Hk & ->) | ->].
      * left. exists k. split; [ lia | reflexivity ].
      * right. f_equal. f_equal. lia.
    + injection H as <- _. left. exists a. split; [ lia | reflexivity ].
Qed.

Lemma batches_cover :
  ((length recipes + BATCH_SIZE - 1) / BATCH_SIZE * BATCH_SIZE
   ≥ length recipes)%nat.
Proof.
  unfold BATCH_SIZE.
  pose proof (Nat.div_mod_eq (length recipes + 500 - 1) 500) as Hd.
  pose proof (Nat.mod_upper_bound (length recipes + 500 - 1) 500) as Hm.
  lia.
Qed.

Lemma batches_start_inside (k : nat) :
  (k < (length recipes + BATCH_SIZE - 1) / BATCH_SIZE)%nat →
  (k * BATCH_SIZE < length recipes)%nat.
Proof.
  unfold BATCH_SIZE.
  pose proof (Nat.div_mod_eq (length recipes + 500 - 1) 500) as Hd.
  pose proof (Nat.mod_upper_bound (length recipes + 500 - 1) 500) as Hm.
  lia.
Qed.

Lemma concat_batches (m : nat) :
  concat ((λ i, take BATCH_SIZE (drop i recipes))
            <$> ((λ k, k * BATCH_SIZE)%nat <$> seq 0 m))
  = take (m * BATCH_SIZE) recipes.
Proof.
  induction m as [ | m IH]; [ reflexivity | ].
  rewrite seq_S, !fmap_app, concat_app, IH. cbn [fmap list_fmap concat].
  rewrite app_nil_r, Nat.add_0_l, take_take_drop. f_equal. lia.
Qed.

(** The batches are the recipes cut in pieces, none of them empty and
    none of more than 500. *)
Lemma batches_concat : concat (batches recipes) = recipes.
Proof.
  unfold batches, range_step. rewrite concat_batches.
  apply take_ge. pose proof batches_cover. lia.
Qed.

Lemma batches_sizes (b : list Recipe) :
  b ∈ batches recipes → (0 < length b ≤ BATCH_SIZE)%nat.
Proof.
  unfold batches, range_step.
  intros (i & -> & (k & -> & Hk)%list_elem_of_fmap)%list_elem_of_fmap.
  apply elem_of_seq in Hk as [_ Hk]. cbn [Nat.add] in Hk.
  apply batches_start_inside in Hk. rewrite batch_length.
  unfold BATCH_SIZE in *. lia.
Qed.

(** The loop from any list of starts: the batches sent and accepted
    are the first ones, and the loop ends with the last batch or with
    the first one refused. *)
Lemma insert_batches_sent (starts : list nat) :
  ∀ (acc : nat) (w w' : W) (total : nat),
    insert_batches insert_batch recipes starts acc w = (Some total, w') →
    ∃ sent w1,
      accepted insert_batch sent w = Some w1
      ∧ total = (acc + length (concat sent))%nat
      ∧ ((sent = (λ i, take BATCH_SIZE (drop i recipes)) <$> starts
          ∧ w' = w1)
         ∨ ∃ b rest,
             (λ i, take BATCH_SIZE (drop i recipes)) <$> starts
             = sent ++ b :: rest
             ∧ insert_batch b w1 = (Some false, w')).
Proof.
  induction starts as [ | i starts IH]; intros acc w w' total H;
    cbn [insert_batches] in H.
  - injection H as <- <-. exists [], w. cbn.
    split; [ reflexivity | ]. split; [ lia | ]. left. auto.
  - destruct (insert_batch (take BATCH_SIZE (drop i recipes)) w)
      as [[[ | ] | ] w2] eqn:E; [ | | discriminate ].
    + apply IH in H as (sent & w1 & Ha & -> & Hend).
      exists (take BATCH_SIZE (drop i recipes) :: sent), w1.
      cbn [accepted concat fmap list_fmap]. rewrite E.
      split; [ exact Ha | ]. split; [ rewrite length_app; lia | ].
      destruct Hend as [[-> ->] | (b & rest & Hb & Hw)].
      * left. auto.
      * right. exists b, rest. rewrite Hb. auto.
    + injection H as <- <-. exists [], w. cbn [accepted concat length].
      split; [ reflexivity | ]. split; [ lia | ]. right.
      exists (take BATCH_SIZE (drop i recipes)),
        ((λ i, take BATCH_SIZE (drop i recipes)) <$> starts).
      split; [ reflexivity | exact E ].
Qed.

(** X22.  The batches of the migration are the recipes cut in pieces of
    500, the last one of what is left.  When no exception ends the
    loop, some first batches were sent one after the other and each
    was accepted by [insert_batch], and the count reported is the
    number of the recipes in them, which are the first recipes of the
    list.  Either these are all the batches, and the count is the
    number of recipes; or the batch that follows them was refused by
    [insert_batch], nothing was sent after it, and the count is a
    whole number of batches of 500 and less than the number of
    recipes. *)
Theorem migrate_batches_total :
  concat (batches recipes) = recipes
  ∧ (∀ b, b ∈ batches recipes → (0 < length b ≤ BATCH_SIZE)%nat)
  ∧ ∀ (w w' : W) (total : nat),
      migrate_batches insert_batch recipes w = (Some total, w') →
      ∃ (sent : list (list Recipe)) (w1 : W),
        accepted insert_batch sent w = Some w1
        ∧ total = length (concat sent)
        ∧ concat sent = take total recipes
        ∧ ((sent = batches recipes ∧ w' = w1 ∧ total = length recipes)
           ∨ ∃ b rest,
               batches recipes = sent ++ b :: rest
               ∧ insert_batch b w1 = (Some false, w')
               ∧ total = (length sent * BATCH_SIZE)%nat
               ∧ (total < length recipes)%nat).
Proof.
  split; [ apply batches_concat | ]. split; [ apply batches_sizes | ].
  intros w w' total H. unfold migrate_batches in H.
  apply insert_batches_sent in H as (sent & w1 & Ha & Ht & Hend).
  fold (batches recipes) in Hend. cbn [Nat.add] in Ht.
  exists sent, w1. split; [ exact Ha | ]. split; [ exact Ht | ].
  assert (Hprefix : ∃ rest, batches recipes = sent ++ rest).
  { destruct Hend as [[-> _] | (b & rest & -> & _)].
    - exists []. rewrite app_nil_r. reflexivity.
    - eauto. }
  split.
  { destruct Hprefix as [rest Hrest]. subst total.
    transitivity (take (length (concat sent)) (concat (batches recipes)));
      [ | rewrite batches_concat; reflexivity ].
    rewrite Hrest, concat_app, take_app_length. reflexivity. }
  destruct Hend as [[-> ->] | (b & rest & Hb & Hw)].
  - left. rewrite batches_concat in Ht. auto.
  - right. exists b, rest. split; [ exact Hb | ]. split; [ exact Hw | ].
    assert (Hfull : Forall (λ c : list Recipe, length c = BATCH_SIZE) sent).
    { apply Forall_forall. intros c Hc.
      apply list_elem_of_lookup in Hc as [k Hk].
      pose proof (lookup_lt_Some _ _ _ Hk) as Hlt.
      assert (Hk' : batches recipes !! k = Some c).
      { rewrite Hb. rewrite lookup_app_l by exact Hlt. exact Hk. }
      assert (Hnext : is_Some (batches recipes !! S k)).
      { apply lookup_lt_is_Some. rewrite Hb, length_app. cbn. lia. }
      unfold batches, range_step in Hk', Hnext.
      rewrite !list_lookup_fmap in Hk', Hnext.
      destruct Hnext as [c' Hc'].
      destruct (seq 0 _ !! S k) as [k1 | ] eqn:E1; [ | discriminate ].
      apply lookup_seq in E1 as [-> E1]. cbn [Nat.add] in E1.
      rewrite lookup_seq_lt in Hk' by lia. cbn in Hk'.
      injection Hk' as <-. rewrite batch_length.
      apply batches_start_inside in E1. unfold BATCH_SIZE in *. lia. }
    assert (Hlen : length (concat sent) = (length sent * BATCH_SIZE)%nat).
    { clear -Hfull. induction Hfull as [ | c sent Hc _ IH]; [ reflexivity | ].
      cbn [concat length]. rewrite length_app, Hc, IH. cbn [Nat.mul]. lia. }
    split; [ rewrite Ht; exact Hlen | ].
    assert (Hsize : (0 < length b ≤ BATCH_SIZE)%nat).
    { apply batches_sizes. rewrite Hb. apply elem_of_app. right. left. }
    pose proof (f_equal length batches_concat) as Hall.
    rewrite Hb, concat_app, length_app in Hall. cbn [concat] in Hall.
    rewrite length_app in Hall. lia.
Qed.

End BatchFacts.

Lemma migrate_batches_total_witness :
  ∃ total w' sent b,
    Migrate.migrate_batches
      (λ (b : list nat) (w : nat),
         (Some (bool_decide (w = 0%nat)), S w)) (seq 0 1200) 0%nat
    = (Some total, w')
    ∧ total = 500%nat
    ∧ sent = [seq 0 500]
    ∧ b = seq 500 500
    ∧ Migrate.accepted
        (λ (b : list nat) (w : nat), (Some (bool_decide (w = 0%nat)), S w))
        sent 0%nat = Some 1%nat.
Proof.
  destruct (Migrate.migrate_batches
              (λ (b : list nat) (w : nat),
                 (Some (bool_decide (w = 0%nat)), S w)) (seq 0 1200) 0%nat)
    as [[total | ] w'] eqn:E; [ | vm_compute in E; discriminate ].
  destruct (proj2 (proj2 (migrate_batches_total _ _)) _ _ _ E)
    as (sent & w1 & Ha & Ht & _).
  exists total, w', [seq 0 500], (seq 500 500).
  split; [ reflexivity | ].
  vm_compute in E. injection E as <- _.
  split; [ reflexivity | ]. split; [ reflexivity | ].
  split; reflexivity.
Defined.

(** ** The column of the hashtags *)

Section ColumnFacts.
Import Titles.

Lemma index_Some (x : str) (l : list str) (i : nat) :
  index x l = Some i →
  ∃ before after,
    l = before ++ x :: after ∧ (x ∉ before) ∧ i = length before.
Proof.
  revert i. induction l as [ | y l IH]; intros i H; cbn in H;
    [ discriminate | ].
  destruct (decide (y = x)) as [-> | Hne].
  - rewrite (bool_decide_eq_true_2 (x = x)) in H by reflexivity.
    injection H as <-. exists [], l.
    split; [ reflexivity | split; [ apply not_elem_of_nil | reflexivity ] ].
  - rewrite (bool_decide_eq_false_2 _ Hne) in H.
    destruct (index x l) as [j | ]; [ | discriminate ].
    injection H as <-.
    destruct (IH j eq_refl) as (before & after & -> & Hb & ->).
    exists (y :: before), after. split; [ reflexivity | ].
    split; [ | reflexivity ].
    rewrite not_elem_of_cons. split; [ congruence | exact Hb ].
Qed.

Lemma index_None (x : str) (l : list str) : index x l = None → x ∉ l.
Proof.
  induction l as [ | y l IH]; intros H; [ apply not_elem_of_nil | ].
  cbn in H. destruct (decide (y = x)) as [-> | Hne].
  - rewrite (bool_decide_eq_true_2 (x = x)) in H by reflexivity.
    discriminate.
  - rewrite (bool_decide_eq_false_2 _ Hne) in H.
    destruct (index x l); [ discriminate | ].
    rewrite not_elem_of_cons. split; [ congruence | apply IH; reflexivity ].
Qed.

(** X23.  The columns written are the columns read with [Hashtag] among
    them once more at most: they are left as they are when they have
    it; otherwise it is put right after the first [Tarih], or at the
    end when there is none.  The other columns keep their order. *)
Theorem new_fieldnames_result :
  ∀ fieldnames : list str,
    let new := new_fieldnames fieldnames in
    Hashtag ∈ new
    ∧ (Hashtag ∈ fieldnames → new = fieldnames)
    ∧ (Hashtag ∉ fieldnames →
       ∃ before after,
         fieldnames = before ++ after
         ∧ new = before ++ Hashtag :: after
         ∧ (Tarih ∉ fieldnames → after = [])
         ∧ (Tarih ∈ fieldnames →
            ∃ b, before = b ++ [Tarih] ∧ Tarih ∉ b)).
Proof.
  intros fieldnames new. subst new. unfold new_fieldnames.
  destruct (decide (Hashtag ∈ fieldnames)) as [Hin | Hout].
  { rewrite (bool_decide_eq_true_2 _ Hin).
    split; [ exact Hin | ]. split; [ reflexivity | ]. intros H.
    destruct (H Hin). }
  rewrite (bool_decide_eq_false_2 _ Hout).
  destruct (index Tarih fieldnames) as [i | ] eqn:Ei.
  - apply index_Some in Ei as (b & after & -> & Hb & ->).
    assert (Hnew : insert_at (length b + 1) Hashtag (b ++ Tarih :: after)
                   = (b ++ [Tarih]) ++ Hashtag :: after).
    { unfold insert_at.
      replace (b ++ Tarih :: after) with ((b ++ [Tarih]) ++ after)
        by (rewrite <- app_assoc; reflexivity).
      replace (length b + 1)%nat with (length (b ++ [Tarih]))
        by (rewrite length_app; reflexivity).
      rewrite take_app_length, drop_app_length. reflexivity. }
    rewrite Hnew.
    split; [ rewrite !elem_of_app; right; left | ].
    split; [ intros H; destruct (Hout H) | ]. intros _.
    exists (b ++ [Tarih]), after.
    split; [ rewrite <- app_assoc; reflexivity | ].
    split; [ reflexivity | ].
    split.
    + intros H. exfalso. apply H. rewrite elem_of_app. right. left.
    + intros _. exists b. split; [ reflexivity | exact Hb ].
  - apply index_None in Ei.
    split; [ rewrite elem_of_app; right; left | ].
    split; [ intros H; destruct (Hout H) | ]. intros _.
    exists fieldnames, []. split; [ rewrite app_nil_r; reflexivity | ].
    split; [ reflexivity | ].
    split; [ reflexivity | ]. intros H. destruct (Ei H).
Qed.

End ColumnFacts.

(** ** The rows a specification selects *)

Section RowRangeSpec.

Lemma split_joined (sep : N) (parts : list str) :
  parts ≠ [] → Forall (λ p, sep ∉ p) parts →
  Py.split sep (joined sep parts) = parts.
Proof.
  induction parts as [ | p parts IH]; [ congruence | ].
  intros _ Hall. apply Forall_cons in Hall as [Hp Hall].
  destruct parts as [ | q parts]; cbn [joined].
  - apply split_plain, Hp.
  - rewrite split_app_sep by exact Hp. f_equal.
    apply IH; [ discriminate | exact Hall ].
Qed.

Lemma contains_char_notin (c : N) (s : str) :
  c ∉ s → Py.contains [c] s = false.
Proof.
  intros H. destruct (Py.contains [c] s) eqn:E; [ | reflexivity ].
  exfalso. apply H. clear H.
  induction s as [ | a s IH]; cbn in E; [ discriminate | ].
  rewrite Bool.andb_true_r in E.
  apply Bool.orb_true_iff in E as [->%N.eqb_eq | E].
  - left.
  - right. apply IH, E.
Qed.

Lemma is_digit_cases (c : N) :
  is_digit c = true →
  c ∈ [48; 49; 50; 51; 52; 53; 54; 55; 56; 57]%N.
Proof.
  unfold is_digit. intros [H1%N.leb_le H2%N.leb_le]%andb_true_iff.
  assert (H : (c = 48 ∨ c = 49 ∨ c = 50 ∨ c = 51 ∨ c = 52 ∨ c = 53 ∨ c = 54
               ∨ c = 55 ∨ c = 56 ∨ c = 57)%N) by lia.
  repeat (destruct H as [-> | H]; [ set_solver | ]). subst c. set_solver.
Qed.

Lemma digit_is_digit (c : N) :
  is_digit c = true → Py.digit c = Some (Z.of_N c - 48)%Z.
Proof. unfold Py.digit, is_digit. intros ->. reflexivity. Qed.

Lemma digit_not_space (c : N) :
  is_digit c = true →
  Py.int_isspace c = false ∧ (c =? 95) = false ∧ (c =? 45) = false
  ∧ (c =? 43) = false.
Proof.
  intros H%is_digit_cases.
  repeat (apply elem_of_cons in H as [-> | H]; [ repeat split | ]).
  inversion H.
Qed.

Lemma int_lstrip_digits (s : str) :
  Forall (λ c, is_digit c = true) s → Py.int_lstrip s = s.
Proof.
  destruct 1 as [ | c s Hc _]; [ reflexivity | ]. cbn [Py.int_lstrip].
  destruct (digit_not_space c Hc) as [-> _]. reflexivity.
Qed.

Lemma int_strip_digits (s : str) :
  Forall (λ c, is_digit c = true) s → Py.int_strip s = s.
Proof.
  intros H. unfold Py.int_strip.
  rewrite (int_lstrip_digits s H).
  rewrite int_lstrip_digits by (apply Forall_rev, H).
  apply rev_involutive.
Qed.

Lemma count_digits_digits (s : str) :
  Forall (λ c, is_digit c = true) s → Py.count_digits s = length s.
Proof.
  induction 1 as [ | c s Hc _ IH]; [ reflexivity | ].
  cbn [Py.count_digits length]. rewrite (digit_is_digit c Hc), IH.
  reflexivity.
Qed.

Lemma digits_digits (s : str) (acc : Z) :
  Forall (λ c, is_digit c = true) s →
  Py.digits acc false s
  = Some (foldl (λ acc c, acc * 10 + (Z.of_N c - 48))%Z acc s).
Proof.
  intros H. revert acc. induction H as [ | c s Hc _ IH]; intros acc;
    [ reflexivity | ].
  cbn [Py.digits foldl]. destruct (digit_not_space c Hc) as (_ & -> & _).
  rewrite (digit_is_digit c Hc). apply IH.
Qed.

(** [int] on a text of digits. *)
Lemma int_digits (s : str) :
  Forall (λ c, is_digit c = true) s →
  Py.int s
  = if bool_decide (s ≠ [] ∧ (length s ≤ Py.int_max_str_digits)%nat)
    then Some (number s) else None.
Proof.
  intros H. unfold Py.int. rewrite (int_strip_digits s H).
  destruct s as [ | c s].
  { rewrite bool_decide_eq_false_2 by (intros [? _]; congruence).
    reflexivity. }
  pose proof H as Hall. apply Forall_cons in H as [Hc Hs].
  destruct (digit_not_space c Hc) as (_ & _ & -> & ->).
  unfold Py.unsigned. rewrite (count_digits_digits _ Hall).
  destruct (Py.int_max_str_digits <? length (c :: s))%nat eqn:E.
  - apply Nat.ltb_lt in E.
    rewrite bool_decide_eq_false_2 by (intros [_ ?]; lia). reflexivity.
  - apply Nat.ltb_ge in E.
    rewrite bool_decide_eq_true_2 by (split; [ discriminate | exact E ]).
    rewrite (digit_is_digit c Hc), (digits_digits s _ Hs).
    unfold number. cbn [foldl]. rewrite Z.mul_0_l, Z.add_0_l. reflexivity.
Qed.

Lemma int_numeral (s : str) : numeral s → Py.int s = Some (number s).
Proof.
  intros (Hne & Hd & Hl). rewrite (int_digits s Hd).
  rewrite bool_decide_eq_true_2 by (split; assumption). reflexivity.
Qed.

Lemma int_digits_Some (s : str) (n : Z) :
  Forall (λ c, is_digit c = true) s →
  Py.int s = Some n → numeral s ∧ n = number s.
Proof.
  intros Hd. rewrite (int_digits s Hd).
  case_bool_decide as H; [ | discriminate ].
  intros [= <-]. destruct H as [Hne Hl].
  split; [ split; [ exact Hne | split; assumption ] | reflexivity ].
Qed.

Lemma foldl_digits_nonneg (s : str) (acc : Z) :
  Forall (λ c, is_digit c = true) s → (0 ≤ acc)%Z →
  (0 ≤ foldl (λ acc c, acc * 10 + (Z.of_N c - 48)) acc s)%Z.
Proof.
  intros H. revert acc.
  induction H as [ | c s Hc _ IH]; intros acc Hacc; cbn [foldl].
  - exact Hacc.
  - apply IH. unfold is_digit in Hc.
    apply andb_true_iff in Hc as [H1%N.leb_le _]. lia.
Qed.

Lemma number_nonneg (s : str) :
  Forall (λ c, is_digit c = true) s → (0 ≤ number s)%Z.
Proof. intros H. apply foldl_digits_nonneg; [ exact H | lia ]. Qed.

(** The characters of a specification written with digits and minus
    signs, and commas between its parts. *)
Abbreviation part_chars :=
  (Forall (λ c : N, is_digit c = true ∨ c = 45%N)).

Lemma part_chars_digits (s : str) :
  part_chars s → 45%N ∉ s → Forall (λ c, is_digit c = true) s.
Proof.
  intros H Hn. apply Forall_forall. intros c Hc.
  rewrite Forall_forall in H. destruct (H c Hc) as [Hd | ->];
    [ exact Hd | contradiction ].
Qed.

Lemma digits_no_minus (s : str) :
  Forall (λ c, is_digit c = true) s → 45%N ∉ s.
Proof.
  intros H Hin. rewrite Forall_forall in H. specialize (H _ Hin).
  discriminate.
Qed.

(** What [parse_part] makes of a part. *)
Lemma parse_part_spec (part : str) (l : list Z) :
  part_chars part →
  parse_part part = Some l
  ↔ (numeral part ∧ l = [number part])
    ∨ ∃ a b,
        part = a ++ 45 :: b ∧ numeral a ∧ numeral b
        ∧ l = seqZ (number a) (number b + 1 - number a).
Proof.
  intros Hchars. unfold parse_part. change (lit "-") with [45%N].
  destruct (Py.contains [45%N] part) eqn:E.
  - split.
    + destruct (Py.split 45 part) as [ | a [ | b [ | ]]] eqn:Es;
        try discriminate.
      pose proof (split_no_sep 45 part a) as Ha.
      pose proof (split_no_sep 45 part b) as Hb.
      rewrite Es in Ha, Hb.
      specialize (Ha ltac:(left)). specialize (Hb ltac:(right; left)).
      apply split_cons in Es as [[[=] _] | (rest & -> & Es)].
      apply split_cons in Es as [[_ ->] | (rest' & _ & Es)].
      2: { destruct (split_head 45 rest') as (h & t & Hs & _).
           congruence. }
      apply Forall_app in Hchars as [Hca Hcb].
      apply Forall_cons in Hcb as [_ Hcb].
      pose proof (part_chars_digits _ Hca Ha) as Hda.
      pose proof (part_chars_digits _ Hcb Hb) as Hdb.
      destruct (Py.int a) as [start | ] eqn:Ea; [ | discriminate ].
      destruct (Py.int b) as [end_ | ] eqn:Eb; [ | discriminate ].
      cbn [mbind option_bind]. intros [= <-].
      apply (int_digits_Some _ _ Hda) in Ea as [Hna ->].
      apply (int_digits_Some _ _ Hdb) in Eb as [Hnb ->].
      right. exists a, b. auto.
    + intros [[(_ & Hd & _) _] | (a & b & -> & Hna & Hnb & ->)].
      { apply digits_no_minus, contains_char_notin in Hd. congruence. }
      rewrite split_app_sep by (apply digits_no_minus, Hna).
      rewrite split_plain by (apply digits_no_minus, Hnb).
      rewrite (int_numeral a Hna), (int_numeral b Hnb). reflexivity.
  - apply contains_char_false in E.
    pose proof (part_chars_digits _ Hchars E) as Hd. split.
    + destruct (Py.int part) as [n | ] eqn:En; [ | discriminate ].
      intros [= <-]. apply (int_digits_Some _ _ Hd) in En as [Hn ->].
      left. auto.
    + intros [[Hn ->] | (a & b & -> & _)].
      * rewrite (int_numeral part Hn). reflexivity.
      * exfalso. apply E. apply elem_of_app. right. left.
Qed.

Lemma parse_part_well_formed (part : str) :
  part_chars part → is_Some (parse_part part) ↔ well_formed_part part.
Proof.
  intros Hchars. split.
  - intros [l [[Hn _] | (a & b & Hp & Hna & Hnb & _)]%parse_part_spec];
      [ left; exact Hn | right; eauto | exact Hchars ].
  - intros [Hn | (a & b & Hp & Hna & Hnb)]; eexists;
      apply (parse_part_spec _ _ Hchars); [ left | right; exists a, b ];
      eauto.
Qed.

Lemma parse_parts_well_formed (parts : list str) :
  Forall part_chars parts →
  is_Some (parse_parts parts) ↔ Forall well_formed_part parts.
Proof.
  induction 1 as [ | part parts Hp _ IH]; cbn [parse_parts].
  - split; [ constructor | eauto ].
  - rewrite Forall_cons, <- IH, <- (parse_part_well_formed part Hp).
    destruct (parse_part part) as [l | ]; cbn [mbind option_bind].
    + destruct (parse_parts parts) as [rows | ]; cbn [mbind option_bind].
      * split; [ intros _; split; eauto | eauto ].
      * split; [ intros [? [=]] | intros [_ [? [=]]] ].
    + split; [ intros [? [=]] | intros [[? [=]] _] ].
Qed.

Lemma selects_parse_part (part : str) (n : Z) :
  part_chars part →
  selects part n ↔ ∃ ns, parse_part part = Some ns ∧ n ∈ ns.
Proof.
  intros Hchars. split.
  - intros [[Hn ->] | (a & b & Hp & Hna & Hnb & Hle)].
    + exists [number part].
      split; [ apply (parse_part_spec _ _ Hchars); left; auto | left ].
    + exists (seqZ (number a) (number b + 1 - number a)).
      split; [ apply (parse_part_spec _ _ Hchars); right; exists a, b; auto | ].
      apply elem_of_seqZ. lia.
  - intros (ns & [[Hn ->] | (a & b & Hp & Hna & Hnb & ->)]%parse_part_spec
            & Hin); [ | | exact Hchars ].
    + apply list_elem_of_singleton in Hin. left. auto.
    + apply elem_of_seqZ in Hin. right. exists a, b.
      split; [ exact Hp | ]. split; [ exact Hna | ].
      split; [ exact Hnb | lia ].
Qed.


End RowRangeSpec.

